(** * The pool matching service (services/MatchingService.js)

    A shallow embedding of the matching engine: great-circle distance,
    route estimation with its fallback, the waypoint heuristic, the
    compatibility decision and score, the fare split, pool ranking and
    driver dispatch.

    Numbers.  A JavaScript number is modelled as an extended real: a real
    number, one of the two infinities, or NaN.  Arithmetic is exact (no
    rounding to binary64, no overflow, one unsigned zero), but the special
    values behave as in the language: [0/0] is NaN, [x/0] is an infinity,
    every comparison with NaN is false, [Math.max], [Math.min] and
    [Math.round] propagate NaN.  [Math.sin], [Math.cos], [Math.sqrt] and
    [Math.atan2] are the real functions on finite arguments.  What the
    distance owes to rounding is stated on a second embedding of
    [calculateDistance], in binary64 (module [Binary64]).

    Effects.  An [async] method that reaches the routing provider is a
    computation over a [World] (the trace of requests issued and of console
    lines written) that either returns or throws. *)

From Stdlib Require Import Reals Lra Lia List String DecimalString ZArith Bool.
From Stdlib Require Import Permutation Sorted.
Import ListNotations.

Set Implicit Arguments.
Set Warnings "-register-all".
Open Scope string_scope.
Open Scope list_scope.
Local Open Scope R_scope.

(** ** Numbers *)

Module Num.

Inductive number : Type :=
| NaN
| Infinity (negative : bool)
| Num (x : R).

Definition Rle_b (x y : R) : bool := if Rle_dec x y then true else false.
Definition Rlt_b (x y : R) : bool := if Rlt_dec x y then true else false.
Definition Req_b (x y : R) : bool := if Req_dec_T x y then true else false.

Definition isNaN (a : number) : bool :=
  match a with NaN => true | _ => false end.

Definition isFinite (a : number) : bool :=
  match a with Num _ => true | _ => false end.

Definition neg (a : number) : number :=
  match a with
  | NaN => NaN
  | Infinity s => Infinity (negb s)
  | Num x => Num (- x)
  end.

Definition add (a b : number) : number :=
  match a, b with
  | NaN, _ | _, NaN => NaN
  | Infinity s, Infinity t => if Bool.eqb s t then Infinity s else NaN
  | Infinity s, Num _ => Infinity s
  | Num _, Infinity t => Infinity t
  | Num x, Num y => Num (x + y)
  end.

Definition sub (a b : number) : number := add a (neg b).

Definition mul (a b : number) : number :=
  match a, b with
  | NaN, _ | _, NaN => NaN
  | Infinity s, Infinity t => Infinity (xorb s t)
  | Infinity s, Num y => if Req_b y 0 then NaN else Infinity (xorb s (Rlt_b y 0))
  | Num x, Infinity t => if Req_b x 0 then NaN else Infinity (xorb (Rlt_b x 0) t)
  | Num x, Num y => Num (x * y)
  end.

Definition div (a b : number) : number :=
  match a, b with
  | NaN, _ | _, NaN => NaN
  | Infinity _, Infinity _ => NaN
  | Infinity s, Num y => Infinity (xorb s (Rlt_b y 0))
  | Num _, Infinity _ => Num 0
  | Num x, Num y =>
      if Req_b y 0
      then (if Req_b x 0 then NaN else Infinity (Rlt_b x 0))
      else Num (x / y)
  end.

(** The relational operators; each is false as soon as an operand is NaN. *)
Definition lt (a b : number) : bool :=
  match a, b with
  | NaN, _ | _, NaN => false
  | Infinity s, Infinity t => s && negb t
  | Infinity s, Num _ => s
  | Num _, Infinity t => negb t
  | Num x, Num y => Rlt_b x y
  end.

Definition le (a b : number) : bool :=
  match a, b with
  | NaN, _ | _, NaN => false
  | Infinity s, Infinity t => s || negb t
  | Infinity s, Num _ => s
  | Num _, Infinity t => negb t
  | Num x, Num y => Rle_b x y
  end.

Definition gt (a b : number) : bool := lt b a.
Definition ge (a b : number) : bool := le b a.

(** [===] on numbers. *)
Definition eqb (a b : number) : bool :=
  match a, b with
  | Infinity s, Infinity t => Bool.eqb s t
  | Num x, Num y => Req_b x y
  | _, _ => false
  end.

Definition of_nat (n : nat) : number := Num (INR n).

End Num.

Export Num.

Declare Scope js_scope.
Delimit Scope js_scope with js.
Bind Scope js_scope with number.
Notation "a + b" := (Num.add a b) : js_scope.
Notation "a - b" := (Num.sub a b) : js_scope.
Notation "a * b" := (Num.mul a b) : js_scope.
Notation "a / b" := (Num.div a b) : js_scope.
Notation "a <? b" := (Num.lt a b) (at level 70) : js_scope.
Notation "a <=? b" := (Num.le a b) (at level 70) : js_scope.
Notation "a >? b" := (Num.gt a b) (at level 70) : js_scope.
Notation "a >=? b" := (Num.ge a b) (at level 70) : js_scope.
Arguments Num x%_R.

(** ** The [Math] object *)

Module Math.

Definition PI : number := Num Rtrigo1.PI.

Definition sin (a : number) : number :=
  match a with Num x => Num (Rtrigo_def.sin x) | _ => NaN end.

Definition cos (a : number) : number :=
  match a with Num x => Num (Rtrigo_def.cos x) | _ => NaN end.

Definition sqrt (a : number) : number :=
  match a with
  | NaN => NaN
  | Infinity s => if s then NaN else Infinity false
  | Num x => if Rlt_b x 0 then NaN else Num (R_sqrt.sqrt x)
  end.

(** The angle of the point [(x, y)], in [(-PI, PI]]. *)
Definition Ratan2 (y x : R) : R :=
  if Rlt_b 0 x then atan (y / x)
  else if Rlt_b x 0 then
    (if Rle_b 0 y then atan (y / x) + Rtrigo1.PI else atan (y / x) - Rtrigo1.PI)
  else if Rlt_b 0 y then Rtrigo1.PI / 2
  else if Rlt_b y 0 then - (Rtrigo1.PI / 2)
  else 0.

Definition atan2 (y x : number) : number :=
  match y, x with
  | NaN, _ | _, NaN => NaN
  | Infinity s, Infinity t =>
      let q := if t then 3 * (Rtrigo1.PI / 4) else Rtrigo1.PI / 4 in
      Num (if s then - q else q)
  | Infinity s, Num _ =>
      Num (if s then - (Rtrigo1.PI / 2) else Rtrigo1.PI / 2)
  | Num y, Infinity t =>
      if t then Num (if Rle_b 0 y then Rtrigo1.PI else - Rtrigo1.PI) else Num 0
  | Num y, Num x => Num (Ratan2 y x)
  end.

(** Nearest integer, a tie going up: the floor of [x + 1/2]. *)
Definition round (a : number) : number :=
  match a with
  | Num x => Num (IZR (Int_part (x + / 2)))
  | _ => a
  end.

Definition max (a b : number) : number :=
  match a, b with
  | NaN, _ | _, NaN => NaN
  | _, _ => if Num.lt a b then b else a
  end.

Definition min (a b : number) : number :=
  match a, b with
  | NaN, _ | _, NaN => NaN
  | _, _ => if Num.lt b a then b else a
  end.

End Math.

(** ** Coordinates and distance *)

Record Coordinate : Type := {
  latitude : number;
  longitude : number
}.

Record NamedPoint : Type := {
  name : string;
  coordinate :> Coordinate
}.

Open Scope js_scope.

Definition toRadians (degrees : number) : number :=
  degrees * (Math.PI / Num 180).

Definition calculateDistance (point1 point2 : Coordinate) : number :=
  let R := Num 6371 in
  let dLat := toRadians (latitude point2 - latitude point1) in
  let dLon := toRadians (longitude point2 - longitude point1) in
  let lat1 := toRadians (latitude point1) in
  let lat2 := toRadians (latitude point2) in
  let a := Math.sin (dLat / Num 2) * Math.sin (dLat / Num 2) +
           Math.sin (dLon / Num 2) * Math.sin (dLon / Num 2) * Math.cos lat1 * Math.cos lat2 in
  let c := Num 2 * Math.atan2 (Math.sqrt a) (Math.sqrt (Num 1 - a)) in
  R * c.

(** ** Values, exceptions and the world *)

(** What the provider's reply can hold after JSON parsing. *)
Inductive value : Type :=
| VUndefined
| VNull
| VBool (b : bool)
| VNumber (n : number)
| VString (s : string)
| VArray (items : list value)
| VObject (fields : list (string * value)).

Inductive error : Type :=
| TypeError (message : string)
| AxiosError (message : string).

Inductive completion (A : Type) : Type :=
| Normal (a : A)
| Throw (e : error).
Arguments Normal {A} a.
Arguments Throw {A} e.

Record AxiosRequest : Type := {
  url : string;
  param_origin : string;
  param_destination : string;
  param_key : string;
  param_traffic_model : string;
  param_departure_time : string
}.

Inductive event : Type :=
| AxiosGet (request : AxiosRequest)
| ConsoleError (message : string) (err : error).

(** Oldest event first. *)
Definition World : Type := list event.

(** What the runtime and the network decide: the outcome of the n-th
    [axios.get] (numbered from 0), the coercion to a number of strings, arrays
    and objects, and the printing of numbers. *)
Record Host : Type := {
  axios_get : nat -> AxiosRequest -> completion value;
  ToNumber_composite : value -> completion number;
  Number_toString : number -> string;
  Number_toFixed : number -> nat -> string
}.

Definition Async (A : Type) : Type := World -> completion A * World.

Definition ret {A} (a : A) : Async A := fun w => (Normal a, w).

Definition throw {A} (e : error) : Async A := fun w => (Throw e, w).

Definition bind {A B} (c : Async A) (k : A -> Async B) : Async B :=
  fun w =>
    match c w with
    | (Normal a, w') => k a w'
    | (Throw e, w') => (Throw e, w')
    end.

Definition try_catch {A} (body : Async A) (handler : error -> Async A) : Async A :=
  fun w =>
    match body w with
    | (Normal a, w') => (Normal a, w')
    | (Throw e, w') => handler e w'
    end.

Definition lift {A} (c : completion A) : Async A := fun w => (c, w).

(** Sequencing of steps that may throw but do not touch the world. *)
Definition and_then {A B} (c : completion A) (k : A -> completion B) : completion B :=
  match c with
  | Normal a => k a
  | Throw e => Throw e
  end.

Definition console_error (message : string) (err : error) : Async unit :=
  fun w => (Normal tt, w ++ [ConsoleError message err]).

Definition count_requests (w : World) : nat :=
  List.length (filter (fun e => match e with AxiosGet _ => true | _ => false end) w).

Definition axios_get_call (host : Host) (request : AxiosRequest) : Async value :=
  fun w => (axios_get host (count_requests w) request, w ++ [AxiosGet request]).

Notation "x <- c ;; k" := (bind c (fun x => k))
  (at level 61, c at next level, right associativity).
Notation "c ;;; k" := (bind c (fun _ => k))
  (at level 61, right associativity).
Notation "x <-- c ;; k" := (and_then c (fun x => k))
  (at level 61, c at next level, right associativity).

Fixpoint lookup (key : string) (fields : list (string * value)) : value :=
  match fields with
  | [] => VUndefined
  | (k, v) :: rest => if String.eqb k key then v else lookup key rest
  end.

(** [v.key], for one of the names the service reads ([data], [routes],
    [length], [legs], [distance], [duration], [value], [text]); none of them
    is a method of arrays or strings.  An object lists each of its properties
    once. *)
Definition Get (v : value) (key : string) : completion value :=
  match v with
  | VUndefined => Throw (TypeError "Cannot read properties of undefined")
  | VNull => Throw (TypeError "Cannot read properties of null")
  | VObject fields => Normal (lookup key fields)
  | VArray items =>
      Normal (if String.eqb key "length" then VNumber (of_nat (List.length items)) else VUndefined)
  | VString s =>
      Normal (if String.eqb key "length" then VNumber (of_nat (String.length s)) else VUndefined)
  | VBool _ | VNumber _ => Normal VUndefined
  end.

Definition index_key (i : nat) : string :=
  NilZero.string_of_uint (Nat.to_uint i).

(** [v[i]], for a non-negative integer [i]. *)
Definition GetIndex (v : value) (i : nat) : completion value :=
  match v with
  | VUndefined => Throw (TypeError "Cannot read properties of undefined")
  | VNull => Throw (TypeError "Cannot read properties of null")
  | VObject fields => Normal (lookup (index_key i) fields)
  | VArray items => Normal (nth i items VUndefined)
  | VString s =>
      Normal (match String.get i s with
              | Some c => VString (String c EmptyString)
              | None => VUndefined
              end)
  | VBool _ | VNumber _ => Normal VUndefined
  end.

Definition ToBoolean (v : value) : bool :=
  match v with
  | VUndefined | VNull => false
  | VBool b => b
  | VNumber n => negb (isNaN n || Num.eqb n (Num 0))
  | VString s => negb (String.eqb s "")
  | VArray _ | VObject _ => true
  end.

Definition ToNumber (host : Host) (v : value) : completion number :=
  match v with
  | VUndefined => Normal NaN
  | VNull => Normal (Num 0)
  | VBool b => Normal (if b then Num 1 else Num 0)
  | VNumber n => Normal n
  | VString _ | VArray _ | VObject _ => ToNumber_composite host v
  end.

(** [Array.prototype.sort]: a stable sort; a comparator result that is NaN
    counts as zero.  With a consistent comparator any stable sort returns
    the same array; the model inserts each element, from the last to the
    first, in front of the sorted rest. *)
Definition SortCompare {A} (comparefn : A -> A -> number) (x y : A) : number :=
  let v := comparefn x y in
  if isNaN v then Num 0 else v.

(** The comparator wants [x] after [y]. *)
Definition sorts_after {A} (comparefn : A -> A -> number) (x y : A) : bool :=
  SortCompare comparefn x y >? Num 0.

Fixpoint sort_insert {A} (comparefn : A -> A -> number) (x : A) (sorted : list A) : list A :=
  match sorted with
  | [] => [x]
  | y :: rest =>
      if sorts_after comparefn x y
      then y :: sort_insert comparefn x rest
      else x :: y :: rest
  end.

Definition Array_sort {A} (comparefn : A -> A -> number) (array : list A) : list A :=
  fold_right (sort_insert comparefn) [] array.

(** [array.slice(1, -1)] *)
Definition slice_1_m1 {A} (array : list A) : list A :=
  removelast (tl array).

(** [array.join(separator)] on strings. *)
Fixpoint join (separator : string) (array : list string) : string :=
  match array with
  | [] => ""
  | [s] => s
  | s :: rest => (s ++ separator ++ join separator rest)%string
  end.

(** ** Rides, drivers and the service's records *)

Record PoolPassenger : Type := {
  passenger_name : string
}.

Module DriverSummary.
Record t : Type := {
  id : string;
  name : string;
  rating : number;
  vehicle : string
}.
End DriverSummary.

(** A ride document.  A new request and an existing ride have the same
    shape; [user_gender], [pool_passengers] and [driver] may be missing. *)
Record Ride : Type := {
  ride_id : string;
  user_name : string;
  user_gender : option string;
  pickup_location : NamedPoint;
  destination_location : NamedPoint;
  estimated_fare : number;
  allow_pooling : bool;
  female_only : bool;
  pool_passengers : option (list PoolPassenger);
  driver : option DriverSummary.t
}.

Inductive WaypointType : Type := pickup | drop.
Inductive Passenger : Type := existing | new.

Definition WaypointType_eqb (a b : WaypointType) : bool :=
  match a, b with pickup, pickup | drop, drop => true | _, _ => false end.

Definition Passenger_eqb (a b : Passenger) : bool :=
  match a, b with existing, existing | new, new => true | _, _ => false end.

Record Waypoint : Type := {
  location : NamedPoint;
  type : WaypointType;
  passenger : Passenger
}.

Module RouteDetails.
Record t : Type := {
  distance : number;
  duration : number;
  distanceText : value;
  durationText : value
}.
End RouteDetails.

Module PooledRoute.
Record t : Type := {
  distance : number;
  duration : number;
  pickupDistance : number;
  pickupTime : number;
  description : string;
  waypoints : list Waypoint
}.
End PooledRoute.

(** The object returned by [calculateRouteCompatibility]; the object built
    in its [catch] has only [isCompatible] and [score]. *)
Module Compatibility.
Record t : Type := {
  isCompatible : bool;
  detourDistance : option number;
  detourTime : option number;
  pickupTime : option string;
  routeDescription : option string;
  score : number;
  savings : option number
}.
End Compatibility.

Module PoolCandidate.
Record t : Type := {
  poolId : string;
  driverId : string;
  driverName : string;
  driverRating : number;
  vehicle : string;
  currentPickup : NamedPoint;
  currentDestination : NamedPoint;
  currentPassenger : string;
  fareShare : number;
  estimatedPickupTime : option string;
  route : option string;
  detourDistance : option number;
  detourTime : option number;
  compatibilityScore : number;
  savings : option number
}.
End PoolCandidate.

Module Driver.
Record t : Type := {
  id : string;
  name : string;
  rating : number;
  status : string;
  location : Coordinate;
  current_ride : option string
}.
End Driver.

(** [{...driver, distanceToPickup, estimatedArrival}] *)
Module NearbyDriver.
Record t : Type := {
  driver :> Driver.t;
  distanceToPickup : number;
  estimatedArrival : number
}.
End NearbyDriver.

Module Assignment.
Record t : Type := {
  driver : NearbyDriver.t;
  estimatedArrival : string;
  distance : string
}.
End Assignment.

Record MatchingService : Type := {
  GOOGLE_MAPS_API_KEY : option string;
  MAX_DETOUR_DISTANCE_KM : number;
  MAX_DETOUR_TIME_MINUTES : number;
  MAX_PICKUP_DISTANCE_KM : number;
  MAX_POOL_SIZE : number
}.

(** [new MatchingService()], in a process whose environment gives
    [GOOGLE_MAPS_API_KEY] the value [env_key]. *)
Definition constructor (env_key : option string) : MatchingService := {|
  GOOGLE_MAPS_API_KEY := env_key;
  MAX_DETOUR_DISTANCE_KM := Num 5;
  MAX_DETOUR_TIME_MINUTES := Num 15;
  MAX_PICKUP_DISTANCE_KM := Num 3;
  MAX_POOL_SIZE := Num 4
|}.

(** An absent property read as a number is NaN. *)
Definition number_of (field : option number) : number :=
  match field with Some n => n | None => NaN end.

(** [x !== 'female'] *)
Definition not_female (gender : option string) : bool :=
  match gender with
  | Some g => negb (String.eqb g "female")
  | None => true
  end.

(** ** The service *)

(** Reading a property of what may be [undefined] ([deref]) or [null]
    ([deref_null]). *)
Definition deref {A} (object : option A) : Async A :=
  match object with
  | Some o => ret o
  | None => throw (TypeError "Cannot read properties of undefined")
  end.

Definition deref_null {A} (object : option A) : Async A :=
  match object with
  | Some o => ret o
  | None => throw (TypeError "Cannot read properties of null")
  end.

Section Service.

Variable host : Host.
Variable this : MatchingService.

(** The loop [for (i = 0; i < waypoints.length - 1; i++)], the running
    total in [totalDistance]. *)
Fixpoint calculateTotalRouteDistance_loop (waypoints : list Waypoint) (totalDistance : number) : number :=
  match waypoints with
  | w :: (w' :: _) as rest =>
      calculateTotalRouteDistance_loop rest
        (totalDistance + calculateDistance (location w) (location w'))
  | _ => totalDistance
  end.

Definition calculateTotalRouteDistance (waypoints : list Waypoint) : number :=
  calculateTotalRouteDistance_loop waypoints (Num 0).

Definition generateRouteDescription (waypoints : list Waypoint) : string :=
  let locations := map (fun w => name (location w)) waypoints in
  ("Via " ++ join ", " (slice_1_m1 locations))%string.

Definition findOptimalWaypointOrder (waypoints : list Waypoint) : Async (option (list Waypoint)) :=
  let find_by p t :=
    find (fun w => Passenger_eqb (passenger w) p && WaypointType_eqb (type w) t) waypoints in
  let pickup1 := find_by existing pickup in
  let pickup2 := find_by new pickup in
  let drop1 := find_by existing drop in
  let drop2 := find_by new drop in
  pickup1 <- deref pickup1 ;;
  pickup2 <- deref pickup2 ;;
  let distanceToNewPickup := calculateDistance (location pickup1) (location pickup2) in
  drop1 <- deref drop1 ;;
  drop2 <- deref drop2 ;;
  let distanceBetweenDrops := calculateDistance (location drop1) (location drop2) in
  if distanceToNewPickup <? Num 2 then
    if distanceBetweenDrops <? Num 2 then
      ret (Some [pickup1; pickup2; drop1; drop2])
    else
      ret (Some [pickup1; pickup2; drop2; drop1])
  else
    let routeDistance := calculateDistance (location pickup1) (location drop1) in
    let detourDistance :=
      calculateDistance (location pickup1) (location pickup2) +
      calculateDistance (location pickup2) (location drop1) in
    if detourDistance - routeDistance <? Num 1 then
      ret (Some [pickup1; pickup2; drop1; drop2])
    else
      ret None.

Definition getOptimalPoolRoute (newRide existingRide : Ride) : Async (option PooledRoute.t) :=
  let waypoints := [
    {| location := pickup_location existingRide; type := pickup; passenger := existing |};
    {| location := pickup_location newRide; type := pickup; passenger := new |};
    {| location := destination_location existingRide; type := drop; passenger := existing |};
    {| location := destination_location newRide; type := drop; passenger := new |}
  ] in
  optimalOrder <- findOptimalWaypointOrder waypoints ;;
  match optimalOrder with
  | None => ret None
  | Some optimalOrder =>
      let totalDistance := calculateTotalRouteDistance optimalOrder in
      let totalDuration := totalDistance * Num 2 in
      ret (Some {|
        PooledRoute.distance := totalDistance;
        PooledRoute.duration := totalDuration;
        PooledRoute.pickupDistance :=
          calculateDistance (pickup_location existingRide) (pickup_location newRide);
        PooledRoute.pickupTime := Num 10;
        PooledRoute.description := generateRouteDescription optimalOrder;
        PooledRoute.waypoints := optimalOrder
      |})
  end.

(** [this.GOOGLE_MAPS_API_KEY && this.GOOGLE_MAPS_API_KEY.length > 0] *)
Definition key_configured : option string :=
  match GOOGLE_MAPS_API_KEY this with
  | Some key => if of_nat (String.length key) >? Num 0 then Some key else None
  | None => None
  end.

Definition directions_request (origin destination : Coordinate) (key : string) : AxiosRequest := {|
  url := "https://maps.googleapis.com/maps/api/directions/json";
  param_origin :=
    (Number_toString host (latitude origin) ++ "," ++ Number_toString host (longitude origin))%string;
  param_destination :=
    (Number_toString host (latitude destination) ++ "," ++
     Number_toString host (longitude destination))%string;
  param_key := key;
  param_traffic_model := "best_guess";
  param_departure_time := "now"
|}.

(** The [try] block of [getRouteDetails] from the reply on: [Some] when it
    reaches its [return], [None] when it falls out of the [if]. *)
Definition getRouteDetails_read (response : value) : completion (option RouteDetails.t) :=
  data <-- Get response "data" ;;
  routes <-- Get data "routes" ;;
  has_routes <--
    (if ToBoolean routes then
       data <-- Get response "data" ;;
       routes <-- Get data "routes" ;;
       len <-- Get routes "length" ;;
       len <-- ToNumber host len ;;
       Normal (len >? Num 0)
     else Normal false) ;;
  if has_routes then
    data <-- Get response "data" ;;
    routes <-- Get data "routes" ;;
    route <-- GetIndex routes 0 ;;
    legs <-- Get route "legs" ;;
    leg <-- GetIndex legs 0 ;;
    leg_distance <-- Get leg "distance" ;;
    distance_value <-- Get leg_distance "value" ;;
    distance_value <-- ToNumber host distance_value ;;
    leg_duration <-- Get leg "duration" ;;
    duration_value <-- Get leg_duration "value" ;;
    duration_value <-- ToNumber host duration_value ;;
    leg_distance <-- Get leg "distance" ;;
    distance_text <-- Get leg_distance "text" ;;
    leg_duration <-- Get leg "duration" ;;
    duration_text <-- Get leg_duration "text" ;;
    Normal (Some {|
      RouteDetails.distance := distance_value / Num 1000;
      RouteDetails.duration := duration_value / Num 60;
      RouteDetails.distanceText := distance_text;
      RouteDetails.durationText := duration_text
    |})
  else Normal None.

(** The [try] block of [getRouteDetails]. *)
Definition getRouteDetails_try (origin destination : Coordinate) : Async (option RouteDetails.t) :=
  match key_configured with
  | Some key =>
      response <- axios_get_call host (directions_request origin destination key) ;;
      lift (getRouteDetails_read response)
  | None => ret None
  end.

(** The statements after the [try]: the haversine estimate. *)
Definition getRouteDetails_fallback (origin destination : Coordinate) : RouteDetails.t :=
  let distance := calculateDistance origin destination in
  {|
    RouteDetails.distance := distance;
    RouteDetails.duration := distance * Num 2;
    RouteDetails.distanceText := VString (Number_toFixed host distance 1 ++ " km")%string;
    RouteDetails.durationText :=
      VString (Number_toString host (Math.round (distance * Num 2)) ++ " mins")%string
  |}.

Definition getRouteDetails (origin destination : Coordinate) : Async RouteDetails.t :=
  returned <-
    try_catch
      (getRouteDetails_try origin destination)
      (fun error => console_error "Google Maps API error:" error ;;; ret None) ;;
  match returned with
  | Some details => ret details
  | None => ret (getRouteDetails_fallback origin destination)
  end.

Definition calculateCompatibilityScore
    (detourDistance detourTime pickupDistance : number)
    (originalRoute : RouteDetails.t) (pooledRoute : PooledRoute.t) : number :=
  let score := Num 100 in
  let score := score - (detourDistance / MAX_DETOUR_DISTANCE_KM this) * Num 40 in
  let score := score - (detourTime / MAX_DETOUR_TIME_MINUTES this) * Num 30 in
  let score := score - (pickupDistance / MAX_PICKUP_DISTANCE_KM this) * Num 20 in
  let efficiencyBonus :=
    Math.max (Num 0)
      (Num 10 -
       (PooledRoute.distance pooledRoute / RouteDetails.distance originalRoute - Num 1) * Num 50) in
  let score := score + efficiencyBonus in
  Math.max (Num 0) (Math.min (Num 100) (Math.round score)).

Definition calculateSavings (newRideFare existingRideFare : number) : number :=
  let averageFare := (newRideFare + existingRideFare) / Num 2 in
  let pooledFare := averageFare * Num 0.75 in
  Math.round (averageFare - pooledFare).

Definition calculateFareShare (newRide existingRide : Ride) (compatibility : Compatibility.t) : number :=
  let baseFare := estimated_fare newRide in
  let poolDiscount := Num 0.25 in
  let detourPenalty := number_of (Compatibility.detourDistance compatibility) * Num 10 in
  let finalFare := Math.round (baseFare * (Num 1 - poolDiscount) + detourPenalty) in
  Math.max finalFare (baseFare * Num 0.6).

Definition calculateRouteCompatibility (newRide existingRide : Ride) : Async Compatibility.t :=
  try_catch
    (originalRoute <-
       getRouteDetails (pickup_location existingRide) (destination_location existingRide) ;;
     pooledRoute <- getOptimalPoolRoute newRide existingRide ;;
     pooledRoute <- deref_null pooledRoute ;;
     let detourDistance :=
       PooledRoute.distance pooledRoute - RouteDetails.distance originalRoute in
     let detourTime :=
       PooledRoute.duration pooledRoute - RouteDetails.duration originalRoute in
     let isCompatible :=
       (detourDistance <=? MAX_DETOUR_DISTANCE_KM this) &&
       (detourTime <=? MAX_DETOUR_TIME_MINUTES this) &&
       (PooledRoute.pickupDistance pooledRoute <=? MAX_PICKUP_DISTANCE_KM this) in
     let score :=
       calculateCompatibilityScore detourDistance detourTime
         (PooledRoute.pickupDistance pooledRoute) originalRoute pooledRoute in
     ret {|
       Compatibility.isCompatible := isCompatible;
       Compatibility.detourDistance := Some (Math.round (detourDistance * Num 100) / Num 100);
       Compatibility.detourTime := Some (Math.round detourTime);
       Compatibility.pickupTime :=
         Some (Number_toString host (Math.round (PooledRoute.pickupTime pooledRoute)) ++ " mins")%string;
       Compatibility.routeDescription := Some (PooledRoute.description pooledRoute);
       Compatibility.score := score;
       Compatibility.savings :=
         Some (calculateSavings (estimated_fare newRide) (estimated_fare existingRide))
     |})
    (fun error =>
       console_error "Error calculating route compatibility:" error ;;;
       ret {|
         Compatibility.isCompatible := false;
         Compatibility.detourDistance := None;
         Compatibility.detourTime := None;
         Compatibility.pickupTime := None;
         Compatibility.routeDescription := None;
         Compatibility.score := Num 0;
         Compatibility.savings := None
       |}).

(** [!existingRide.allow_pooling || (existingRide.pool_passengers &&
     existingRide.pool_passengers.length >= this.MAX_POOL_SIZE - 1)] *)
Definition closed_or_full (existingRide : Ride) : bool :=
  negb (allow_pooling existingRide) ||
  match pool_passengers existingRide with
  | Some passengers => of_nat (List.length passengers) >=? MAX_POOL_SIZE this - Num 1
  | None => false
  end.

(** The [for ... of] loop of [findAvailablePools]; [compatiblePools] is the
    array the loop pushes to. *)
Fixpoint findAvailablePools_loop (rideRequest : Ride) (existingRides : list Ride)
    (compatiblePools : list PoolCandidate.t) : Async (list PoolCandidate.t) :=
  match existingRides with
  | [] => ret compatiblePools
  | existingRide :: rest =>
      if closed_or_full existingRide then
        findAvailablePools_loop rideRequest rest compatiblePools
      else if female_only existingRide && not_female (user_gender rideRequest) then
        findAvailablePools_loop rideRequest rest compatiblePools
      else if female_only rideRequest && not_female (user_gender existingRide) then
        findAvailablePools_loop rideRequest rest compatiblePools
      else
        compatibility <- calculateRouteCompatibility rideRequest existingRide ;;
        if Compatibility.isCompatible compatibility then
          ride_driver <- deref_null (driver existingRide) ;;
          let candidate := {|
            PoolCandidate.poolId := ride_id existingRide;
            PoolCandidate.driverId := DriverSummary.id ride_driver;
            PoolCandidate.driverName := DriverSummary.name ride_driver;
            PoolCandidate.driverRating := DriverSummary.rating ride_driver;
            PoolCandidate.vehicle := DriverSummary.vehicle ride_driver;
            PoolCandidate.currentPickup := pickup_location existingRide;
            PoolCandidate.currentDestination := destination_location existingRide;
            PoolCandidate.currentPassenger := user_name existingRide;
            PoolCandidate.fareShare := calculateFareShare rideRequest existingRide compatibility;
            PoolCandidate.estimatedPickupTime := Compatibility.pickupTime compatibility;
            PoolCandidate.route := Compatibility.routeDescription compatibility;
            PoolCandidate.detourDistance := Compatibility.detourDistance compatibility;
            PoolCandidate.detourTime := Compatibility.detourTime compatibility;
            PoolCandidate.compatibilityScore := Compatibility.score compatibility;
            PoolCandidate.savings := Compatibility.savings compatibility
          |} in
          findAvailablePools_loop rideRequest rest (compatiblePools ++ [candidate])
        else
          findAvailablePools_loop rideRequest rest compatiblePools
  end.

Definition findAvailablePools (rideRequest : Ride) (existingRides : list Ride)
    : Async (list PoolCandidate.t) :=
  compatiblePools <- findAvailablePools_loop rideRequest existingRides [] ;;
  ret (Array_sort
         (fun a b => PoolCandidate.compatibilityScore b - PoolCandidate.compatibilityScore a)
         compatiblePools).

(** [driver.status !== 'online' || driver.current_ride] *)
Definition unavailable (driver : Driver.t) : bool :=
  negb (String.eqb (Driver.status driver) "online") ||
  match Driver.current_ride driver with Some _ => true | None => false end.

(** The loop of [findAvailableDrivers]; it reaches no provider and cannot
    throw, so it is a function. *)
Fixpoint findAvailableDrivers_loop (rideRequest : Ride) (availableDrivers : list Driver.t)
    (nearbyDrivers : list NearbyDriver.t) : list NearbyDriver.t :=
  match availableDrivers with
  | [] => nearbyDrivers
  | driver :: rest =>
      if unavailable driver then
        findAvailableDrivers_loop rideRequest rest nearbyDrivers
      else
        let distance := calculateDistance (pickup_location rideRequest) (Driver.location driver) in
        if distance <=? Num 10 then
          findAvailableDrivers_loop rideRequest rest
            (nearbyDrivers ++ [{|
               NearbyDriver.driver := driver;
               NearbyDriver.distanceToPickup := distance;
               NearbyDriver.estimatedArrival := Math.round (distance * Num 3)
             |}])
        else
          findAvailableDrivers_loop rideRequest rest nearbyDrivers
  end.

Definition findAvailableDrivers (rideRequest : Ride) (availableDrivers : list Driver.t)
    : list NearbyDriver.t :=
  Array_sort
    (fun a b => NearbyDriver.distanceToPickup a - NearbyDriver.distanceToPickup b)
    (findAvailableDrivers_loop rideRequest availableDrivers []).

(** [None] is the [null] the method returns. *)
Definition assignOptimalDriver (rideRequest : Ride) (availableDrivers : list Driver.t)
    : option Assignment.t :=
  let nearbyDrivers := findAvailableDrivers rideRequest availableDrivers in
  match nearbyDrivers with
  | [] => None
  | selectedDriver :: _ =>
      Some {|
        Assignment.driver := selectedDriver;
        Assignment.estimatedArrival :=
          (Number_toString host (NearbyDriver.estimatedArrival selectedDriver) ++ " minutes")%string;
        Assignment.distance :=
          (Number_toFixed host (NearbyDriver.distanceToPickup selectedDriver) 1 ++ " km away")%string
      |}
  end.

End Service.

(** ** Real-valued counterparts used in the statements *)

(** The quantity [a] of [calculateDistance], on reals. *)
Definition haversine_a (lat1 lon1 lat2 lon2 : R) : R :=
  (sin ((lat2 - lat1) * (PI / 180) / 2) * sin ((lat2 - lat1) * (PI / 180) / 2) +
   sin ((lon2 - lon1) * (PI / 180) / 2) * sin ((lon2 - lon1) * (PI / 180) / 2) *
   cos (lat1 * (PI / 180)) * cos (lat2 * (PI / 180)))%R.

Definition haversine_km (lat1 lon1 lat2 lon2 : R) : R :=
  let a := haversine_a lat1 lon1 lat2 lon2 in
  (6371 * (2 * Math.Ratan2 (sqrt a) (sqrt (1 - a))))%R.

(** A coordinate of the data model: finite degrees, latitude in [-90, 90]
    and longitude in [-180, 180]. *)
Definition valid_coordinate (c : Coordinate) : Prop :=
  exists lat lon : R,
    c = {| latitude := Num lat; longitude := Num lon |} /\
    (-90 <= lat <= 90)%R /\ (-180 <= lon <= 180)%R.

(** ** Names for the statements *)

(** The four waypoints [getOptimalPoolRoute] lays out for a pair of trips. *)
Definition existingPickup (existingRide : Ride) : Waypoint :=
  {| location := pickup_location existingRide; type := pickup; passenger := existing |}.
Definition newPickup (newRide : Ride) : Waypoint :=
  {| location := pickup_location newRide; type := pickup; passenger := new |}.
Definition existingDrop (existingRide : Ride) : Waypoint :=
  {| location := destination_location existingRide; type := drop; passenger := existing |}.
Definition newDrop (newRide : Ride) : Waypoint :=
  {| location := destination_location newRide; type := drop; passenger := new |}.

Definition pool_waypoints (newRide existingRide : Ride) : list Waypoint :=
  [existingPickup existingRide; newPickup newRide; existingDrop existingRide; newDrop newRide].

(** The object built in the [catch] of [calculateRouteCompatibility]. *)
Definition incompatible : Compatibility.t := {|
  Compatibility.isCompatible := false;
  Compatibility.detourDistance := None;
  Compatibility.detourTime := None;
  Compatibility.pickupTime := None;
  Compatibility.routeDescription := None;
  Compatibility.score := Num 0;
  Compatibility.savings := None
|}.

(** The object returned at the end of the [try] of
    [calculateRouteCompatibility], from the two routes. *)
Definition compatibility_of (host : Host) (this : MatchingService) (newRide existingRide : Ride)
    (originalRoute : RouteDetails.t) (pooledRoute : PooledRoute.t) : Compatibility.t :=
  let detourDistance := PooledRoute.distance pooledRoute - RouteDetails.distance originalRoute in
  let detourTime := PooledRoute.duration pooledRoute - RouteDetails.duration originalRoute in
  {|
    Compatibility.isCompatible :=
      (detourDistance <=? MAX_DETOUR_DISTANCE_KM this) &&
      (detourTime <=? MAX_DETOUR_TIME_MINUTES this) &&
      (PooledRoute.pickupDistance pooledRoute <=? MAX_PICKUP_DISTANCE_KM this);
    Compatibility.detourDistance := Some (Math.round (detourDistance * Num 100) / Num 100);
    Compatibility.detourTime := Some (Math.round detourTime);
    Compatibility.pickupTime :=
      Some (Number_toString host (Math.round (PooledRoute.pickupTime pooledRoute)) ++ " mins")%string;
    Compatibility.routeDescription := Some (PooledRoute.description pooledRoute);
    Compatibility.score :=
      calculateCompatibilityScore this detourDistance detourTime
        (PooledRoute.pickupDistance pooledRoute) originalRoute pooledRoute;
    Compatibility.savings :=
      Some (calculateSavings (estimated_fare newRide) (estimated_fare existingRide))
  |}.

Definition route_error : string := "Error calculating route compatibility:".

(** ** Sample data *)

Definition point (point_name : string) (lat lon : R) : NamedPoint :=
  {| name := point_name; coordinate := {| latitude := Num lat; longitude := Num lon |} |}.

Definition origin_point : NamedPoint := point "Origin" 0 0.
Definition antipode_point : NamedPoint := point "Antipode" 0 180.

Definition sample_driver : DriverSummary.t := {|
  DriverSummary.id := "d1";
  DriverSummary.name := "Asha";
  DriverSummary.rating := Num 5;
  DriverSummary.vehicle := "KA01AB1234"
|}.

Definition sample_ride (id : string) (from to : NamedPoint) (fare : R) : Ride := {|
  ride_id := id;
  user_name := "Rider";
  user_gender := Some "male";
  pickup_location := from;
  destination_location := to;
  estimated_fare := Num fare;
  allow_pooling := true;
  female_only := false;
  pool_passengers := Some [];
  driver := Some sample_driver
|}.

(** A host whose network is down. *)
Definition offline_host : Host := {|
  axios_get := fun _ _ => Throw (AxiosError "Network Error");
  ToNumber_composite := fun _ => Normal NaN;
  Number_toString := fun _ => "#";
  Number_toFixed := fun _ _ => "#"
|}.

(** A request at the antipode of a ride that stays at the origin. *)
Definition antipode_request : Ride := sample_ride "request" antipode_point antipode_point 300.
Definition origin_ride : Ride := sample_ride "r1" origin_point origin_point 300.

(** ** Driver dispatch, in the words of the specification *)

(** A driver that is online, has no current ride and is within 10 km of the
    request's pickup. *)
Definition eligible (rideRequest : Ride) (driver : Driver.t) : bool :=
  String.eqb (Driver.status driver) "online" &&
  match Driver.current_ride driver with None => true | Some _ => false end &&
  (calculateDistance (pickup_location rideRequest) (Driver.location driver) <=? Num 10).

(** The driver with its distance to the pickup and its arrival estimate,
    3 minutes per km. *)
Definition nearby (rideRequest : Ride) (driver : Driver.t) : NearbyDriver.t :=
  let distance := calculateDistance (pickup_location rideRequest) (Driver.location driver) in
  {|
    NearbyDriver.driver := driver;
    NearbyDriver.distanceToPickup := distance;
    NearbyDriver.estimatedArrival := Math.round (distance * Num 3)
  |}.

(** ** Pool matching, in the words of the specification *)

(** The existing ride's pool already holds [MAX_POOL_SIZE - 1 = 3] or more
    passengers. *)
Definition pool_full (existingRide : Ride) : Prop :=
  exists passengers,
    pool_passengers existingRide = Some passengers /\ (3 <= List.length passengers)%nat.

(** [candidate] carries the identity of [existingRide]. *)
Definition built_from (candidate : PoolCandidate.t) (existingRide : Ride) : Prop :=
  PoolCandidate.poolId candidate = ride_id existingRide /\
  PoolCandidate.currentPickup candidate = pickup_location existingRide /\
  PoolCandidate.currentDestination candidate = destination_location existingRide /\
  PoolCandidate.currentPassenger candidate = user_name existingRide.

Definition has_driver (existingRide : Ride) : Prop := driver existingRide <> None.

(** A request and two rides that stay at the origin: trips of length zero. *)
Definition origin_request : Ride := sample_ride "request" origin_point origin_point 300.
Definition origin_ride_2 : Ride := sample_ride "r2" origin_point origin_point 300.

(** [subsequence kept all]: [kept] is [all] with some elements left out. *)
Inductive subsequence {A : Type} : list A -> list A -> Prop :=
| subsequence_nil : subsequence [] []
| subsequence_skip (x : A) (kept all : list A) :
    subsequence kept all -> subsequence kept (x :: all)
| subsequence_keep (x : A) (kept all : list A) :
    subsequence kept all -> subsequence (x :: kept) (x :: all).

Definition score_is_number (candidate : PoolCandidate.t) : Prop :=
  isNaN (PoolCandidate.compatibilityScore candidate) = false.

(** A compatibility result with a given detour. *)
Definition compatibility_with_detour (detour : number) : Compatibility.t := {|
  Compatibility.isCompatible := true;
  Compatibility.detourDistance := Some detour;
  Compatibility.detourTime := Some (Num 10);
  Compatibility.pickupTime := Some "10 mins";
  Compatibility.routeDescription := Some "Via A, B";
  Compatibility.score := Num 50;
  Compatibility.savings := Some (Num 75)
|}.

Definition fare_100_request : Ride := sample_ride "request" origin_point antipode_point 100.

(** ** Replies of the routing provider *)

Definition maps_error : string := "Google Maps API error:".

(** A reply whose body has the given [routes]. *)
Definition reply (routes : value) : value :=
  VObject [("data", VObject [("routes", routes)])].

(** A reply the service can use as the provider documents it: a first route
    whose first leg carries a number of metres and a number of seconds. *)
Definition well_formed_reply (response : value) : Prop :=
  exists data route routes leg legs leg_distance leg_duration metres seconds,
    Get response "data" = Normal data /\
    Get data "routes" = Normal (VArray (route :: routes)) /\
    Get route "legs" = Normal (VArray (leg :: legs)) /\
    Get leg "distance" = Normal leg_distance /\
    Get leg_distance "value" = Normal (VNumber metres) /\
    Get leg "duration" = Normal leg_duration /\
    Get leg_duration "value" = Normal (VNumber seconds).

(** A leg whose distance and duration carry no value. *)
Definition leg_without_values : value :=
  VObject [("distance", VObject []); ("duration", VObject [])].

Definition malformed_reply : value :=
  reply (VArray [VObject [("legs", VArray [leg_without_values])]]).

Definition malformed_host : Host := {|
  axios_get := fun _ _ => Normal malformed_reply;
  ToNumber_composite := fun _ => Normal NaN;
  Number_toString := fun _ => "#";
  Number_toFixed := fun _ _ => "#"
|}.

(** ** Inputs the data model excludes *)

Definition finite_coordinate (c : Coordinate) : bool :=
  isFinite (latitude c) && isFinite (longitude c).

(** A request with a latitude that is not a number, a longitude out of
    range, a fare of zero and a gender outside the accepted values. *)
Definition invalid_request : Ride := {|
  ride_id := "request";
  user_name := "Rider";
  user_gender := Some "robot";
  pickup_location :=
    {| name := "Nowhere"; coordinate := {| latitude := NaN; longitude := Num 1000 |} |};
  destination_location := origin_point;
  estimated_fare := Num 0;
  allow_pooling := true;
  female_only := false;
  pool_passengers := Some [];
  driver := None
|}.

(** A ride whose pool already holds three passengers. *)
Definition full_ride : Ride := {|
  ride_id := "full";
  user_name := "Rider";
  user_gender := Some "male";
  pickup_location := origin_point;
  destination_location := antipode_point;
  estimated_fare := Num 300;
  allow_pooling := true;
  female_only := false;
  pool_passengers :=
    Some [{| passenger_name := "A" |}; {| passenger_name := "B" |}; {| passenger_name := "C" |}];
  driver := Some sample_driver
|}.

Definition sample_dispatch_driver (id : string) (status : string) (at_point : Coordinate)
    (ride : option string) : Driver.t := {|
  Driver.id := id;
  Driver.name := "Driver";
  Driver.rating := Num 5;
  Driver.status := status;
  Driver.location := at_point;
  Driver.current_ride := ride
|}.

Definition near_driver : Driver.t := sample_dispatch_driver "near" "online" origin_point None.
Definition far_driver : Driver.t := sample_dispatch_driver "far" "online" antipode_point None.
Definition busy_driver : Driver.t :=
  sample_dispatch_driver "busy" "online" origin_point (Some "ride-7").

(** A trip half way round the equator, and a request for the same trip. *)
Definition equator_ride : Ride := sample_ride "r1" origin_point antipode_point 300.
Definition equator_request : Ride := sample_ride "request" origin_point antipode_point 300.

(** A reply as the provider documents it: 12 km in 30 minutes. *)
Definition sample_leg : value :=
  VObject [("distance", VObject [("text", VString "12 km"); ("value", VNumber (Num 12000))]);
           ("duration", VObject [("text", VString "30 mins"); ("value", VNumber (Num 1800))])].

Definition sample_reply : value :=
  reply (VArray [VObject [("legs", VArray [sample_leg])]]).

Definition online_host : Host := {|
  axios_get := fun _ _ => Normal sample_reply;
  ToNumber_composite := fun _ => Normal NaN;
  Number_toString := fun _ => "#";
  Number_toFixed := fun _ _ => "#"
|}.

(** * Further definitions *)

(** ** Geometry *)

(** Half the circumference of the sphere of radius 6371 km. *)
Definition half_circumference : R := (6371 * PI)%R.

(** ** Waypoints *)

(** [waypoints.find(w => w.passenger === p && w.type === t)] *)
Definition find_waypoint (p : Passenger) (t : WaypointType) (waypoints : list Waypoint)
    : option Waypoint :=
  find (fun w => Passenger_eqb (passenger w) p && WaypointType_eqb (type w) t) waypoints.

(** The distance of the leg between two waypoints. *)
Definition leg (a b : Waypoint) : number :=
  calculateDistance (location a) (location b).

Definition stop_name (w : Waypoint) : string := name (location w).

Definition undefined_read : error := TypeError "Cannot read properties of undefined".

(** ** Pool matching *)

(** The three tests at the head of the loop of [findAvailablePools]: the
    ride is closed to pooling or full, or one side is female-only and the
    other side's gender is not 'female'. *)
Definition filtered_out (this : MatchingService) (rideRequest existingRide : Ride) : bool :=
  closed_or_full this existingRide ||
  (female_only existingRide && not_female (user_gender rideRequest)) ||
  (female_only rideRequest && not_female (user_gender existingRide)).

(** The object pushed for a compatible ride. *)
Definition candidate_of (rideRequest existingRide : Ride) (ride_driver : DriverSummary.t)
    (compatibility : Compatibility.t) : PoolCandidate.t := {|
  PoolCandidate.poolId := ride_id existingRide;
  PoolCandidate.driverId := DriverSummary.id ride_driver;
  PoolCandidate.driverName := DriverSummary.name ride_driver;
  PoolCandidate.driverRating := DriverSummary.rating ride_driver;
  PoolCandidate.vehicle := DriverSummary.vehicle ride_driver;
  PoolCandidate.currentPickup := pickup_location existingRide;
  PoolCandidate.currentDestination := destination_location existingRide;
  PoolCandidate.currentPassenger := user_name existingRide;
  PoolCandidate.fareShare := calculateFareShare rideRequest existingRide compatibility;
  PoolCandidate.estimatedPickupTime := Compatibility.pickupTime compatibility;
  PoolCandidate.route := Compatibility.routeDescription compatibility;
  PoolCandidate.detourDistance := Compatibility.detourDistance compatibility;
  PoolCandidate.detourTime := Compatibility.detourTime compatibility;
  PoolCandidate.compatibilityScore := Compatibility.score compatibility;
  PoolCandidate.savings := Compatibility.savings compatibility
|}.

Definition null_read : error := TypeError "Cannot read properties of null".

(** The gender is recorded and is 'female'. *)
Definition is_female (gender : option string) : Prop := gender = Some "female"%string.

(** The requests in a world, oldest first. *)
Definition requests_of (w : World) : list AxiosRequest :=
  flat_map (fun e => match e with AxiosGet request => [request] | ConsoleError _ _ => [] end) w.

(** The requests that estimating the route of [ride] sends: one for the
    ride's own trip when a key is configured, none otherwise. *)
Definition estimate_requests (host : Host) (this : MatchingService) (ride : Ride)
    : list AxiosRequest :=
  match key_configured this with
  | Some key =>
      [directions_request host (pickup_location ride) (destination_location ride) key]
  | None => []
  end.

(** The rides that pass the three tests, in input order. *)
Definition evaluated_rides (this : MatchingService) (rideRequest : Ride)
    (existingRides : list Ride) : list Ride :=
  filter (fun ride => negb (filtered_out this rideRequest ride)) existingRides.

(** What a returned candidate shows of its detour, score and fare. *)
Definition within_limits (host : Host) (rideRequest : Ride) (candidate : PoolCandidate.t) : Prop :=
  (number_of (PoolCandidate.detourDistance candidate) <=? Num 5) = true /\
  (number_of (PoolCandidate.detourTime candidate) <=? Num 15) = true /\
  (PoolCandidate.compatibilityScore candidate = NaN \/
   exists z : Z,
     PoolCandidate.compatibilityScore candidate = Num (IZR z) /\ (0 <= z <= 100)%Z) /\
  PoolCandidate.estimatedPickupTime candidate =
    Some (Number_toString host (Num 10) ++ " mins")%string /\
  (isFinite (estimated_fare rideRequest) = true ->
   (estimated_fare rideRequest * Num 0.6 <=? PoolCandidate.fareShare candidate) = true).

(** [candidate] was built from one of [existingRides] that is open to
    pooling, has a driver whose details the candidate carries, and agrees
    with the request on both female-only flags. *)
Definition offered_from (rideRequest : Ride) (existingRides : list Ride)
    (candidate : PoolCandidate.t) : Prop :=
  exists ride ride_driver,
    In ride existingRides /\
    built_from candidate ride /\
    driver ride = Some ride_driver /\
    PoolCandidate.driverId candidate = DriverSummary.id ride_driver /\
    PoolCandidate.driverName candidate = DriverSummary.name ride_driver /\
    PoolCandidate.driverRating candidate = DriverSummary.rating ride_driver /\
    PoolCandidate.vehicle candidate = DriverSummary.vehicle ride_driver /\
    allow_pooling ride = true /\
    (female_only ride = true -> is_female (user_gender rideRequest)) /\
    (female_only rideRequest = true -> is_female (user_gender ride)).

(** A ride for women only, and a request that records no gender. *)
Definition women_only_ride : Ride := {|
  ride_id := "w1";
  user_name := "Rider";
  user_gender := Some "female";
  pickup_location := origin_point;
  destination_location := origin_point;
  estimated_fare := Num 300;
  allow_pooling := true;
  female_only := true;
  pool_passengers := None;
  driver := Some sample_driver
|}.

Definition request_without_gender : Ride := {|
  ride_id := "request";
  user_name := "Rider";
  user_gender := None;
  pickup_location := origin_point;
  destination_location := origin_point;
  estimated_fare := Num 300;
  allow_pooling := true;
  female_only := false;
  pool_passengers := None;
  driver := None
|}.

(** ** Driver dispatch *)

(** What an entry of the result of [findAvailableDrivers] shows: a driver of
    the input that is online and free, at most 10 km away, with a whole
    number of minutes from 0 to 30. *)
Definition within_reach (availableDrivers : list Driver.t) (found : NearbyDriver.t) : Prop :=
  In (NearbyDriver.driver found) availableDrivers /\
  Driver.status (NearbyDriver.driver found) = "online"%string /\
  Driver.current_ride (NearbyDriver.driver found) = None /\
  exists (d : R) (minutes : Z),
    NearbyDriver.distanceToPickup found = Num d /\ (0 <= d <= 10)%R /\
    NearbyDriver.estimatedArrival found = Num (IZR minutes) /\ (0 <= minutes <= 30)%Z.

(** The entry of [found] for another driver at the same distance. *)
Definition for_driver (update : Driver.t -> Driver.t) (found : NearbyDriver.t) : NearbyDriver.t := {|
  NearbyDriver.driver := update (NearbyDriver.driver found);
  NearbyDriver.distanceToPickup := NearbyDriver.distanceToPickup found;
  NearbyDriver.estimatedArrival := NearbyDriver.estimatedArrival found
|}.

(** [update] leaves alone what the loop of [findAvailableDrivers] reads of a
    driver. *)
Definition keeps_availability (update : Driver.t -> Driver.t) : Prop :=
  forall driver,
    Driver.status (update driver) = Driver.status driver /\
    Driver.location (update driver) = Driver.location driver /\
    unavailable (update driver) = unavailable driver.

Definition with_rating (rating : number) (driver : Driver.t) : Driver.t := {|
  Driver.id := Driver.id driver;
  Driver.name := Driver.name driver;
  Driver.rating := rating;
  Driver.status := Driver.status driver;
  Driver.location := Driver.location driver;
  Driver.current_ride := Driver.current_ride driver
|}.


(** Three rides for one request along the equator, pickups at the origin:
    the first goes a little further east than the request, the other two
    repeat the request's trip. *)
Definition east_5 : NamedPoint := point "East 5" 0 0.05.
Definition east_6 : NamedPoint := point "East 6" 0 0.06.
Definition short_request : Ride := sample_ride "request" origin_point east_5 300.
Definition longer_ride : Ride := sample_ride "far" origin_point east_6 300.
Definition same_ride_1 : Ride := sample_ride "r1" origin_point east_5 300.
Definition same_ride_2 : Ride := sample_ride "r2" origin_point east_5 300.

(** ** The server's token helpers *)

(** The space, code 32. *)
Definition space : Ascii.ascii :=
  Ascii.Ascii false false false false false true false false.

(** [s.split(' ')]: the pieces of [s] between its spaces. *)
Fixpoint split_space (s : string) : list string :=
  match s with
  | EmptyString => [EmptyString]
  | String c rest =>
      if Ascii.eqb c space then EmptyString :: split_space rest
      else
        match split_space rest with
        | word :: words => String c word :: words
        | [] => [String c EmptyString]
        end
  end.

Fixpoint skip (n : nat) (s : string) : string :=
  match n, s with
  | O, _ => s
  | S n', String _ rest => skip n' rest
  | S _, EmptyString => EmptyString
  end.

(** [s.replace(pattern, '')]: [s] without the first occurrence of
    [pattern]. *)
Fixpoint remove_first (pattern s : string) : string :=
  if String.prefix pattern s then skip (String.length pattern) s
  else
    match s with
    | EmptyString => EmptyString
    | String c rest => String c (remove_first pattern rest)
    end.

(** [s] holds no space. *)
Fixpoint one_word (s : string) : bool :=
  match s with
  | EmptyString => true
  | String c rest => negb (Ascii.eqb c space) && one_word rest
  end.

(** [const generateToken = (userId) => 'token_' + userId], on the text of
    the id. *)
Definition generateToken (userId : string) : string := "token_" ++ userId.

(** What the middleware does with a request: it answers it, or sets
    [req.userId] and calls [next()]. *)
Inductive handled : Type :=
| Responded (status : nat) (success : bool) (error_message : string)
| Next (userId : string).

(** [authenticateToken]; [authorization] is [req.headers['authorization']],
    [None] when the header is missing. *)
Definition authenticateToken (authorization : option string) : handled :=
  let token :=
    match authorization with
    | None => None
    | Some authHeader =>
        if String.eqb authHeader EmptyString then Some EmptyString
        else nth_error (split_space authHeader) 1
    end in
  match token with
  | None => Responded 401 false "Access token required"
  | Some token =>
      if String.eqb token EmptyString then Responded 401 false "Access token required"
      else Next (remove_first "token_" token)
  end.

Definition token_required : handled := Responded 401 false "Access token required".

(** * The haversine distance in binary64

    The definitions above compute distances in exact real arithmetic.  The
    properties of [calculateDistance] that hinge on rounding are stated on
    this second embedding, in which a number is an IEEE 754 binary64 value
    and every operation rounds to nearest, ties to even, as the language
    prescribes. *)

From Stdlib Require SpecFloat.

Module Binary64.

Import SpecFloat.

Definition float : Type := spec_float.

Definition add : float -> float -> float := SFadd 53 1024.
Definition sub : float -> float -> float := SFsub 53 1024.
Definition mul : float -> float -> float := SFmul 53 1024.
Definition div : float -> float -> float := SFdiv 53 1024.

(** An integer literal. *)
Definition of_Z (z : Z) : float := binary_normalize 53 1024 z 0 false.

Definition zero : float := S754_zero false.
Definition nan : float := S754_nan.

Definition opp : float -> float := SFopp.

(** [Number.isFinite] *)
Definition is_finite (x : float) : bool :=
  match x with
  | S754_zero _ | S754_finite _ _ _ => true
  | S754_infinity _ | S754_nan => false
  end.

(** The sign bit; NaN has none. *)
Definition sign_bit (x : float) : bool :=
  match x with
  | S754_zero s | S754_infinity s | S754_finite s _ _ => s
  | S754_nan => false
  end.




(** What the language leaves to the engine: the values of the sine, the
    cosine and the arc tangent where the standard asks for an
    implementation-approximated result. *)
Record Host : Type := {
  sin_approx : float -> float;
  cos_approx : float -> float;
  atan2_approx : float -> float -> float
}.

Module Math.

(** [Math.PI], the binary64 value nearest to pi: 3.141592653589793. *)
Definition PI : float := S754_finite false 7074237752028440 (-51).

(** [Math.sin]: NaN and the zeros are returned as they are, an infinity
    gives NaN. *)
Definition sin (host : Host) (x : float) : float :=
  match x with
  | S754_nan | S754_zero _ => x
  | S754_infinity _ => nan
  | S754_finite _ _ _ => sin_approx host x
  end.

(** [Math.cos]: NaN for a NaN or an infinity, 1 for a zero. *)
Definition cos (host : Host) (x : float) : float :=
  match x with
  | S754_nan | S754_infinity _ => nan
  | S754_zero _ => of_Z 1
  | S754_finite _ _ _ => cos_approx host x
  end.

(** [Math.sqrt], the correctly rounded square root. *)
Definition sqrt : float -> float := SFsqrt 53 1024.

(** [Math.atan2]: NaN for a NaN; a zero [y] with [x] positive or +0 is
    returned as it is; a finite [y] with [x] = +Infinity gives the zero of
    the sign of [y]; everything else is approximated. *)
Definition atan2 (host : Host) (y x : float) : float :=
  match y, x with
  | S754_nan, _ | _, S754_nan => nan
  | S754_zero s, (S754_zero false | S754_infinity false | S754_finite false _ _) =>
      S754_zero s
  | S754_finite s _ _, S754_infinity false => S754_zero s
  | _, _ => atan2_approx host y x
  end.

End Math.

Record Coordinate : Type := {
  latitude : float;
  longitude : float
}.

Definition toRadians (degrees : float) : float :=
  mul degrees (div Math.PI (of_Z 180)).

Definition calculateDistance (host : Host) (point1 point2 : Coordinate) : float :=
  let R := of_Z 6371 in
  let dLat := toRadians (sub (latitude point2) (latitude point1)) in
  let dLon := toRadians (sub (longitude point2) (longitude point1)) in
  let lat1 := toRadians (latitude point1) in
  let lat2 := toRadians (latitude point2) in
  let a :=
    add (mul (Math.sin host (div dLat (of_Z 2))) (Math.sin host (div dLat (of_Z 2))))
        (mul (mul (mul (Math.sin host (div dLon (of_Z 2)))
                       (Math.sin host (div dLon (of_Z 2))))
                  (Math.cos host lat1))
             (Math.cos host lat2)) in
  let c := mul (of_Z 2) (Math.atan2 host (Math.sqrt a) (Math.sqrt (sub (of_Z 1) a))) in
  mul R c.

Definition finite_coordinate (c : Coordinate) : bool :=
  is_finite (latitude c) && is_finite (longitude c).



(** An engine that approximates to the leading order: sin x by x, cos x by
    1 - x*x/2, and atan2(y, x) by y/x in the right half-plane and by pi or
    -pi in the left one. *)
Definition small_angle_host : Host := {|
  sin_approx := fun x => x;
  cos_approx := fun x => sub (of_Z 1) (div (mul x x) (of_Z 2));
  atan2_approx := fun y x =>
    if sign_bit x then (if sign_bit y then opp Math.PI else Math.PI) else div y x
|}.

(** The origin, and the point whose latitude is the least positive
    number, 5e-324. *)
Definition origin : Coordinate := {| latitude := zero; longitude := zero |}.


(** 12.9716 N, 77.5946 E. *)
Definition bangalore : Coordinate := {|
  latitude := S754_finite false 7302361615799891 (-49);
  longitude := S754_finite false 5460234556968167 (-46)
|}.


(** A point with a latitude that is not a number. *)
Definition nowhere : Coordinate := {| latitude := nan; longitude := zero |}.

End Binary64.

(** * Properties *)

Unset Implicit Arguments.

(** ** Numbers *)

Lemma Rle_b_true (x y : R) : Rle_b x y = true <-> (x <= y)%R.
Proof. unfold Rle_b; destruct (Rle_dec x y); split; intros; try discriminate; tauto. Qed.

Lemma Rle_b_false (x y : R) : Rle_b x y = false <-> (y < x)%R.
Proof. unfold Rle_b; destruct (Rle_dec x y); split; intros; try discriminate; try lra; auto. Qed.

Lemma Rlt_b_true (x y : R) : Rlt_b x y = true <-> (x < y)%R.
Proof. unfold Rlt_b; destruct (Rlt_dec x y); split; intros; try discriminate; tauto. Qed.

Lemma Rlt_b_false (x y : R) : Rlt_b x y = false <-> (y <= x)%R.
Proof. unfold Rlt_b; destruct (Rlt_dec x y); split; intros; try discriminate; try lra; auto. Qed.

Lemma Req_b_true (x y : R) : Req_b x y = true <-> x = y.
Proof. unfold Req_b; destruct (Req_dec_T x y); split; intros; try discriminate; tauto. Qed.

Lemma Req_b_false (x y : R) : Req_b x y = false <-> x <> y.
Proof. unfold Req_b; destruct (Req_dec_T x y); split; intros; try discriminate; tauto. Qed.

(** Decide the comparisons of reals that occur in a goal, closing the
    impossible branches by linear arithmetic. *)
Ltac decide_reals :=
  unfold Rle_b, Rlt_b, Req_b in *;
  repeat match goal with
         | |- context [Rle_dec ?x ?y] => destruct (Rle_dec x y); try lra
         | |- context [Rlt_dec ?x ?y] => destruct (Rlt_dec x y); try lra
         | |- context [Req_dec_T ?x ?y] => destruct (Req_dec_T x y); try lra
         | H : context [Rle_dec ?x ?y] |- _ => destruct (Rle_dec x y); try lra
         | H : context [Rlt_dec ?x ?y] |- _ => destruct (Rlt_dec x y); try lra
         | H : context [Req_dec_T ?x ?y] |- _ => destruct (Req_dec_T x y); try lra
         end.

Lemma div_Num (x y : R) : y <> 0%R -> Num x / Num y = Num (x / y).
Proof. intros; simpl; decide_reals; reflexivity. Qed.

Lemma le_Num (x y : R) : (Num x <=? Num y) = true <-> (x <= y)%R.
Proof. apply Rle_b_true. Qed.

Lemma lt_Num (x y : R) : (Num x <? Num y) = true <-> (x < y)%R.
Proof. apply Rlt_b_true. Qed.

Lemma lt_Num_false (x y : R) : (Num x <? Num y) = false <-> (y <= x)%R.
Proof. apply Rlt_b_false. Qed.

Lemma le_not_NaN (a b : number) : (a <=? b) = true -> isNaN a = false /\ isNaN b = false.
Proof. destruct a, b; simpl; intros; try discriminate; auto. Qed.

Lemma round_Num (x : R) (z : Z) :
  (IZR z <= x + / 2 < IZR z + 1)%R -> Math.round (Num x) = Num (IZR z).
Proof.
  intros H; simpl; do 2 f_equal; symmetry; apply Int_part_spec; lra.
Qed.

(** ** The haversine on finite coordinates *)

Lemma sin_half_sqr (x : R) : (sin (x / 2) * sin (x / 2) = (1 - cos x) / 2)%R.
Proof.
  replace (cos x) with (cos (2 * (x / 2)))%R by (f_equal; lra).
  rewrite cos_2a_sin; lra.
Qed.

Lemma haversine_a_range (lat1 lon1 lat2 lon2 : R) :
  (0 <= haversine_a lat1 lon1 lat2 lon2 <= 1)%R.
Proof.
  unfold haversine_a.
  rewrite !sin_half_sqr.
  replace ((lat2 - lat1) * (PI / 180))%R with (lat2 * (PI / 180) - lat1 * (PI / 180))%R by lra.
  rewrite cos_minus.
  set (p1 := (lat1 * (PI / 180))%R); set (p2 := (lat2 * (PI / 180))%R).
  set (k := cos ((lon2 - lon1) * (PI / 180))).
  pose proof (sin2_cos2 p1) as H1; pose proof (sin2_cos2 p2) as H2.
  pose proof (COS_bound ((lon2 - lon1) * (PI / 180))) as Hk; fold k in Hk.
  unfold Rsqr in H1, H2.
  set (s1 := sin p1) in *; set (s2 := sin p2) in *;
  set (c1 := cos p1) in *; set (c2 := cos p2) in *.
  assert (Hk2 : (0 <= (1 - k * k) * (c2 * c2))%R).
  { apply Rmult_le_pos; nra. }
  pose proof (Rle_0_sqr (s1 - s2)) as A1; pose proof (Rle_0_sqr (c1 - k * c2)) as A2.
  pose proof (Rle_0_sqr (s1 + s2)) as B1; pose proof (Rle_0_sqr (c1 + k * c2)) as B2.
  unfold Rsqr in A1, A2, B1, B2.
  split; lra.
Qed.

Lemma sqrt_Num (x : R) : (0 <= x)%R -> Math.sqrt (Num x) = Num (sqrt x).
Proof. intros; simpl; decide_reals; reflexivity. Qed.

Lemma calculateDistance_Num (lat1 lon1 lat2 lon2 : R) :
  calculateDistance {| latitude := Num lat1; longitude := Num lon1 |}
                    {| latitude := Num lat2; longitude := Num lon2 |}
  = Num (haversine_km lat1 lon1 lat2 lon2).
Proof.
  pose proof (haversine_a_range lat1 lon1 lat2 lon2) as Ha.
  unfold calculateDistance, toRadians, Math.PI; cbn [latitude longitude].
  rewrite (div_Num PI 180) by lra.
  change (Num lat2 - Num lat1) with (Num (lat2 - lat1)).
  change (Num lon2 - Num lon1) with (Num (lon2 - lon1)).
  change (Num ?x * Num ?y) with (Num (x * y)).
  cbn [Num.mul].
  rewrite !div_Num by lra.
  cbn [Math.sin Math.cos Num.mul Num.add].
  fold (haversine_a lat1 lon1 lat2 lon2).
  change (Num 1 - Num ?a) with (Num (1 - a)).
  rewrite !sqrt_Num by lra.
  reflexivity.
Qed.

Lemma haversine_a_sym (lat1 lon1 lat2 lon2 : R) :
  haversine_a lat1 lon1 lat2 lon2 = haversine_a lat2 lon2 lat1 lon1.
Proof.
  unfold haversine_a.
  replace ((lat1 - lat2) * (PI / 180) / 2)%R with (- ((lat2 - lat1) * (PI / 180) / 2))%R by lra.
  replace ((lon1 - lon2) * (PI / 180) / 2)%R with (- ((lon2 - lon1) * (PI / 180) / 2))%R by lra.
  rewrite !sin_neg; ring.
Qed.

Lemma haversine_km_sym (lat1 lon1 lat2 lon2 : R) :
  haversine_km lat1 lon1 lat2 lon2 = haversine_km lat2 lon2 lat1 lon1.
Proof. unfold haversine_km; rewrite haversine_a_sym; reflexivity. Qed.

Lemma Ratan2_nonneg (y x : R) :
  (0 <= y)%R -> (0 <= x)%R -> (0 <= Math.Ratan2 y x)%R.
Proof.
  intros Hy Hx; unfold Math.Ratan2; decide_reals.
  - destruct (Req_dec_T y 0) as [->|Hne].
    + unfold Rdiv; rewrite Rmult_0_l, atan_0; lra.
    + assert (0 < y / x)%R by (apply Rdiv_lt_0_compat; lra).
      pose proof (atan_increasing 0 (y / x)) as Hi; rewrite atan_0 in Hi; lra.
  - pose proof PI_RGT_0; lra.
Qed.

Lemma Ratan2_zero (y x : R) :
  (0 <= y)%R -> (0 <= x)%R -> (Math.Ratan2 y x = 0%R <-> y = 0%R).
Proof.
  intros Hy Hx; unfold Math.Ratan2; decide_reals.
  - split; intros H.
    + apply atan_eq0 in H.
      unfold Rdiv in H; apply Rmult_integral in H; destruct H as [H|H]; [exact H|].
      exfalso; pose proof (Rinv_0_lt_compat x); lra.
    + subst y; unfold Rdiv; rewrite Rmult_0_l; apply atan_0.
  - pose proof PI_RGT_0; split; intros; lra.
Qed.

Lemma haversine_km_nonneg (lat1 lon1 lat2 lon2 : R) :
  (0 <= haversine_km lat1 lon1 lat2 lon2)%R.
Proof.
  unfold haversine_km; cbv zeta.
  pose proof (haversine_a_range lat1 lon1 lat2 lon2) as [H0 H1].
  pose proof (Ratan2_nonneg _ _ (sqrt_pos (haversine_a lat1 lon1 lat2 lon2))
                            (sqrt_pos (1 - haversine_a lat1 lon1 lat2 lon2))).
  lra.
Qed.

Lemma haversine_km_zero (lat1 lon1 lat2 lon2 : R) :
  haversine_km lat1 lon1 lat2 lon2 = 0%R <-> haversine_a lat1 lon1 lat2 lon2 = 0%R.
Proof.
  unfold haversine_km; cbv zeta.
  pose proof (haversine_a_range lat1 lon1 lat2 lon2) as [H0 H1].
  set (a := haversine_a lat1 lon1 lat2 lon2) in *.
  pose proof (Ratan2_zero _ _ (sqrt_pos a) (sqrt_pos (1 - a))) as Hz.
  split; intros H.
  - assert (Hs : sqrt a = 0%R) by (apply Hz; lra).
    apply sqrt_eq_0 in Hs; lra.
  - assert (Hs : sqrt a = 0%R) by (rewrite H; apply sqrt_0).
    apply Hz in Hs; lra.
Qed.

(** ** Order on numbers *)

Lemma le_lt_false (a b : number) : (a <=? b) = true -> (b <? a) = false.
Proof.
  destruct a, b; simpl; intros H; try discriminate; try reflexivity.
  - destruct negative, negative0; simpl in *; congruence.
  - destruct negative; simpl in *; congruence.
  - destruct negative; simpl in *; congruence.
  - apply Rle_b_true in H; apply Rlt_b_false; exact H.
Qed.

Lemma lt_false_cases (a b : number) :
  (a <? b) = false -> (b <=? a) = true \/ isNaN a = true \/ isNaN b = true.
Proof.
  destruct a, b; simpl; intros H; auto.
  - left; destruct negative, negative0; simpl in *; congruence.
  - left; destruct negative; simpl in *; congruence.
  - left; destruct negative; simpl in *; congruence.
  - left; apply Rlt_b_false in H; apply Rle_b_true; exact H.
Qed.

(** ** Running the asynchronous methods *)

Arguments calculateDistance : simpl never.

Lemma getRouteDetails_returns (host : Host) (this : MatchingService)
    (origin destination : Coordinate) (w : World) :
  exists details w', getRouteDetails host this origin destination w = (Normal details, w').
Proof.
  unfold getRouteDetails, try_catch, bind, ret, console_error.
  destruct (getRouteDetails_try host this origin destination w) as [[[details|]|e] w1];
    eauto.
Qed.

Lemma findOptimalWaypointOrder_pool (newRide existingRide : Ride) (w : World) :
  findOptimalWaypointOrder (pool_waypoints newRide existingRide) w =
  (Normal
     (if calculateDistance (pickup_location existingRide) (pickup_location newRide) <? Num 2
      then
        if calculateDistance (destination_location existingRide) (destination_location newRide)
           <? Num 2
        then Some [existingPickup existingRide; newPickup newRide;
                   existingDrop existingRide; newDrop newRide]
        else Some [existingPickup existingRide; newPickup newRide;
                   newDrop newRide; existingDrop existingRide]
      else
        if calculateDistance (pickup_location existingRide) (pickup_location newRide) +
           calculateDistance (pickup_location newRide) (destination_location existingRide) -
           calculateDistance (pickup_location existingRide) (destination_location existingRide)
           <? Num 1
        then Some [existingPickup existingRide; newPickup newRide;
                   existingDrop existingRide; newDrop newRide]
        else None),
   w).
Proof.
  unfold findOptimalWaypointOrder, pool_waypoints, bind, deref, ret; simpl.
  repeat match goal with |- context [if ?c then _ else _] => destruct c end; reflexivity.
Qed.

Lemma getOptimalPoolRoute_pool (newRide existingRide : Ride) (w : World) :
  getOptimalPoolRoute newRide existingRide w =
  match findOptimalWaypointOrder (pool_waypoints newRide existingRide) w with
  | (Normal (Some optimalOrder), w') =>
      (Normal (Some {|
         PooledRoute.distance := calculateTotalRouteDistance optimalOrder;
         PooledRoute.duration := calculateTotalRouteDistance optimalOrder * Num 2;
         PooledRoute.pickupDistance :=
           calculateDistance (pickup_location existingRide) (pickup_location newRide);
         PooledRoute.pickupTime := Num 10;
         PooledRoute.description := generateRouteDescription optimalOrder;
         PooledRoute.waypoints := optimalOrder
       |}), w')
  | (Normal None, w') => (Normal None, w')
  | (Throw e, w') => (Throw e, w')
  end.
Proof.
  unfold getOptimalPoolRoute, bind.
  change [_; _; _; _] with (pool_waypoints newRide existingRide).
  destruct (findOptimalWaypointOrder (pool_waypoints newRide existingRide) w)
    as [[[order|]|e] w']; reflexivity.
Qed.

Lemma getOptimalPoolRoute_pure (newRide existingRide : Ride) (w : World) :
  exists pooledRoute, getOptimalPoolRoute newRide existingRide w = (Normal pooledRoute, w).
Proof.
  rewrite getOptimalPoolRoute_pool, findOptimalWaypointOrder_pool.
  repeat match goal with |- context [if ?c then _ else _] => destruct c end; eauto.
Qed.

Lemma calculateRouteCompatibility_run (host : Host) (this : MatchingService)
    (newRide existingRide : Ride) (w w1 : World) (originalRoute : RouteDetails.t) :
  getRouteDetails host this (pickup_location existingRide) (destination_location existingRide) w
    = (Normal originalRoute, w1) ->
  calculateRouteCompatibility host this newRide existingRide w =
  match getOptimalPoolRoute newRide existingRide w1 with
  | (Normal (Some pooledRoute), w2) =>
      (Normal (compatibility_of host this newRide existingRide originalRoute pooledRoute), w2)
  | (Normal None, w2) =>
      (Normal incompatible,
       w2 ++ [ConsoleError route_error (TypeError "Cannot read properties of null")])
  | (Throw e, w2) => (Normal incompatible, w2 ++ [ConsoleError route_error e])
  end.
Proof.
  intros Hroute.
  unfold calculateRouteCompatibility, try_catch, bind at 1.
  rewrite Hroute.
  unfold bind at 1.
  destruct (getOptimalPoolRoute newRide existingRide w1) as [[[pooledRoute|]|e] w2];
    reflexivity.
Qed.

Lemma calculateRouteCompatibility_returns (host : Host) (this : MatchingService)
    (newRide existingRide : Ride) (w : World) :
  exists compatibility w',
    calculateRouteCompatibility host this newRide existingRide w = (Normal compatibility, w').
Proof.
  destruct (getRouteDetails_returns host this (pickup_location existingRide)
              (destination_location existingRide) w) as (originalRoute & w1 & Hroute).
  rewrite (calculateRouteCompatibility_run _ _ newRide _ _ _ _ Hroute).
  destruct (getOptimalPoolRoute newRide existingRide w1) as [[[pooledRoute|]|e] w2]; eauto.
Qed.

(** C1.  For every pair (new request, existing ride) the object returned by
    [calculateRouteCompatibility] has [isCompatible] true exactly when a
    combined route exists and, with [detourDistance] the combined distance
    minus the solo distance, [detourTime] the combined duration minus the solo
    duration and [pickupDistance] the haversine distance between the two
    pickups, [detourDistance <= 5], [detourTime <= 15] and
    [pickupDistance <= 3] (on the values before they are rounded for
    display). *)
Theorem isCompatible_iff_thresholds (host : Host) (env_key : option string)
    (newRide existingRide : Ride) (w : World) :
  let this := constructor env_key in
  exists originalRoute w1 compatibility w2,
    getRouteDetails host this (pickup_location existingRide) (destination_location existingRide) w
      = (Normal originalRoute, w1) /\
    calculateRouteCompatibility host this newRide existingRide w = (Normal compatibility, w2) /\
    (Compatibility.isCompatible compatibility = true <->
     exists pooledRoute,
       getOptimalPoolRoute newRide existingRide w1 = (Normal (Some pooledRoute), w1) /\
       PooledRoute.pickupDistance pooledRoute =
         calculateDistance (pickup_location existingRide) (pickup_location newRide) /\
       (PooledRoute.distance pooledRoute - RouteDetails.distance originalRoute <=? Num 5) = true /\
       (PooledRoute.duration pooledRoute - RouteDetails.duration originalRoute <=? Num 15) = true /\
       (PooledRoute.pickupDistance pooledRoute <=? Num 3) = true).
Proof.
  intros this.
  destruct (getRouteDetails_returns host this (pickup_location existingRide)
              (destination_location existingRide) w) as (originalRoute & w1 & Hroute).
  exists originalRoute, w1.
  rewrite (calculateRouteCompatibility_run _ _ newRide _ _ _ _ Hroute).
  destruct (getOptimalPoolRoute_pure newRide existingRide w1) as (pooled & Hpool).
  rewrite Hpool.
  destruct pooled as [pooledRoute|].
  - eexists; eexists; split; [exact Hroute|]; split; [reflexivity|].
    assert (Hpick : PooledRoute.pickupDistance pooledRoute =
                    calculateDistance (pickup_location existingRide) (pickup_location newRide)).
    { rewrite getOptimalPoolRoute_pool in Hpool.
      destruct (findOptimalWaypointOrder (pool_waypoints newRide existingRide) w1)
        as [[[order|]|e] w']; inversion Hpool; reflexivity. }
    unfold compatibility_of; cbn [Compatibility.isCompatible].
    cbn [this constructor MAX_DETOUR_DISTANCE_KM MAX_DETOUR_TIME_MINUTES MAX_PICKUP_DISTANCE_KM].
    rewrite !andb_true_iff.
    split.
    + intros [[H1 H2] H3]; exists pooledRoute; auto.
    + intros (p & Hp & _ & H1 & H2 & H3); inversion Hp; subst p; auto.
  - eexists; eexists; split; [exact Hroute|]; split; [reflexivity|].
    cbn [incompatible Compatibility.isCompatible].
    split; [discriminate|].
    intros (p & Hp & _); discriminate.
Qed.

(** ** Distances between the sample points *)

Lemma calculateDistance_point (n1 n2 : string) (lat1 lon1 lat2 lon2 : R) :
  calculateDistance (point n1 lat1 lon1) (point n2 lat2 lon2)
  = Num (haversine_km lat1 lon1 lat2 lon2).
Proof. apply calculateDistance_Num. Qed.

Lemma haversine_km_same (lat lon : R) : haversine_km lat lon lat lon = 0%R.
Proof.
  apply haversine_km_zero. unfold haversine_a.
  replace ((lat - lat) * (PI / 180) / 2)%R with 0%R by lra.
  replace ((lon - lon) * (PI / 180) / 2)%R with 0%R by lra.
  rewrite sin_0; ring.
Qed.

Lemma haversine_km_half_turn : haversine_km 0 0 0 180 = (6371 * PI)%R.
Proof.
  unfold haversine_km; cbv zeta.
  assert (Ha : haversine_a 0 0 0 180 = 1%R).
  { unfold haversine_a.
    replace ((0 - 0) * (PI / 180) / 2)%R with 0%R by lra.
    replace ((180 - 0) * (PI / 180) / 2)%R with (PI / 2)%R by lra.
    replace (0 * (PI / 180))%R with 0%R by lra.
    rewrite sin_0, sin_PI2, cos_0; ring. }
  rewrite Ha.
  replace (1 - 1)%R with 0%R by lra.
  rewrite sqrt_0, sqrt_1.
  unfold Math.Ratan2; decide_reals.
Qed.

Lemma haversine_km_half_turn_back : haversine_km 0 180 0 0 = (6371 * PI)%R.
Proof. rewrite haversine_km_sym; apply haversine_km_half_turn. Qed.

Lemma PI_gt_3 : (3 < PI)%R.
Proof. pose proof PI2_3_2; lra. Qed.

(** ** The waypoint heuristic *)

(** C7.  The waypoint sequencer on a pair of trips: pickups less than 2 km
    apart give existing pickup, new pickup, existing drop, new drop when the
    drops are less than 2 km apart, and existing pickup, new pickup, new drop,
    existing drop otherwise; pickups at least 2 km apart give existing pickup,
    new pickup, existing drop, new drop when going through the new pickup
    lengthens the existing trip by less than 1 km, and no ordering
    otherwise. *)
Theorem findOptimalWaypointOrder_algorithm (newRide existingRide : Ride) (w : World) :
  let distance a b := calculateDistance (coordinate a) (coordinate b) in
  let pickupGap := distance (pickup_location existingRide) (pickup_location newRide) in
  let dropGap := distance (destination_location existingRide) (destination_location newRide) in
  let detour := distance (pickup_location existingRide) (pickup_location newRide) +
                distance (pickup_location newRide) (destination_location existingRide) in
  let direct := distance (pickup_location existingRide) (destination_location existingRide) in
  let order := findOptimalWaypointOrder (pool_waypoints newRide existingRide) w in
  ((pickupGap <? Num 2) = true -> (dropGap <? Num 2) = true ->
   order = (Normal (Some [existingPickup existingRide; newPickup newRide;
                          existingDrop existingRide; newDrop newRide]), w)) /\
  ((pickupGap <? Num 2) = true -> (dropGap <? Num 2) = false ->
   order = (Normal (Some [existingPickup existingRide; newPickup newRide;
                          newDrop newRide; existingDrop existingRide]), w)) /\
  ((pickupGap >=? Num 2) = true -> (detour - direct <? Num 1) = true ->
   order = (Normal (Some [existingPickup existingRide; newPickup newRide;
                          existingDrop existingRide; newDrop newRide]), w)) /\
  ((pickupGap >=? Num 2) = true -> (detour - direct <? Num 1) = false ->
   order = (Normal None, w)).
Proof.
  cbv zeta. rewrite findOptimalWaypointOrder_pool.
  repeat split; intros H1 H2.
  - rewrite H1, H2; reflexivity.
  - rewrite H1, H2; reflexivity.
  - unfold Num.ge in H1; apply le_lt_false in H1; rewrite H1, H2; reflexivity.
  - unfold Num.ge in H1; apply le_lt_false in H1; rewrite H1, H2; reflexivity.
Qed.

(** ** A pair without a feasible ordering *)

(** What becomes of the first candidate when its evaluation yields
    [incompatible]: the loop goes on with the rest and the same array. *)
Lemma findAvailablePools_loop_incompatible (host : Host) (this : MatchingService)
    (rideRequest existingRide : Ride) (rest : list Ride) (pools : list PoolCandidate.t)
    (w w' : World) (compatibility : Compatibility.t) :
  calculateRouteCompatibility host this rideRequest existingRide w = (Normal compatibility, w') ->
  Compatibility.isCompatible compatibility = false ->
  exists w'', findAvailablePools_loop host this rideRequest (existingRide :: rest) pools w
              = findAvailablePools_loop host this rideRequest rest pools w''.
Proof.
  intros Hrun Hno. cbn [findAvailablePools_loop].
  destruct (closed_or_full this existingRide); [eauto|].
  destruct (female_only existingRide && not_female (user_gender rideRequest)); [eauto|].
  destruct (female_only rideRequest && not_female (user_gender existingRide)); [eauto|].
  unfold bind at 1. rewrite Hrun, Hno. eauto.
Qed.

(** C10.  When [findOptimalWaypointOrder] yields no ordering for a pair,
    [getOptimalPoolRoute] returns null, reading a property of it throws inside
    [calculateRouteCompatibility], the exception is caught (and written to the
    console) and the result is exactly [{ isCompatible: false, score: 0 }];
    [findAvailablePools] goes on to the next candidate without this one.  No
    evaluation of a pair throws. *)
Theorem no_feasible_order_excludes_candidate (host : Host) (env_key : option string)
    (newRide existingRide : Ride) (w0 : World) :
  findOptimalWaypointOrder (pool_waypoints newRide existingRide) w0 = (Normal None, w0) ->
  let this := constructor env_key in
  (forall w, getOptimalPoolRoute newRide existingRide w = (Normal None, w)) /\
  (forall w, exists w1,
     calculateRouteCompatibility host this newRide existingRide w =
     (Normal incompatible,
      w1 ++ [ConsoleError route_error (TypeError "Cannot read properties of null")])) /\
  Compatibility.isCompatible incompatible = false /\
  Compatibility.score incompatible = Num 0 /\
  (forall rest pools w, exists w',
     findAvailablePools_loop host this newRide (existingRide :: rest) pools w =
     findAvailablePools_loop host this newRide rest pools w') /\
  (forall request ride w, exists compatibility w',
     calculateRouteCompatibility host this request ride w = (Normal compatibility, w')).
Proof.
  intros Hnone this.
  assert (Hpure : forall w,
             findOptimalWaypointOrder (pool_waypoints newRide existingRide) w = (Normal None, w)).
  { intros w. rewrite findOptimalWaypointOrder_pool in *.
    injection Hnone as Hcond. rewrite Hcond. reflexivity. }
  assert (Hroute : forall w, getOptimalPoolRoute newRide existingRide w = (Normal None, w)).
  { intros w. rewrite getOptimalPoolRoute_pool, Hpure. reflexivity. }
  assert (Hcompat : forall w, exists w1,
     calculateRouteCompatibility host this newRide existingRide w =
     (Normal incompatible,
      w1 ++ [ConsoleError route_error (TypeError "Cannot read properties of null")])).
  { intros w.
    destruct (getRouteDetails_returns host this (pickup_location existingRide)
                (destination_location existingRide) w) as (originalRoute & w1 & Hdetails).
    exists w1.
    rewrite (calculateRouteCompatibility_run _ _ newRide _ _ _ _ Hdetails), Hroute.
    reflexivity. }
  repeat split; try assumption; try reflexivity.
  - intros rest pools w. destruct (Hcompat w) as (w1 & Hrun).
    eapply findAvailablePools_loop_incompatible; [exact Hrun | reflexivity].
  - intros request ride w. apply calculateRouteCompatibility_returns.
Qed.

Lemma antipode_request_has_no_order (w : World) :
  findOptimalWaypointOrder (pool_waypoints antipode_request origin_ride) w = (Normal None, w).
Proof.
  rewrite findOptimalWaypointOrder_pool.
  cbn [antipode_request origin_ride sample_ride pickup_location destination_location].
  unfold origin_point, antipode_point.
  rewrite !calculateDistance_point.
  rewrite haversine_km_half_turn, haversine_km_half_turn_back, haversine_km_same.
  pose proof PI_gt_3.
  simpl; decide_reals; reflexivity.
Qed.

Lemma no_feasible_order_excludes_candidate_witness :
  findOptimalWaypointOrder (pool_waypoints antipode_request origin_ride) [] = (Normal None, []) /\
  exists w1,
    calculateRouteCompatibility offline_host (constructor None) antipode_request origin_ride [] =
    (Normal incompatible,
     w1 ++ [ConsoleError route_error (TypeError "Cannot read properties of null")]).
Proof.
  split.
  - apply antipode_request_has_no_order.
  - apply (no_feasible_order_excludes_candidate offline_host None antipode_request origin_ride []
             (antipode_request_has_no_order [])).
Defined.

(** ** [Array.prototype.sort] *)

Section Sorting.

Variable A : Type.
Variable comparefn : A -> A -> number.


Lemma sort_insert_perm (x : A) (l : list A) :
  Permutation (sort_insert comparefn x l) (x :: l).
Proof.
  induction l as [|y l IH]; cbn [sort_insert]; [reflexivity|].
  destruct (sorts_after comparefn x y); [|reflexivity].
  rewrite IH; apply perm_swap.
Qed.

Lemma Array_sort_perm (l : list A) : Permutation (Array_sort comparefn l) l.
Proof.
  induction l as [|x l IH]; cbn [Array_sort fold_right]; [reflexivity|].
  fold (Array_sort comparefn l).
  rewrite sort_insert_perm; auto.
Qed.

(** A class of elements that the comparator never orders among themselves
    keeps its order. *)
Lemma sort_insert_filter (p : A -> bool) (x : A) (l : list A) :
  (forall y, In y l -> p x = true -> p y = true -> sorts_after comparefn x y = false) ->
  filter p (sort_insert comparefn x l) = filter p (x :: l).
Proof.
  induction l as [|y l IH]; intros Htie; cbn [sort_insert]; [reflexivity|].
  destruct (sorts_after comparefn x y) eqn:Hxy; [|reflexivity].
  cbn [filter]. rewrite IH by (intros; apply Htie; simpl; auto).
  cbn [filter].
  destruct (p x) eqn:Hpx; [|reflexivity].
  destruct (p y) eqn:Hpy; [|reflexivity].
  specialize (Htie y (or_introl eq_refl) eq_refl Hpy).
  congruence.
Qed.

Lemma Array_sort_stable (p : A -> bool) (l : list A) :
  (forall x y, In x l -> In y l -> p x = true -> p y = true -> sorts_after comparefn x y = false) ->
  filter p (Array_sort comparefn l) = filter p l.
Proof.
  induction l as [|x l IH]; intros Htie; cbn [Array_sort fold_right]; [reflexivity|].
  fold (Array_sort comparefn l).
  rewrite sort_insert_filter.
  - cbn [filter]. rewrite IH by (intros; apply Htie; simpl; auto). reflexivity.
  - intros y Hy. apply Htie; simpl; auto.
    right. eapply Permutation_in; [apply Array_sort_perm | exact Hy].
Qed.

Variable domain : A -> Prop.
Variable precedes : A -> A -> Prop.

Hypothesis precedes_trans :
  forall x y z, domain x -> domain y -> domain z ->
                precedes x y -> precedes y z -> precedes x z.
Hypothesis not_after_precedes :
  forall x y, domain x -> domain y -> sorts_after comparefn x y = false -> precedes x y.
Hypothesis after_precedes :
  forall x y, domain x -> domain y -> sorts_after comparefn x y = true -> precedes y x.

Lemma sort_insert_sorted (x : A) (l : list A) :
  domain x -> Forall domain l ->
  StronglySorted precedes l -> StronglySorted precedes (sort_insert comparefn x l).
Proof.
  intros Hx Hl Hs. induction Hs as [|y l Hs IH Hy]; cbn [sort_insert].
  - constructor; constructor.
  - inversion Hl as [|? ? Hdy Hdl]; subst.
    destruct (sorts_after comparefn x y) eqn:Hxy.
    + constructor; [apply IH; assumption|].
      apply (Permutation_Forall (Permutation_sym (sort_insert_perm x l))).
      constructor; [apply after_precedes; assumption | assumption].
    + assert (Hxy' : precedes x y) by (apply not_after_precedes; assumption).
      constructor; [constructor; assumption|].
      constructor; [assumption|].
      rewrite Forall_forall in *. intros z Hz.
      apply precedes_trans with y; auto.
Qed.

Lemma Array_sort_sorted (l : list A) :
  Forall domain l -> StronglySorted precedes (Array_sort comparefn l).
Proof.
  induction l as [|x l IH]; intros Hl; cbn [Array_sort fold_right]; [constructor|].
  fold (Array_sort comparefn l).
  inversion Hl; subst.
  apply sort_insert_sorted; auto.
  apply (Permutation_Forall (Permutation_sym (Array_sort_perm l))); assumption.
Qed.

End Sorting.

(** The two comparators of the service, on numbers that are not NaN. *)
Lemma difference_positive (a b : number) :
  isNaN a = false -> isNaN b = false ->
  ((if isNaN (a - b) then Num 0 else a - b) >? Num 0) = (b <? a).
Proof.
  destruct a as [|s|x], b as [|t|y]; simpl; intros Ha Hb; try discriminate.
  - destruct s, t; simpl; decide_reals; reflexivity.
  - destruct s; simpl; decide_reals; reflexivity.
  - destruct t; simpl; decide_reals; reflexivity.
  - unfold Num.gt; simpl; decide_reals; reflexivity.
Qed.

Lemma lt_false_le (a b : number) :
  isNaN a = false -> isNaN b = false -> (a <? b) = false -> (b <=? a) = true.
Proof.
  intros Ha Hb H; destruct (lt_false_cases a b H) as [?|[?|?]]; congruence.
Qed.

Lemma lt_le (a b : number) : (a <? b) = true -> (a <=? b) = true.
Proof.
  destruct a as [|s|x], b as [|t|y]; simpl; intros H; try discriminate; auto.
  - destruct s, t; simpl in *; congruence.
  - apply Rlt_b_true in H; apply Rle_b_true; lra.
Qed.

Lemma le_trans (a b c : number) :
  (a <=? b) = true -> (b <=? c) = true -> (a <=? c) = true.
Proof.
  destruct a as [|s|x], b as [|t|y], c as [|u|z]; simpl; intros H1 H2;
    try discriminate; auto.
  - destruct s, t, u; simpl in *; congruence.
  - destruct s, t; simpl in *; congruence.
  - destruct s, u; simpl in *; congruence.
  - destruct t, u; simpl in *; congruence.
  - destruct t; simpl in *; congruence.
  - apply Rle_b_true in H1, H2; apply Rle_b_true; lra.
Qed.

Lemma eqb_refl (a : number) : isNaN a = false -> Num.eqb a a = true.
Proof.
  destruct a as [|s|x]; simpl; intros H; try discriminate.
  - apply Bool.eqb_reflx.
  - apply Req_b_true; reflexivity.
Qed.

Lemma eqb_eq (a b : number) : Num.eqb a b = true -> a = b.
Proof.
  destruct a as [|s|x], b as [|t|y]; simpl; intros H; try discriminate.
  - apply Bool.eqb_prop in H; congruence.
  - apply Req_b_true in H; congruence.
Qed.

Lemma lt_irrefl (a : number) : (a <? a) = false.
Proof.
  destruct a as [|s|x]; simpl; auto.
  - destruct s; reflexivity.
  - apply Rlt_b_false; lra.
Qed.

Lemma le_lt_or_eq (a b : number) :
  (a <=? b) = true -> (a <? b) = true \/ Num.eqb a b = true.
Proof.
  destruct a as [|s|x], b as [|t|y]; simpl; intros H; try discriminate; auto.
  - destruct s, t; simpl in *; auto.
  - apply Rle_b_true in H. destruct (Rle_lt_or_eq_dec _ _ H).
    + left; apply Rlt_b_true; assumption.
    + right; apply Req_b_true; assumption.
Qed.

(** ** Driver dispatch *)

Lemma eligible_unavailable (rideRequest : Ride) (driver : Driver.t) :
  eligible rideRequest driver =
  negb (unavailable driver) &&
  (calculateDistance (pickup_location rideRequest) (Driver.location driver) <=? Num 10).
Proof.
  unfold eligible, unavailable.
  destruct (String.eqb (Driver.status driver) "online"), (Driver.current_ride driver);
    reflexivity.
Qed.

Lemma findAvailableDrivers_loop_eq (rideRequest : Ride) (availableDrivers : list Driver.t)
    (nearbyDrivers : list NearbyDriver.t) :
  findAvailableDrivers_loop rideRequest availableDrivers nearbyDrivers =
  nearbyDrivers ++ map (nearby rideRequest) (filter (eligible rideRequest) availableDrivers).
Proof.
  revert nearbyDrivers.
  induction availableDrivers as [|driver rest IH]; intros nearbyDrivers;
    cbn [findAvailableDrivers_loop filter map].
  - rewrite app_nil_r; reflexivity.
  - rewrite eligible_unavailable.
    destruct (unavailable driver); cbn [negb andb]; [apply IH|].
    destruct (calculateDistance (pickup_location rideRequest) (Driver.location driver)
              <=? Num 10); [|apply IH].
    rewrite IH, <- app_assoc; reflexivity.
Qed.

Lemma filter_cons_split {A} (p : A -> bool) (l : list A) (h : A) (r : list A) :
  filter p l = h :: r ->
  exists l1 l2, l = l1 ++ h :: l2 /\ (forall x, In x l1 -> p x = false) /\ filter p l2 = r.
Proof.
  induction l as [|x l IH]; cbn [filter]; [discriminate|].
  destruct (p x) eqn:Hx; intros H.
  - injection H as -> <-. exists [], l; simpl; intuition.
  - destruct (IH H) as (l1 & l2 & -> & Hl1 & Hl2).
    exists (x :: l1), l2; simpl; repeat split; auto.
    intros y [<-|Hy]; auto.
Qed.

Lemma map_filter_split {A B} (f : A -> B) (q : A -> bool) (l : list A)
    (l1 : list B) (h : B) (l2 : list B) :
  map f (filter q l) = l1 ++ h :: l2 ->
  exists before d after,
    l = before ++ d :: after /\ q d = true /\ f d = h /\
    map f (filter q before) = l1 /\ map f (filter q after) = l2.
Proof.
  revert l1. induction l as [|x l IH]; intros l1; cbn [filter map].
  - destruct l1; discriminate.
  - destruct (q x) eqn:Hx; cbn [map].
    + destruct l1 as [|b l1]; cbn [app]; intros H; injection H as Hhd Htl.
      * exists [], x, l; cbn [app filter map]; auto.
      * destruct (IH _ Htl) as (before & d & after & -> & Hd & Hf & Hb & Ha).
        exists (x :: before), d, after; cbn [app filter map]; rewrite Hx; cbn [map].
        repeat split; auto; congruence.
    + intros H. destruct (IH _ H) as (before & d & after & -> & Hd & Hf & Hb & Ha).
      exists (x :: before), d, after; cbn [app filter]; rewrite Hx. auto.
Qed.

Lemma eligible_distance (rideRequest : Ride) (driver : Driver.t) :
  eligible rideRequest driver = true ->
  isNaN (NearbyDriver.distanceToPickup (nearby rideRequest driver)) = false.
Proof.
  unfold eligible; rewrite !andb_true_iff; intros [_ H].
  apply le_not_NaN in H; apply H.
Qed.

Lemma nearby_domain (rideRequest : Ride) (availableDrivers : list Driver.t) :
  Forall (fun x => isNaN (NearbyDriver.distanceToPickup x) = false)
         (map (nearby rideRequest) (filter (eligible rideRequest) availableDrivers)).
Proof.
  rewrite Forall_forall; intros x Hx.
  apply in_map_iff in Hx; destruct Hx as (d & <- & Hd).
  apply filter_In in Hd; apply eligible_distance, Hd.
Qed.

Lemma findAvailableDrivers_eq (rideRequest : Ride) (availableDrivers : list Driver.t) :
  findAvailableDrivers rideRequest availableDrivers =
  Array_sort (fun a b => NearbyDriver.distanceToPickup a - NearbyDriver.distanceToPickup b)
             (map (nearby rideRequest) (filter (eligible rideRequest) availableDrivers)).
Proof. unfold findAvailableDrivers; rewrite findAvailableDrivers_loop_eq; reflexivity. Qed.

Lemma findAvailableDrivers_sorted (rideRequest : Ride) (availableDrivers : list Driver.t) :
  StronglySorted
    (fun a b => (NearbyDriver.distanceToPickup a <=? NearbyDriver.distanceToPickup b) = true)
    (findAvailableDrivers rideRequest availableDrivers).
Proof.
  rewrite findAvailableDrivers_eq.
  apply Array_sort_sorted
    with (domain := fun x => isNaN (NearbyDriver.distanceToPickup x) = false).
  - intros x y z _ _ _; apply le_trans.
  - intros x y Hx Hy; unfold sorts_after, SortCompare.
    rewrite difference_positive by assumption.
    intros H; apply lt_false_le in H; assumption.
  - intros x y Hx Hy; unfold sorts_after, SortCompare.
    rewrite difference_positive by assumption.
    apply lt_le.
  - apply nearby_domain.
Qed.

Lemma findAvailableDrivers_stable (rideRequest : Ride) (availableDrivers : list Driver.t)
    (d : number) :
  filter (fun x => Num.eqb (NearbyDriver.distanceToPickup x) d)
         (findAvailableDrivers rideRequest availableDrivers) =
  filter (fun x => Num.eqb (NearbyDriver.distanceToPickup x) d)
         (map (nearby rideRequest) (filter (eligible rideRequest) availableDrivers)).
Proof.
  rewrite findAvailableDrivers_eq.
  apply Array_sort_stable.
  intros x y _ _ Hx Hy.
  assert (Hd : isNaN d = false).
  { destruct d; try reflexivity.
    destruct (NearbyDriver.distanceToPickup y); discriminate. }
  apply eqb_eq in Hx, Hy. unfold sorts_after, SortCompare.
  rewrite Hx, Hy, difference_positive by assumption.
  apply lt_irrefl.
Qed.

(** C8.  [findAvailableDrivers] returns exactly the drivers that are online,
    without a current ride and within 10 km of the pickup, each with its
    distance and [estimatedArrival = round(distance * 3)], in ascending order
    of distance, drivers at equal distance in input order.
    [assignOptimalDriver] returns null exactly when there is no such driver;
    otherwise it returns one of them, strictly nearer than every eligible
    driver before it in the input and at least as near as every eligible
    driver after it, with the arrival estimate [round(distance * 3)]
    minutes. *)
Theorem driver_dispatch (host : Host) (rideRequest : Ride) (availableDrivers : list Driver.t) :
  let distanceTo driver :=
    calculateDistance (pickup_location rideRequest) (Driver.location driver) in
  let eligibleDrivers := filter (eligible rideRequest) availableDrivers in
  let found := findAvailableDrivers rideRequest availableDrivers in
  Permutation found (map (nearby rideRequest) eligibleDrivers) /\
  StronglySorted
    (fun a b => (NearbyDriver.distanceToPickup a <=? NearbyDriver.distanceToPickup b) = true)
    found /\
  (forall d,
     filter (fun x => Num.eqb (NearbyDriver.distanceToPickup x) d) found =
     filter (fun x => Num.eqb (NearbyDriver.distanceToPickup x) d)
            (map (nearby rideRequest) eligibleDrivers)) /\
  (assignOptimalDriver host rideRequest availableDrivers = None <->
   forall driver, In driver availableDrivers -> eligible rideRequest driver = false) /\
  (forall assignment,
     assignOptimalDriver host rideRequest availableDrivers = Some assignment ->
     exists before selected after,
       availableDrivers = before ++ selected :: after /\
       eligible rideRequest selected = true /\
       Assignment.driver assignment = nearby rideRequest selected /\
       (forall other, In other before -> eligible rideRequest other = true ->
                      (distanceTo selected <? distanceTo other) = true) /\
       (forall other, In other after -> eligible rideRequest other = true ->
                      (distanceTo selected <=? distanceTo other) = true) /\
       Assignment.estimatedArrival assignment =
         (Number_toString host (Math.round (distanceTo selected * Num 3)) ++ " minutes")%string).
Proof.
  cbv zeta.
  pose proof (findAvailableDrivers_eq rideRequest availableDrivers) as Heq.
  pose proof (findAvailableDrivers_sorted rideRequest availableDrivers) as Hsorted.
  pose proof (findAvailableDrivers_stable rideRequest availableDrivers) as Hstable.
  assert (Hperm : Permutation (findAvailableDrivers rideRequest availableDrivers)
                    (map (nearby rideRequest) (filter (eligible rideRequest) availableDrivers))).
  { rewrite Heq; apply Array_sort_perm. }
  split; [exact Hperm|]. split; [exact Hsorted|]. split; [exact Hstable|].
  unfold assignOptimalDriver.
  destruct (findAvailableDrivers rideRequest availableDrivers) as [|h t] eqn:Hfound.
  - split.
    + split; [|reflexivity].
      intros _ driver Hin.
      destruct (eligible rideRequest driver) eqn:He; [|reflexivity].
      exfalso. apply Permutation_nil in Hperm.
      assert (Hm : In (nearby rideRequest driver)
                      (map (nearby rideRequest) (filter (eligible rideRequest) availableDrivers))).
      { apply in_map, filter_In; auto. }
      rewrite Hperm in Hm; exact Hm.
    + discriminate.
  - assert (Hh : In h (map (nearby rideRequest) (filter (eligible rideRequest) availableDrivers))).
    { eapply Permutation_in; [exact Hperm | left; reflexivity]. }
    pose proof (nearby_domain rideRequest availableDrivers) as Hdom.
    rewrite Forall_forall in Hdom.
    split.
    + split; [discriminate|].
      intros Hnone. exfalso.
      apply in_map_iff in Hh; destruct Hh as (d & _ & Hd).
      apply filter_In in Hd; destruct Hd as [Hin He].
      rewrite (Hnone d Hin) in He; discriminate.
    + intros assignment Hassign; injection Hassign as <-.
      cbn [Assignment.driver Assignment.estimatedArrival].
      specialize (Hstable (NearbyDriver.distanceToPickup h)).
      cbn [filter] in Hstable.
      rewrite (eqb_refl _ (Hdom h Hh)) in Hstable.
      symmetry in Hstable.
      apply filter_cons_split in Hstable.
      destruct Hstable as (l1 & l2 & Hsplit & Hl1 & _).
      apply map_filter_split in Hsplit.
      destruct Hsplit as (before & selected & after & Hlist & Hsel & Hnear & Hb & Ha).
      exists before, selected, after.
      assert (Hmin : forall x,
                 In x (map (nearby rideRequest) (filter (eligible rideRequest) availableDrivers)) ->
                 (NearbyDriver.distanceToPickup h <=? NearbyDriver.distanceToPickup x) = true).
      { intros x Hx.
        apply (Permutation_in _ (Permutation_sym Hperm)) in Hx.
        destruct Hx as [<-|Hx].
        - pose proof (Hdom h Hh) as Hn.
          destruct (NearbyDriver.distanceToPickup h) as [|s|r]; try discriminate.
          + destruct s; reflexivity.
          + apply Rle_b_true; lra.
        - inversion Hsorted as [|? ? _ Hall]; subst.
          rewrite Forall_forall in Hall; auto. }
      assert (Hdist : NearbyDriver.distanceToPickup h =
                      calculateDistance (pickup_location rideRequest) (Driver.location selected)).
      { rewrite <- Hnear; reflexivity. }
      repeat split; auto.
      * intros other Hin He.
        assert (Hx : In (nearby rideRequest other) l1).
        { rewrite <- Hb; apply in_map, filter_In; auto. }
        pose proof (Hl1 _ Hx) as Hne.
        assert (Hle : (NearbyDriver.distanceToPickup h <=?
                       NearbyDriver.distanceToPickup (nearby rideRequest other)) = true).
        { apply Hmin, in_map, filter_In; split; [|exact He].
          rewrite Hlist; apply in_or_app; auto. }
        rewrite <- Hdist.
        destruct (le_lt_or_eq _ _ Hle) as [Hlt|Heqb]; [exact Hlt|].
        apply eqb_eq in Heqb. cbn [nearby NearbyDriver.distanceToPickup] in Heqb, Hne.
        rewrite <- Heqb, eqb_refl in Hne; [discriminate | apply Hdom, Hh].
      * intros other Hin He.
        rewrite <- Hdist.
        apply (Hmin (nearby rideRequest other)), in_map, filter_In; split; [|exact He].
        rewrite Hlist; apply in_or_app; right; right; exact Hin.
      * rewrite <- Hdist, <- Hnear; reflexivity.
Qed.

(** ** Pool matching *)

Lemma pool_full_closed (env_key : option string) (existingRide : Ride) :
  pool_full existingRide -> closed_or_full (constructor env_key) existingRide = true.
Proof.
  intros (passengers & Hp & Hlen).
  unfold closed_or_full; rewrite Hp; cbn [constructor MAX_POOL_SIZE].
  apply orb_true_iff; right.
  unfold Num.ge, of_nat; simpl.
  apply Rle_b_true.
  apply le_INR in Hlen. simpl in Hlen. lra.
Qed.

Lemma closed_not_full (env_key : option string) (existingRide : Ride) :
  closed_or_full (constructor env_key) existingRide = false ->
  allow_pooling existingRide = true /\ ~ pool_full existingRide.
Proof.
  unfold closed_or_full; cbn [constructor MAX_POOL_SIZE].
  intros H; apply orb_false_iff in H; destruct H as [Ha Hp].
  split; [destruct (allow_pooling existingRide); auto; discriminate|].
  intros (passengers & E & Hlen). rewrite E in Hp.
  unfold Num.ge, of_nat in Hp; simpl in Hp.
  apply Rle_b_false in Hp.
  apply le_INR in Hlen. simpl in Hlen. lra.
Qed.

Lemma findAvailablePools_loop_skip (host : Host) (this : MatchingService)
    (rideRequest existingRide : Ride) (rest : list Ride) (pools : list PoolCandidate.t) :
  closed_or_full this existingRide = true ->
  findAvailablePools_loop host this rideRequest (existingRide :: rest) pools =
  findAvailablePools_loop host this rideRequest rest pools.
Proof. intros H; cbn [findAvailablePools_loop]; rewrite H; reflexivity. Qed.

Lemma findAvailablePools_loop_app (host : Host) (this : MatchingService)
    (rideRequest : Ride) (rides1 rides2 : list Ride) (pools : list PoolCandidate.t) (w : World) :
  findAvailablePools_loop host this rideRequest (rides1 ++ rides2) pools w =
  match findAvailablePools_loop host this rideRequest rides1 pools w with
  | (Normal pools', w') => findAvailablePools_loop host this rideRequest rides2 pools' w'
  | (Throw e, w') => (Throw e, w')
  end.
Proof.
  revert pools w.
  induction rides1 as [|ride rides1 IH]; intros pools w; cbn [app findAvailablePools_loop].
  - reflexivity.
  - destruct (closed_or_full this ride); [apply IH|].
    destruct (female_only ride && not_female (user_gender rideRequest)); [apply IH|].
    destruct (female_only rideRequest && not_female (user_gender ride)); [apply IH|].
    unfold bind.
    destruct (calculateRouteCompatibility host this rideRequest ride w) as [[c|e] w1];
      [|reflexivity].
    destruct (Compatibility.isCompatible c); [|apply IH].
    destruct (driver ride) as [d|]; cbn [deref_null ret throw]; [apply IH | reflexivity].
Qed.

(** A full ride leaves no mark on a run: the same candidates, the same
    requests to the provider, the same console. *)
Lemma findAvailablePools_full_ride_skipped (host : Host) (env_key : option string)
    (rideRequest fullRide : Ride) (before after : list Ride) (w : World) :
  pool_full fullRide ->
  findAvailablePools host (constructor env_key) rideRequest (before ++ fullRide :: after) w =
  findAvailablePools host (constructor env_key) rideRequest (before ++ after) w.
Proof.
  intros Hfull. unfold findAvailablePools, bind.
  rewrite !findAvailablePools_loop_app.
  destruct (findAvailablePools_loop host (constructor env_key) rideRequest before [] w)
    as [[pools|e] w1]; [|reflexivity].
  rewrite findAvailablePools_loop_skip by (apply pool_full_closed; exact Hfull).
  reflexivity.
Qed.

Lemma findAvailablePools_loop_sources (host : Host) (this : MatchingService)
    (rideRequest : Ride) (existingRides : list Ride) (pools out : list PoolCandidate.t)
    (w w' : World) (source : PoolCandidate.t -> Prop) :
  (forall ride candidate,
     In ride existingRides -> closed_or_full this ride = false ->
     built_from candidate ride -> source candidate) ->
  Forall source pools ->
  findAvailablePools_loop host this rideRequest existingRides pools w = (Normal out, w') ->
  Forall source out.
Proof.
  revert pools w.
  induction existingRides as [|ride rest IH]; intros pools w Hsrc Hpools;
    cbn [findAvailablePools_loop].
  - unfold ret; intros H; injection H as <- _; exact Hpools.
  - assert (Hrest : forall r c, In r rest -> closed_or_full this r = false ->
                                built_from c r -> source c).
    { intros r c Hin; apply Hsrc; right; exact Hin. }
    destruct (closed_or_full this ride) eqn:Hclosed; [apply IH; assumption|].
    destruct (female_only ride && not_female (user_gender rideRequest));
      [apply IH; assumption|].
    destruct (female_only rideRequest && not_female (user_gender ride));
      [apply IH; assumption|].
    unfold bind at 1.
    destruct (calculateRouteCompatibility host this rideRequest ride w) as [[c|e] w1];
      [|discriminate].
    destruct (Compatibility.isCompatible c); [|apply IH; assumption].
    unfold bind at 1.
    destruct (driver ride) as [d|]; cbn [deref_null ret throw]; [|discriminate].
    apply IH; [assumption|].
    apply Forall_app; split; [assumption|].
    constructor; [|constructor].
    apply (Hsrc ride); [left; reflexivity | exact Hclosed |].
    repeat split.
Qed.

Lemma findAvailablePools_loop_returns (host : Host) (this : MatchingService)
    (rideRequest : Ride) (existingRides : list Ride) (pools : list PoolCandidate.t) (w : World) :
  Forall has_driver existingRides ->
  exists out w', findAvailablePools_loop host this rideRequest existingRides pools w
                 = (Normal out, w').
Proof.
  intros Hdrivers; revert pools w.
  induction Hdrivers as [|ride rest Hd _ IH]; intros pools w; cbn [findAvailablePools_loop].
  - unfold ret; eauto.
  - destruct (closed_or_full this ride); [apply IH|].
    destruct (female_only ride && not_female (user_gender rideRequest)); [apply IH|].
    destruct (female_only rideRequest && not_female (user_gender ride)); [apply IH|].
    unfold bind at 1.
    destruct (calculateRouteCompatibility_returns host this rideRequest ride w)
      as (c & w1 & ->).
    destruct (Compatibility.isCompatible c); [|apply IH].
    unfold bind at 1.
    destruct (driver ride) as [d|] eqn:E; [|contradiction Hd].
    cbn [deref_null ret]. apply IH.
Qed.

(** C3.  [findAvailablePools] never returns a candidate built from a ride
    whose pool already holds 3 ([MAX_POOL_SIZE - 1]) or more passengers: such
    a ride is skipped by the first test of the loop, before any route is
    computed, so the run is the run without it (same result, same requests to
    the provider, same console); every candidate returned carries the
    identity of a ride of the input that allows pooling and is not full.  The
    method returns whenever every ride has a driver. *)
Theorem full_pools_never_offered (host : Host) (env_key : option string)
    (rideRequest : Ride) :
  let this := constructor env_key in
  (forall fullRide rest pools,
     pool_full fullRide ->
     findAvailablePools_loop host this rideRequest (fullRide :: rest) pools =
     findAvailablePools_loop host this rideRequest rest pools) /\
  (forall fullRide before after w,
     pool_full fullRide ->
     findAvailablePools host this rideRequest (before ++ fullRide :: after) w =
     findAvailablePools host this rideRequest (before ++ after) w) /\
  (forall existingRides w out w',
     findAvailablePools host this rideRequest existingRides w = (Normal out, w') ->
     forall candidate, In candidate out ->
     exists existingRide,
       In existingRide existingRides /\ built_from candidate existingRide /\
       allow_pooling existingRide = true /\ ~ pool_full existingRide) /\
  (forall existingRides w,
     Forall has_driver existingRides ->
     exists out w', findAvailablePools host this rideRequest existingRides w = (Normal out, w')).
Proof.
  intros this. repeat split.
  - intros fullRide rest pools Hfull.
    apply findAvailablePools_loop_skip, pool_full_closed, Hfull.
  - intros; apply findAvailablePools_full_ride_skipped; assumption.
  - intros existingRides w out w' Hrun candidate Hin.
    unfold findAvailablePools, bind in Hrun.
    destruct (findAvailablePools_loop host this rideRequest existingRides [] w)
      as [[pools|e] w1] eqn:Hloop; [|discriminate].
    unfold ret in Hrun; injection Hrun as <- _.
    apply (Permutation_in _ (Array_sort_perm _ _ pools)) in Hin.
    pose proof (findAvailablePools_loop_sources host this rideRequest existingRides [] pools w w1
                  (fun c => exists r, In r existingRides /\ built_from c r /\
                                      allow_pooling r = true /\ ~ pool_full r)) as Hsources.
    cbv beta in Hsources.
    assert (Hall : Forall (fun c => exists r, In r existingRides /\ built_from c r /\
                                      allow_pooling r = true /\ ~ pool_full r) pools).
    { apply Hsources; [|constructor|exact Hloop].
      intros ride c Hr Hclosed Hbuilt. exists ride.
      destruct (closed_not_full env_key ride Hclosed); auto. }
    rewrite Forall_forall in Hall; auto.
  - intros existingRides w Hdrivers.
    unfold findAvailablePools, bind.
    destruct (findAvailablePools_loop_returns host this rideRequest existingRides [] w Hdrivers)
      as (pools & w1 & ->).
    unfold ret; eauto.
Qed.

(** ** Route estimation without credentials *)

Lemma getRouteDetails_without_key (host : Host) (this : MatchingService)
    (origin destination : Coordinate) (w : World) :
  key_configured this = None ->
  getRouteDetails host this origin destination w =
  (Normal (getRouteDetails_fallback host origin destination), w).
Proof.
  intros Hkey. unfold getRouteDetails, getRouteDetails_try, try_catch, bind, ret.
  rewrite Hkey. reflexivity.
Qed.

(** ** The range of the score *)

Lemma clamp_number (s : number) :
  isNaN s = false ->
  exists z : Z,
    Math.max (Num 0) (Math.min (Num 100) (Math.round s)) = Num (IZR z) /\ (0 <= z <= 100)%Z.
Proof.
  destruct s as [|t|x]; intros H; try discriminate.
  - destruct t; simpl; decide_reals.
    + exists 0%Z; split; [reflexivity|lia].
    + exists 100%Z; split; [reflexivity|lia].
  - cbn [Math.round]. generalize (Int_part (x + / 2)); intros z.
    destruct (Z_lt_le_dec 100 z) as [Hhi|Hhi].
    + exists 100%Z. split; [|lia]. apply IZR_lt in Hhi. simpl. decide_reals. reflexivity.
    + pose proof (IZR_le _ _ Hhi) as Hhi'. destruct (Z_lt_le_dec z 0) as [Hlo|Hlo].
      * exists 0%Z. split; [|lia]. apply IZR_lt in Hlo. simpl. decide_reals; reflexivity.
      * exists z. split; [|lia]. apply IZR_le in Hlo. simpl. decide_reals; try reflexivity.
        all: try (f_equal; lra).
Qed.

Lemma raw_score_NaN (p : R) (od dt pd : number) :
  (Num p - od <=? Num 5) = true -> (dt <=? Num 15) = true -> (pd <=? Num 3) = true ->
  (isNaN (Num 100 - (Num p - od) / Num 5 * Num 40 - dt / Num 15 * Num 30 - pd / Num 3 * Num 20
          + Math.max (Num 0) (Num 10 - (Num p / od - Num 1) * Num 50)) = true
   <-> p = 0%R /\ od = Num 0).
Proof.
  destruct od as [|t|o]; [discriminate| |];
  destruct dt as [|u|d]; try discriminate; destruct pd as [|v|q]; try discriminate;
  simpl; intros H1 H2 H3;
  repeat match goal with b : bool |- _ => destruct b; simpl in *; try discriminate end.
  all: repeat (progress (decide_reals; simpl)).
  all: try (split; [discriminate| intros [? E]; try discriminate; try (injection E; intros); lra]).
  all: try (split; [intros; split; [lra | f_equal; lra] | reflexivity]).
Qed.

(** The score of a pair within the three limits, for a combined route of
    finite length: an integer from 0 to 100, except that it is NaN when the
    combined route and the solo route both have length 0. *)
Lemma compatible_score_range (env_key : option string)
    (originalRoute : RouteDetails.t) (pooledRoute : PooledRoute.t) (p : R) :
  let this := constructor env_key in
  let detourDistance := PooledRoute.distance pooledRoute - RouteDetails.distance originalRoute in
  let detourTime := PooledRoute.duration pooledRoute - RouteDetails.duration originalRoute in
  let score :=
    calculateCompatibilityScore this detourDistance detourTime
      (PooledRoute.pickupDistance pooledRoute) originalRoute pooledRoute in
  PooledRoute.distance pooledRoute = Num p ->
  (detourDistance <=? Num 5) = true ->
  (detourTime <=? Num 15) = true ->
  (PooledRoute.pickupDistance pooledRoute <=? Num 3) = true ->
  (p = 0%R /\ RouteDetails.distance originalRoute = Num 0 /\ score = NaN) \/
  (~ (p = 0%R /\ RouteDetails.distance originalRoute = Num 0) /\
   exists z : Z, score = Num (IZR z) /\ (0 <= z <= 100)%Z).
Proof.
  cbv zeta. intros Hp H1 H2 H3.
  unfold calculateCompatibilityScore.
  cbn [constructor MAX_DETOUR_DISTANCE_KM MAX_DETOUR_TIME_MINUTES MAX_PICKUP_DISTANCE_KM].
  rewrite Hp in *.
  pose proof (raw_score_NaN p (RouteDetails.distance originalRoute) _ _ H1 H2 H3) as Hraw.
  match goal with |- context [Math.round ?s] => set (raw := s) in * end.
  destruct (isNaN raw) eqn:Hnan.
  - left. destruct Hraw as [Hraw _]. destruct (Hraw eq_refl) as [Hp0 Ho].
    repeat split; try assumption.
    destruct raw; try discriminate. reflexivity.
  - right. split.
    + intros Hboth. apply Hraw in Hboth. discriminate.
    + apply clamp_number; exact Hnan.
Qed.

(** ** Trips of length zero *)

Lemma origin_pair_route (id1 id2 : string) (fare1 fare2 : R) (w : World) :
  exists pooledRoute,
    getOptimalPoolRoute (sample_ride id1 origin_point origin_point fare1)
                        (sample_ride id2 origin_point origin_point fare2) w
    = (Normal (Some pooledRoute), w) /\
    PooledRoute.distance pooledRoute = Num 0 /\
    PooledRoute.duration pooledRoute = Num 0 /\
    PooledRoute.pickupDistance pooledRoute = Num 0.
Proof.
  rewrite getOptimalPoolRoute_pool, findOptimalWaypointOrder_pool.
  cbn [sample_ride pickup_location destination_location].
  unfold origin_point. rewrite !calculateDistance_point, !haversine_km_same.
  assert (H2 : (Num 0 <? Num 2) = true) by (apply lt_Num; lra).
  rewrite H2.
  eexists; split; [reflexivity|].
  cbn [PooledRoute.distance PooledRoute.duration PooledRoute.pickupDistance].
  unfold calculateTotalRouteDistance.
  cbn [calculateTotalRouteDistance_loop existingPickup newPickup existingDrop newDrop location
       sample_ride pickup_location destination_location].
  rewrite !calculateDistance_point, !haversine_km_same.
  simpl. repeat split; f_equal; lra.
Qed.

Lemma origin_pair_compatibility (id1 id2 : string) (fare1 fare2 : R) (w : World) :
  exists compatibility,
    calculateRouteCompatibility offline_host (constructor None)
      (sample_ride id1 origin_point origin_point fare1)
      (sample_ride id2 origin_point origin_point fare2) w
    = (Normal compatibility, w) /\
    Compatibility.isCompatible compatibility = true /\
    Compatibility.score compatibility = NaN.
Proof.
  destruct (origin_pair_route id1 id2 fare1 fare2 w) as (pooledRoute & Hroute & Hd & Ht & Hp).
  rewrite (calculateRouteCompatibility_run offline_host (constructor None) _ _ w w
             (getRouteDetails_fallback offline_host origin_point origin_point)).
  2:{ apply getRouteDetails_without_key; reflexivity. }
  rewrite Hroute.
  eexists; split; [reflexivity|].
  unfold compatibility_of, calculateCompatibilityScore.
  cbn [Compatibility.isCompatible Compatibility.score constructor
       MAX_DETOUR_DISTANCE_KM MAX_DETOUR_TIME_MINUTES MAX_PICKUP_DISTANCE_KM
       getRouteDetails_fallback RouteDetails.distance RouteDetails.duration].
  rewrite Hd, Ht, Hp.
  unfold origin_point. rewrite !calculateDistance_point, !haversine_km_same.
  split; simpl; decide_reals; reflexivity.
Qed.

Lemma findAvailablePools_loop_origin (id1 id2 : string) (fare1 fare2 : R)
    (rest : list Ride) (pools : list PoolCandidate.t) (w : World) :
  exists candidate,
    findAvailablePools_loop offline_host (constructor None)
      (sample_ride id1 origin_point origin_point fare1)
      (sample_ride id2 origin_point origin_point fare2 :: rest) pools w =
    findAvailablePools_loop offline_host (constructor None)
      (sample_ride id1 origin_point origin_point fare1) rest (pools ++ [candidate]) w /\
    PoolCandidate.poolId candidate = id2 /\
    PoolCandidate.compatibilityScore candidate = NaN.
Proof.
  destruct (origin_pair_compatibility id1 id2 fare1 fare2 w) as (c & Hrun & Hyes & Hscore).
  cbn [findAvailablePools_loop].
  assert (Hopen : closed_or_full (constructor None)
                    (sample_ride id2 origin_point origin_point fare2) = false).
  { unfold closed_or_full; simpl; decide_reals; reflexivity. }
  rewrite Hopen. cbn [sample_ride female_only andb].
  unfold bind at 1. fold (sample_ride id1 origin_point origin_point fare1).
  fold (sample_ride id2 origin_point origin_point fare2).
  rewrite Hrun, Hyes.
  unfold bind at 1. cbn [sample_ride driver deref_null ret].
  eexists; split; [reflexivity|].
  cbn [PoolCandidate.poolId PoolCandidate.compatibilityScore]. auto.
Qed.

(** C2, at a request and two candidate rides that all stay at one point:
    both candidates are compatible and both get the score NaN (the efficiency
    bonus divides the combined distance 0 by the solo distance 0), so the two
    scores of the returned array are not in the order [>=]. *)
Theorem zero_length_trips_score_NaN :
  exists c1 c2,
    findAvailablePools offline_host (constructor None) origin_request
      [origin_ride; origin_ride_2] [] = (Normal [c1; c2], []) /\
    PoolCandidate.poolId c1 = "r1" /\ PoolCandidate.poolId c2 = "r2" /\
    PoolCandidate.compatibilityScore c1 = NaN /\
    PoolCandidate.compatibilityScore c2 = NaN /\
    (PoolCandidate.compatibilityScore c1 >=? PoolCandidate.compatibilityScore c2) = false.
Proof.
  unfold findAvailablePools, bind, origin_request, origin_ride, origin_ride_2.
  destruct (findAvailablePools_loop_origin "request" "r1" 300 300
              [sample_ride "r2" origin_point origin_point 300] [] [])
    as (c1 & Hrun1 & Hid1 & Hs1).
  rewrite Hrun1.
  destruct (findAvailablePools_loop_origin "request" "r2" 300 300 [] ([] ++ [c1]) [])
    as (c2 & Hrun2 & Hid2 & Hs2).
  rewrite Hrun2.
  cbn [findAvailablePools_loop ret app].
  exists c1, c2.
  unfold Array_sort; cbn [fold_right sort_insert]. unfold sorts_after, SortCompare.
  rewrite Hs1, Hs2. cbn.
  repeat split; auto.
  decide_reals; reflexivity.
Qed.

(** The array the loop builds lists the compatible rides in input order. *)
Lemma findAvailablePools_loop_order (host : Host) (this : MatchingService)
    (rideRequest : Ride) (existingRides : list Ride) (pools out : list PoolCandidate.t)
    (w w' : World) :
  findAvailablePools_loop host this rideRequest existingRides pools w = (Normal out, w') ->
  exists added kept,
    out = pools ++ added /\ Forall2 built_from added kept /\ subsequence kept existingRides.
Proof.
  revert pools w.
  induction existingRides as [|ride rest IH]; intros pools w; cbn [findAvailablePools_loop].
  - unfold ret; intros H; injection H as <- _.
    exists [], []; rewrite app_nil_r; repeat split; constructor.
  - assert (Hskip : forall pools0 w0,
               findAvailablePools_loop host this rideRequest rest pools0 w0 = (Normal out, w') ->
               exists added kept,
                 out = pools0 ++ added /\ Forall2 built_from added kept /\
                 subsequence kept (ride :: rest)).
    { intros pools0 w0 H. destruct (IH _ _ H) as (added & kept & E & HF & HS).
      exists added, kept; repeat split; auto. constructor; exact HS. }
    destruct (closed_or_full this ride); [apply Hskip|].
    destruct (female_only ride && not_female (user_gender rideRequest)); [apply Hskip|].
    destruct (female_only rideRequest && not_female (user_gender ride)); [apply Hskip|].
    unfold bind at 1.
    destruct (calculateRouteCompatibility host this rideRequest ride w) as [[c|e] w1];
      [|discriminate].
    destruct (Compatibility.isCompatible c); [|apply Hskip].
    unfold bind at 1.
    destruct (driver ride) as [d|]; cbn [deref_null ret throw]; [|discriminate].
    intros H. destruct (IH _ _ H) as (added & kept & E & HF & HS).
    rewrite <- app_assoc in E. cbn [app] in E.
    eexists (_ :: added), (ride :: kept); split; [exact E|]. split.
    + constructor; [repeat split | exact HF].
    + constructor; exact HS.
Qed.

(** Apart from scores that are NaN, the array returned is in non-increasing
    order of score, candidates of equal score in input order. *)
Lemma findAvailablePools_sorted_when_numeric (host : Host) (this : MatchingService)
    (rideRequest : Ride) (existingRides : list Ride) (w w' : World)
    (out : list PoolCandidate.t) :
  findAvailablePools host this rideRequest existingRides w = (Normal out, w') ->
  exists compatiblePools kept,
    Forall2 built_from compatiblePools kept /\ subsequence kept existingRides /\
    Permutation out compatiblePools /\
    (Forall score_is_number out ->
     StronglySorted
       (fun a b =>
          (PoolCandidate.compatibilityScore a >=? PoolCandidate.compatibilityScore b) = true)
       out /\
     forall s,
       filter (fun c => Num.eqb (PoolCandidate.compatibilityScore c) s) out =
       filter (fun c => Num.eqb (PoolCandidate.compatibilityScore c) s) compatiblePools).
Proof.
  unfold findAvailablePools, bind.
  destruct (findAvailablePools_loop host this rideRequest existingRides [] w)
    as [[pools|e] w1] eqn:Hloop; [|discriminate].
  unfold ret; intros H; injection H as <- _.
  destruct (findAvailablePools_loop_order _ _ _ _ _ _ _ _ Hloop) as (added & kept & E & HF & HS).
  cbn [app] in E; subst added.
  exists pools, kept. split; [exact HF|]. split; [exact HS|].
  split; [apply Array_sort_perm|].
  intros Hnum.
  assert (Hpools : Forall score_is_number pools).
  { eapply Permutation_Forall; [apply Array_sort_perm | exact Hnum]. }
  split.
  - apply Array_sort_sorted with (domain := score_is_number).
    + intros x y z _ _ _ Hxy Hyz; unfold Num.ge in *. eapply le_trans; eassumption.
    + intros x y Hx Hy; unfold sorts_after, SortCompare.
      rewrite difference_positive by assumption.
      intros H; apply lt_false_le in H; assumption.
    + intros x y Hx Hy; unfold sorts_after, SortCompare.
      rewrite difference_positive by assumption.
      apply lt_le.
    + exact Hpools.
  - intros s. apply Array_sort_stable.
    intros x y _ _ Hx Hy.
    assert (Hs : isNaN s = false).
    { destruct s; try reflexivity.
      destruct (PoolCandidate.compatibilityScore y); discriminate. }
    apply eqb_eq in Hx, Hy. unfold sorts_after, SortCompare.
    rewrite Hx, Hy, difference_positive by assumption.
    apply lt_irrefl.
Qed.

(** ** The fare split *)

(** A base fare of 100 with a detour of 5 km: the fare is
    [round(75 + 50) = 125], above the base fare. *)
Lemma fare_share_can_exceed_base_fare :
  (Num 0 <? estimated_fare fare_100_request) = true /\
  (Num 0 <=? number_of (Compatibility.detourDistance (compatibility_with_detour (Num 5)))) = true /\
  calculateFareShare fare_100_request origin_ride (compatibility_with_detour (Num 5)) = Num 125 /\
  (calculateFareShare fare_100_request origin_ride (compatibility_with_detour (Num 5))
   <? estimated_fare fare_100_request) = false.
Proof.
  assert (Hfare : calculateFareShare fare_100_request origin_ride
                    (compatibility_with_detour (Num 5)) = Num 125).
  { unfold calculateFareShare.
    cbn [fare_100_request sample_ride estimated_fare compatibility_with_detour
         Compatibility.detourDistance number_of].
    change (Num 1 - Num 0.25) with (Num (1 - 0.25)).
    change (Num 100 * Num (1 - 0.25) + Num 5 * Num 10)
      with (Num (100 * (1 - 0.25) + 5 * 10)).
    rewrite (round_Num _ 125) by lra.
    simpl; decide_reals; reflexivity. }
  rewrite Hfare.
  cbn [fare_100_request sample_ride estimated_fare compatibility_with_detour
       Compatibility.detourDistance number_of].
  repeat split.
  - apply lt_Num; lra.
  - apply le_Num; lra.
  - apply lt_Num_false; lra.
Qed.

(** C4, amended.  For a positive base fare and a non-negative detour the
    fare returned by [calculateFareShare] is
    [max(round(baseFare * 0.75 + detourDistance * 10), 0.6 * baseFare)]; it is
    at least [0.6 * baseFare]; it is below [baseFare] exactly when the rounded
    sum is, which holds whenever [detourDistance * 10 + 0.5] is less than
    [0.25 * baseFare] for a finite base fare. *)
Theorem fare_share_bounds (newRide existingRide : Ride) (compatibility : Compatibility.t) :
  let baseFare := estimated_fare newRide in
  let detourDistance := number_of (Compatibility.detourDistance compatibility) in
  let fareShare := calculateFareShare newRide existingRide compatibility in
  (Num 0 <? baseFare) = true ->
  (Num 0 <=? detourDistance) = true ->
  fareShare =
    Math.max (Math.round (baseFare * Num 0.75 + detourDistance * Num 10)) (baseFare * Num 0.6) /\
  (baseFare * Num 0.6 <=? fareShare) = true /\
  ((fareShare <? baseFare) = true <->
   (Math.round (baseFare * Num 0.75 + detourDistance * Num 10) <? baseFare) = true) /\
  (isFinite baseFare = true ->
   (detourDistance * Num 10 + Num 0.5 <? baseFare * Num 0.25) = true ->
   (fareShare <? baseFare) = true).
Proof.
  cbv zeta. unfold calculateFareShare.
  replace (Num 1 - Num 0.25) with (Num 0.75) by (simpl; f_equal; lra).
  destruct (estimated_fare newRide) as [|s|b];
    destruct (number_of (Compatibility.detourDistance compatibility)) as [|t|x];
    simpl; try discriminate.
  - destruct s, t; simpl; try discriminate. intros _ _.
    decide_reals. simpl. intuition discriminate.
  - destruct s; simpl; try discriminate. intros _ _.
    decide_reals. simpl. intuition discriminate.
  - destruct t; simpl; try discriminate. intros Hb _. apply Rlt_b_true in Hb.
    decide_reals. simpl. intuition discriminate.
  - intros Hb Hx. apply Rlt_b_true in Hb. apply Rle_b_true in Hx.
    destruct (base_Int_part (b * 0.75 + x * 10 + / 2)) as [Hlo Hhi].
    set (z := IZR (Int_part (b * 0.75 + x * 10 + / 2))) in *.
    destruct (Rlt_b z (b * 0.6)) eqn:Hz;
      [apply Rlt_b_true in Hz | apply Rlt_b_false in Hz]; simpl;
      repeat split; intros;
      repeat match goal with H : Rlt_b _ _ = true |- _ => apply Rlt_b_true in H end;
      try apply Rlt_b_true; try apply Rle_b_true; lra.
Qed.

Lemma fare_share_bounds_witness :
  (Num 0 <? estimated_fare origin_request) = true /\
  (Num 0 <=? number_of (Compatibility.detourDistance (compatibility_with_detour (Num 5)))) = true /\
  (estimated_fare origin_request * Num 0.6 <=?
   calculateFareShare origin_request origin_ride (compatibility_with_detour (Num 5))) = true.
Proof.
  assert (H1 : (Num 0 <? estimated_fare origin_request) = true) by (apply lt_Num; lra).
  assert (H2 : (Num 0 <=? number_of (Compatibility.detourDistance
                                       (compatibility_with_detour (Num 5)))) = true)
    by (apply le_Num; lra).
  split; [exact H1|]. split; [exact H2|].
  apply (fare_share_bounds origin_request origin_ride (compatibility_with_detour (Num 5)) H1 H2).
Defined.

(** ** Route estimation *)

Lemma getRouteDetails_run (host : Host) (this : MatchingService)
    (origin destination : Coordinate) (w : World) :
  getRouteDetails host this origin destination w =
  match getRouteDetails_try host this origin destination w with
  | (Normal (Some details), w') => (Normal details, w')
  | (Normal None, w') => (Normal (getRouteDetails_fallback host origin destination), w')
  | (Throw e, w') =>
      (Normal (getRouteDetails_fallback host origin destination),
       w' ++ [ConsoleError maps_error e])
  end.
Proof.
  unfold getRouteDetails, try_catch, bind, ret, console_error.
  destruct (getRouteDetails_try host this origin destination w) as [[[details|]|e] w'];
    reflexivity.
Qed.

Lemma getRouteDetails_try_with_key (host : Host) (this : MatchingService)
    (origin destination : Coordinate) (key : string) (w : World) :
  key_configured this = Some key ->
  getRouteDetails_try host this origin destination w =
  (match axios_get host (count_requests w) (directions_request host origin destination key) with
   | Normal response => getRouteDetails_read host response
   | Throw e => Throw e
   end,
   w ++ [AxiosGet (directions_request host origin destination key)]).
Proof.
  intros Hkey. unfold getRouteDetails_try, bind, axios_get_call, lift. rewrite Hkey.
  destruct (axios_get host (count_requests w) (directions_request host origin destination key));
    reflexivity.
Qed.

(** Without a usable route list the [if] is not entered. *)
Lemma getRouteDetails_read_no_routes (host : Host) (response data routes : value) :
  Get response "data" = Normal data ->
  Get data "routes" = Normal routes ->
  ToBoolean routes = false \/ routes = VArray [] ->
  getRouteDetails_read host response = Normal None.
Proof.
  intros Hdata Hroutes Hcase. unfold getRouteDetails_read.
  rewrite Hdata; cbn [and_then]. rewrite Hroutes; cbn [and_then].
  destruct Hcase as [Hfalse| ->].
  - rewrite Hfalse; reflexivity.
  - simpl. decide_reals. reflexivity.
Qed.

(** When the block returns, the reply had a first route with a first leg
    whose distance and duration could be read, and the estimate is their
    values, coerced to numbers, in km and minutes. *)
Lemma getRouteDetails_read_some (host : Host) (response : value) (details : RouteDetails.t) :
  getRouteDetails_read host response = Normal (Some details) ->
  exists data routes route legs leg leg_distance leg_duration distance_value duration_value
         metres seconds,
    Get response "data" = Normal data /\ Get data "routes" = Normal routes /\
    ToBoolean routes = true /\
    GetIndex routes 0 = Normal route /\ Get route "legs" = Normal legs /\
    GetIndex legs 0 = Normal leg /\
    Get leg "distance" = Normal leg_distance /\ Get leg "duration" = Normal leg_duration /\
    Get leg_distance "value" = Normal distance_value /\
    Get leg_duration "value" = Normal duration_value /\
    ToNumber host distance_value = Normal metres /\
    ToNumber host duration_value = Normal seconds /\
    RouteDetails.distance details = metres / Num 1000 /\
    RouteDetails.duration details = seconds / Num 60.
Proof.
  unfold getRouteDetails_read.
  destruct (Get response "data") as [data|] eqn:E1; cbn [and_then]; [|discriminate].
  destruct (Get data "routes") as [routes|] eqn:E2; cbn [and_then]; [|discriminate].
  destruct (ToBoolean routes) eqn:Htrue; cbn [and_then]; [|discriminate].
  destruct (Get routes "length") as [len|] eqn:E3; cbn [and_then]; [|discriminate].
  destruct (ToNumber host len) as [n|] eqn:E4; cbn [and_then]; [|discriminate].
  destruct (n >? Num 0); [|discriminate].
  destruct (GetIndex routes 0) as [route|] eqn:E5; cbn [and_then]; [|discriminate].
  destruct (Get route "legs") as [legs|] eqn:E6; cbn [and_then]; [|discriminate].
  destruct (GetIndex legs 0) as [leg|] eqn:E7; cbn [and_then]; [|discriminate].
  destruct (Get leg "distance") as [leg_distance|] eqn:E8; cbn [and_then]; [|discriminate].
  destruct (Get leg_distance "value") as [distance_value|] eqn:E9; cbn [and_then]; [|discriminate].
  destruct (ToNumber host distance_value) as [metres|] eqn:E10; cbn [and_then]; [|discriminate].
  destruct (Get leg "duration") as [leg_duration|] eqn:E11; cbn [and_then]; [|discriminate].
  destruct (Get leg_duration "value") as [duration_value|] eqn:E12; cbn [and_then]; [|discriminate].
  destruct (ToNumber host duration_value) as [seconds|] eqn:E13; cbn [and_then]; [|discriminate].
  destruct (Get leg_distance "text") as [distance_text|] eqn:E14; cbn [and_then]; [|discriminate].
  destruct (Get leg_duration "text") as [duration_text|] eqn:E15; cbn [and_then]; [|discriminate].
  intros H; injection H as <-.
  exists data, routes, route, legs, leg, leg_distance, leg_duration, distance_value, duration_value,
         metres, seconds.
  cbn [RouteDetails.distance RouteDetails.duration].
  repeat split; auto.
Qed.

Lemma key_configured_some (key : string) :
  key <> ""%string -> key_configured (constructor (Some key)) = Some key.
Proof.
  intros Hne. unfold key_configured; cbn [constructor GOOGLE_MAPS_API_KEY].
  destruct key as [|c key]; [contradiction|].
  unfold of_nat, Num.gt. cbn [String.length].
  rewrite S_INR. pose proof (pos_INR (String.length key)).
  simpl. decide_reals. reflexivity.
Qed.

Lemma malformed_reply_not_well_formed : ~ well_formed_reply malformed_reply.
Proof.
  intros (data & route & routes & leg & legs & leg_distance & leg_duration & metres & seconds
          & Hdata & Hroutes & Hlegs & Hdist & Hmetres & _).
  simpl in Hdata. injection Hdata as <-.
  simpl in Hroutes. injection Hroutes as <- <-.
  simpl in Hlegs. injection Hlegs as <- <-.
  simpl in Hdist. injection Hdist as <-.
  simpl in Hmetres. discriminate.
Qed.

(** A reply that lacks the two values is not turned into the fallback: the
    estimate returned has the distance NaN, where the fallback has the
    haversine distance 0. *)
Lemma malformed_reply_is_not_replaced_by_fallback :
  ~ well_formed_reply malformed_reply /\
  axios_get malformed_host 0
    (directions_request malformed_host origin_point origin_point "key") = Normal malformed_reply /\
  exists details w',
    getRouteDetails malformed_host (constructor (Some "key")) origin_point origin_point []
      = (Normal details, w') /\
    RouteDetails.distance details = NaN /\
    RouteDetails.distance (getRouteDetails_fallback malformed_host origin_point origin_point)
      = Num 0 /\
    details <> getRouteDetails_fallback malformed_host origin_point origin_point.
Proof.
  split; [exact malformed_reply_not_well_formed|]. split; [reflexivity|].
  rewrite getRouteDetails_run.
  rewrite (getRouteDetails_try_with_key _ _ _ _ "key") by (apply key_configured_some; discriminate).
  cbn [malformed_host axios_get].
  assert (Hread : getRouteDetails_read malformed_host malformed_reply =
                  Normal (Some {| RouteDetails.distance := NaN;
                                  RouteDetails.duration := NaN;
                                  RouteDetails.distanceText := VUndefined;
                                  RouteDetails.durationText := VUndefined |})).
  { unfold getRouteDetails_read; simpl. decide_reals. reflexivity. }
  fold malformed_host. rewrite Hread.
  eexists; eexists; split; [reflexivity|].
  assert (Hzero : RouteDetails.distance
                    (getRouteDetails_fallback malformed_host origin_point origin_point) = Num 0).
  { cbn [getRouteDetails_fallback RouteDetails.distance]. unfold origin_point.
    rewrite calculateDistance_point, haversine_km_same. reflexivity. }
  split; [reflexivity|]. split; [exact Hzero|].
  intros Heq. rewrite <- Heq in Hzero. discriminate.
Qed.

(** C5, amended.  [getRouteDetails] never throws.  It returns the fallback
    estimate (distance the haversine distance, duration that distance times 2)
    when no API key is configured (and then asks the provider nothing), when
    the request fails, when reading the reply throws, and when the reply has
    no route list or an empty one.  Any other reply is used as it is: the
    estimate is made of the first leg's distance and duration values, coerced
    to numbers. *)
Theorem getRouteDetails_never_throws (host : Host) (this : MatchingService)
    (origin destination : Coordinate) (w : World) :
  let fallback := getRouteDetails_fallback host origin destination in
  (exists details w', getRouteDetails host this origin destination w = (Normal details, w')) /\
  RouteDetails.distance fallback = calculateDistance origin destination /\
  RouteDetails.duration fallback = calculateDistance origin destination * Num 2 /\
  (key_configured this = None ->
   getRouteDetails host this origin destination w = (Normal fallback, w)) /\
  (forall key,
     key_configured this = Some key ->
     let request := directions_request host origin destination key in
     let w1 := w ++ [AxiosGet request] in
     (forall e,
        axios_get host (count_requests w) request = Throw e ->
        getRouteDetails host this origin destination w =
        (Normal fallback, w1 ++ [ConsoleError maps_error e])) /\
     (forall response,
        axios_get host (count_requests w) request = Normal response ->
        (forall e,
           getRouteDetails_read host response = Throw e ->
           getRouteDetails host this origin destination w =
           (Normal fallback, w1 ++ [ConsoleError maps_error e])) /\
        (forall data routes,
           Get response "data" = Normal data -> Get data "routes" = Normal routes ->
           ToBoolean routes = false \/ routes = VArray [] ->
           getRouteDetails host this origin destination w = (Normal fallback, w1)) /\
        (forall details,
           getRouteDetails host this origin destination w = (Normal details, w1) ->
           details = fallback \/
           exists data routes route legs leg leg_distance leg_duration
                  distance_value duration_value metres seconds,
             Get response "data" = Normal data /\ Get data "routes" = Normal routes /\
             ToBoolean routes = true /\
             GetIndex routes 0 = Normal route /\ Get route "legs" = Normal legs /\
             GetIndex legs 0 = Normal leg /\
             Get leg "distance" = Normal leg_distance /\
             Get leg "duration" = Normal leg_duration /\
             Get leg_distance "value" = Normal distance_value /\
             Get leg_duration "value" = Normal duration_value /\
             ToNumber host distance_value = Normal metres /\
             ToNumber host duration_value = Normal seconds /\
             RouteDetails.distance details = metres / Num 1000 /\
             RouteDetails.duration details = seconds / Num 60))).
Proof.
  cbv zeta.
  split; [apply getRouteDetails_returns|].
  split; [reflexivity|]. split; [reflexivity|].
  split; [apply getRouteDetails_without_key|].
  intros key Hkey.
  rewrite getRouteDetails_run, (getRouteDetails_try_with_key _ _ _ _ key _ Hkey).
  split.
  - intros e ->. reflexivity.
  - intros response ->. split; [|split].
    + intros e ->. reflexivity.
    + intros data routes Hdata Hroutes Hcase.
      rewrite (getRouteDetails_read_no_routes host response data routes Hdata Hroutes Hcase).
      reflexivity.
    + intros details.
      destruct (getRouteDetails_read host response) as [[found|]|e] eqn:Hread.
      * intros H; injection H as <-. right.
        exact (getRouteDetails_read_some host response found Hread).
      * intros H; injection H as <-. left; reflexivity.
      * intros H; injection H as <- _. left; reflexivity.
Qed.

(** ** Inputs the data model excludes *)

Lemma toRadians_not_finite (degrees : number) :
  isFinite degrees = false -> isFinite (toRadians degrees / Num 2) = false.
Proof.
  unfold toRadians, Math.PI. rewrite (div_Num PI 180) by lra.
  destruct degrees as [|s|x]; simpl; intros H; try discriminate; auto.
  decide_reals; reflexivity.
Qed.

Lemma sub_not_finite (a b : number) :
  isFinite a = false \/ isFinite b = false -> isFinite (b - a) = false.
Proof.
  destruct a as [|s|x], b as [|t|y]; simpl; intros [H|H]; try discriminate; auto;
    destruct s, t; reflexivity.
Qed.

Lemma sin_not_finite (a : number) : isFinite a = false -> Math.sin a = NaN.
Proof. destruct a; simpl; intros; try discriminate; reflexivity. Qed.

Lemma add_NaN_r (a : number) : a + NaN = NaN.
Proof. destruct a; reflexivity. Qed.

Lemma calculateDistance_not_finite (p q : Coordinate) :
  finite_coordinate p = false \/ finite_coordinate q = false ->
  calculateDistance p q = NaN.
Proof.
  intros H.
  assert (Hcase : (isFinite (latitude p) = false \/ isFinite (latitude q) = false) \/
                  (isFinite (longitude p) = false \/ isFinite (longitude q) = false)).
  { unfold finite_coordinate in H; rewrite !andb_false_iff in H; tauto. }
  unfold calculateDistance.
  destruct Hcase as [Hlat|Hlon].
  - rewrite (sin_not_finite _ (toRadians_not_finite _ (sub_not_finite _ _ Hlat))).
    reflexivity.
  - rewrite (sin_not_finite _ (toRadians_not_finite _ (sub_not_finite _ _ Hlon))).
    cbn [Num.mul]. rewrite add_NaN_r. reflexivity.
Qed.

Lemma calculateTotalRouteDistance_4 (a b c d : Waypoint) :
  calculateTotalRouteDistance [a; b; c; d] =
  Num 0 + calculateDistance (location a) (location b)
        + calculateDistance (location b) (location c)
        + calculateDistance (location c) (location d).
Proof. reflexivity. Qed.

Lemma non_finite_request_incompatible (host : Host) (this : MatchingService)
    (rideRequest existingRide : Ride) (w : World) :
  finite_coordinate (pickup_location rideRequest) = false \/
  finite_coordinate (destination_location rideRequest) = false ->
  exists compatibility w',
    calculateRouteCompatibility host this rideRequest existingRide w = (Normal compatibility, w') /\
    Compatibility.isCompatible compatibility = false.
Proof.
  intros Hbad.
  destruct (getRouteDetails_returns host this (pickup_location existingRide)
              (destination_location existingRide) w) as (originalRoute & w1 & Hdetails).
  rewrite (calculateRouteCompatibility_run _ _ rideRequest _ _ _ _ Hdetails).
  rewrite getOptimalPoolRoute_pool, findOptimalWaypointOrder_pool.
  assert (Hnan : forall order,
             calculateTotalRouteDistance order = NaN ->
             Compatibility.isCompatible
               (compatibility_of host this rideRequest existingRide originalRoute
                  {| PooledRoute.distance := calculateTotalRouteDistance order;
                     PooledRoute.duration := calculateTotalRouteDistance order * Num 2;
                     PooledRoute.pickupDistance :=
                       calculateDistance (pickup_location existingRide)
                                         (pickup_location rideRequest);
                     PooledRoute.pickupTime := Num 10;
                     PooledRoute.description := generateRouteDescription order;
                     PooledRoute.waypoints := order |}) = false).
  { intros order Hd. unfold compatibility_of.
    cbn [Compatibility.isCompatible PooledRoute.distance]. rewrite Hd. reflexivity. }
  destruct Hbad as [Hpick|Hdest].
  - rewrite (calculateDistance_not_finite (pickup_location existingRide)
               (pickup_location rideRequest)) by (right; exact Hpick).
    cbn [Num.lt Num.add Num.sub]. eexists; eexists; split; reflexivity.
  - rewrite (calculateDistance_not_finite (destination_location existingRide)
               (destination_location rideRequest)) by (right; exact Hdest).
    cbn [Num.lt].
    repeat match goal with |- context [if ?c then _ else _] => destruct c end;
      eexists; eexists; (split; [reflexivity|]); try reflexivity; apply Hnan;
      rewrite calculateTotalRouteDistance_4;
      cbn [existingPickup newPickup existingDrop newDrop location].
    + rewrite (calculateDistance_not_finite (destination_location rideRequest)
                 (destination_location existingRide)) by (left; exact Hdest).
      apply add_NaN_r.
    + rewrite (calculateDistance_not_finite (destination_location existingRide)
                 (destination_location rideRequest)) by (right; exact Hdest).
      apply add_NaN_r.
Qed.

Lemma findAvailablePools_loop_all_incompatible (host : Host) (this : MatchingService)
    (rideRequest : Ride) (existingRides : list Ride) (pools : list PoolCandidate.t) (w : World) :
  (forall ride w0, exists compatibility w',
     calculateRouteCompatibility host this rideRequest ride w0 = (Normal compatibility, w') /\
     Compatibility.isCompatible compatibility = false) ->
  exists w', findAvailablePools_loop host this rideRequest existingRides pools w
             = (Normal pools, w').
Proof.
  intros Hall. revert w.
  induction existingRides as [|ride rest IH]; intros w.
  - exists w; reflexivity.
  - destruct (Hall ride w) as (c & w1 & Hrun & Hno).
    destruct (findAvailablePools_loop_incompatible host this rideRequest ride rest pools
                w w1 c Hrun Hno) as (w2 & ->).
    apply IH.
Qed.

(** The only exception [findAvailablePools] can end with is the one raised
    by reading the driver of a compatible ride that has none. *)
Lemma findAvailablePools_loop_throws (host : Host) (this : MatchingService)
    (rideRequest : Ride) (existingRides : list Ride) (pools : list PoolCandidate.t)
    (w w' : World) (e : error) :
  findAvailablePools_loop host this rideRequest existingRides pools w = (Throw e, w') ->
  e = TypeError "Cannot read properties of null" /\
  exists ride, In ride existingRides /\ driver ride = None.
Proof.
  revert pools w.
  induction existingRides as [|ride rest IH]; intros pools w; cbn [findAvailablePools_loop].
  - discriminate.
  - assert (Hrest : forall pools0 w0,
               findAvailablePools_loop host this rideRequest rest pools0 w0 = (Throw e, w') ->
               e = TypeError "Cannot read properties of null" /\
               exists r, In r (ride :: rest) /\ driver r = None).
    { intros pools0 w0 H. destruct (IH _ _ H) as (He & r & Hin & Hr).
      split; [exact He|]. exists r; split; [right; exact Hin | exact Hr]. }
    destruct (closed_or_full this ride); [apply Hrest|].
    destruct (female_only ride && not_female (user_gender rideRequest)); [apply Hrest|].
    destruct (female_only rideRequest && not_female (user_gender ride)); [apply Hrest|].
    unfold bind at 1.
    destruct (calculateRouteCompatibility_returns host this rideRequest ride w)
      as (c & w1 & ->).
    destruct (Compatibility.isCompatible c); [|apply Hrest].
    unfold bind at 1.
    destruct (driver ride) as [d|] eqn:Hd; cbn [deref_null ret throw]; [apply Hrest|].
    intros H; injection H as <- _.
    split; [reflexivity|]. exists ride; split; [left; reflexivity | exact Hd].
Qed.

Lemma findAvailablePools_non_finite_request (host : Host) (this : MatchingService)
    (rideRequest : Ride) (existingRides : list Ride) (w : World) :
  finite_coordinate (pickup_location rideRequest) = false \/
  finite_coordinate (destination_location rideRequest) = false ->
  exists w', findAvailablePools host this rideRequest existingRides w = (Normal [], w').
Proof.
  intros Hbad. unfold findAvailablePools, bind.
  destruct (findAvailablePools_loop_all_incompatible host this rideRequest existingRides [] w)
    as (w' & ->).
  - intros ride w0. apply non_finite_request_incompatible; exact Hbad.
  - exists w'; reflexivity.
Qed.

(** A request with a latitude that is not a number, a longitude of 1000
    degrees, a fare of zero and an unknown gender is not rejected: distances
    are computed from it (they are NaN) and the answer is the empty list. *)
Lemma invalid_request_is_not_rejected :
  finite_coordinate (pickup_location invalid_request) = false /\
  ~ valid_coordinate (pickup_location invalid_request) /\
  estimated_fare invalid_request = Num 0 /\
  calculateDistance (pickup_location origin_ride) (pickup_location invalid_request) = NaN /\
  exists w',
    findAvailablePools offline_host (constructor None) invalid_request [origin_ride] []
    = (Normal [], w').
Proof.
  split; [reflexivity|]. split.
  { intros (lat & lon & H & _). discriminate. }
  split; [reflexivity|]. split.
  - apply calculateDistance_not_finite; right; reflexivity.
  - apply findAvailablePools_non_finite_request; left; reflexivity.
Qed.

(** C6, amended.  The service validates nothing and has no validation
    error.  A distance computed from a coordinate with a component that is
    not finite is NaN; a request with such a pickup or destination gets the
    empty list; whatever the coordinates, fares, genders and flags,
    [findAvailablePools] returns when every candidate ride has a driver, and
    the only exception it can end with is the [TypeError] of reading the
    driver of a compatible ride that has none. *)
Theorem no_input_validation (host : Host) (env_key : option string)
    (rideRequest : Ride) (existingRides : list Ride) (w : World) :
  let this := constructor env_key in
  (forall p q,
     finite_coordinate p = false \/ finite_coordinate q = false ->
     calculateDistance p q = NaN) /\
  (finite_coordinate (pickup_location rideRequest) = false \/
   finite_coordinate (destination_location rideRequest) = false ->
   exists w', findAvailablePools host this rideRequest existingRides w = (Normal [], w')) /\
  (Forall has_driver existingRides ->
   exists out w', findAvailablePools host this rideRequest existingRides w = (Normal out, w')) /\
  (forall e w',
     findAvailablePools host this rideRequest existingRides w = (Throw e, w') ->
     e = TypeError "Cannot read properties of null" /\
     exists ride, In ride existingRides /\ driver ride = None).
Proof.
  intros this. split; [exact calculateDistance_not_finite|].
  split; [apply findAvailablePools_non_finite_request|].
  split.
  - intros Hdrivers. unfold findAvailablePools, bind.
    destruct (findAvailablePools_loop_returns host this rideRequest existingRides [] w Hdrivers)
      as (pools & w1 & ->).
    unfold ret; eauto.
  - intros e w'. unfold findAvailablePools, bind.
    destruct (findAvailablePools_loop host this rideRequest existingRides [] w)
      as [[pools|e0] w1] eqn:Hloop; [discriminate|].
    intros H; injection H as <- <-.
    eapply findAvailablePools_loop_throws; exact Hloop.
Qed.

(** ** The service on the sample data *)

Lemma findOptimalWaypointOrder_algorithm_witness :
  (calculateDistance (pickup_location origin_ride) (pickup_location antipode_request)
   >=? Num 2) = true /\
  (calculateDistance (pickup_location origin_ride) (pickup_location antipode_request) +
   calculateDistance (pickup_location antipode_request) (destination_location origin_ride) -
   calculateDistance (pickup_location origin_ride) (destination_location origin_ride)
   <? Num 1) = false /\
  findOptimalWaypointOrder (pool_waypoints antipode_request origin_ride) [] = (Normal None, []).
Proof.
  assert (H1 : (calculateDistance (pickup_location origin_ride)
                  (pickup_location antipode_request) >=? Num 2) = true).
  { cbn [antipode_request origin_ride sample_ride pickup_location].
    unfold origin_point, antipode_point.
    rewrite calculateDistance_point, haversine_km_half_turn.
    pose proof PI_gt_3. apply le_Num. lra. }
  assert (H2 : (calculateDistance (pickup_location origin_ride)
                  (pickup_location antipode_request) +
                calculateDistance (pickup_location antipode_request)
                  (destination_location origin_ride) -
                calculateDistance (pickup_location origin_ride)
                  (destination_location origin_ride) <? Num 1) = false).
  { cbn [antipode_request origin_ride sample_ride pickup_location destination_location].
    unfold origin_point, antipode_point.
    rewrite !calculateDistance_point.
    rewrite haversine_km_half_turn, haversine_km_half_turn_back, haversine_km_same.
    pose proof PI_gt_3. apply lt_Num_false. lra. }
  split; [exact H1|]. split; [exact H2|].
  apply (findOptimalWaypointOrder_algorithm antipode_request origin_ride []); assumption.
Defined.

Lemma full_ride_is_full : pool_full full_ride.
Proof. eexists; split; [reflexivity|]. simpl; lia. Defined.

Lemma full_pools_never_offered_witness :
  pool_full full_ride /\
  findAvailablePools offline_host (constructor None) origin_request
    ([origin_ride] ++ full_ride :: [origin_ride_2]) [] =
  findAvailablePools offline_host (constructor None) origin_request
    ([origin_ride] ++ [origin_ride_2]) [].
Proof.
  split; [exact full_ride_is_full|].
  apply (full_pools_never_offered offline_host None origin_request).
  exact full_ride_is_full.
Defined.

Lemma near_driver_eligible : eligible origin_request near_driver = true.
Proof.
  unfold eligible.
  cbn [near_driver sample_dispatch_driver Driver.status Driver.current_ride Driver.location
       origin_request sample_ride pickup_location].
  unfold origin_point. cbn [point coordinate].
  rewrite calculateDistance_Num, haversine_km_same.
  simpl; decide_reals; reflexivity.
Qed.

Lemma driver_dispatch_witness :
  eligible origin_request near_driver = true /\
  assignOptimalDriver offline_host origin_request [busy_driver; far_driver; near_driver] <> None.
Proof.
  split; [exact near_driver_eligible|].
  intros Hnone.
  apply (driver_dispatch offline_host origin_request [busy_driver; far_driver; near_driver])
    with (driver := near_driver) in Hnone.
  - rewrite near_driver_eligible in Hnone. discriminate.
  - right; right; left; reflexivity.
Defined.

(** A request for the very trip of an existing ride: no detour, score 100. *)
Lemma identical_trips_score_100 :
  exists compatibility,
    calculateRouteCompatibility offline_host (constructor None) equator_request equator_ride []
      = (Normal compatibility, []) /\
    Compatibility.isCompatible compatibility = true /\
    Compatibility.detourDistance compatibility = Some (Num 0) /\
    Compatibility.detourTime compatibility = Some (Num 0) /\
    Compatibility.score compatibility = Num 100.
Proof.
  unfold equator_request, equator_ride.
  rewrite (calculateRouteCompatibility_run offline_host (constructor None) _ _ [] []
             (getRouteDetails_fallback offline_host origin_point antipode_point)).
  2:{ apply getRouteDetails_without_key; reflexivity. }
  rewrite getOptimalPoolRoute_pool, findOptimalWaypointOrder_pool.
  cbn [sample_ride pickup_location destination_location].
  unfold origin_point, antipode_point.
  rewrite !calculateDistance_point, !haversine_km_same.
  assert (H2 : (Num 0 <? Num 2) = true) by (apply lt_Num; lra).
  rewrite H2.
  eexists; split; [reflexivity|].
  unfold compatibility_of, calculateCompatibilityScore.
  cbn [Compatibility.isCompatible Compatibility.score Compatibility.detourDistance
       Compatibility.detourTime constructor
       MAX_DETOUR_DISTANCE_KM MAX_DETOUR_TIME_MINUTES MAX_PICKUP_DISTANCE_KM
       getRouteDetails_fallback RouteDetails.distance RouteDetails.duration
       PooledRoute.distance PooledRoute.duration PooledRoute.pickupDistance].
  rewrite calculateTotalRouteDistance_4.
  cbn [existingPickup newPickup existingDrop newDrop location
       sample_ride pickup_location destination_location].
  rewrite !calculateDistance_point, ?haversine_km_same, ?haversine_km_half_turn.
  pose proof PI_gt_3 as Hpi.
  set (d := (6371 * PI)%R) in *.
  assert (Hd : (d <> 0)%R) by (unfold d; lra).
  change (Num 0 + Num 0 + Num d + Num 0) with (Num (0 + 0 + d + 0)).
  replace (0 + 0 + d + 0)%R with d by lra.
  change (Num d * Num 2) with (Num (d * 2)).
  change (Num ?x - Num ?y) with (Num (x - y)).
  replace (d - d)%R with 0%R by lra.
  replace (d * 2 - d * 2)%R with 0%R by lra.
  rewrite !div_Num by lra.
  cbn [Num.mul Num.sub Num.add Num.neg].
  replace (d / d)%R with 1%R by (field; exact Hd).
  replace (10 + - ((1 + - (1)) * 50))%R with 10%R by lra.
  replace (0 * 100)%R with 0%R by lra.
  rewrite (round_Num 0 0) by lra.
  assert (Hmax : Math.max (Num 0) (Num 10) = Num 10) by (simpl; decide_reals; reflexivity).
  rewrite Hmax.
  rewrite (round_Num _ 110) by lra.
  repeat split.
  - simpl; decide_reals; reflexivity.
  - simpl; decide_reals; do 2 f_equal; lra.
  - simpl; decide_reals; reflexivity.
Qed.

(** A reply as documented is used: metres and seconds become km and
    minutes. *)
Lemma provider_estimate_is_used :
  well_formed_reply sample_reply /\
  exists details request,
    getRouteDetails online_host (constructor (Some "key")) origin_point antipode_point []
      = (Normal details, [AxiosGet request]) /\
    RouteDetails.distance details = Num (12000 / 1000) /\
    RouteDetails.duration details = Num (1800 / 60) /\
    RouteDetails.distanceText details = VString "12 km".
Proof.
  split.
  - unfold well_formed_reply, sample_reply, reply.
    do 9 eexists. repeat split; reflexivity.
  - rewrite getRouteDetails_run.
    rewrite (getRouteDetails_try_with_key _ _ _ _ "key") by (apply key_configured_some; discriminate).
    cbn [online_host axios_get].
    assert (Hread : getRouteDetails_read online_host sample_reply =
                    Normal (Some {| RouteDetails.distance := Num (12000 / 1000);
                                    RouteDetails.duration := Num (1800 / 60);
                                    RouteDetails.distanceText := VString "12 km";
                                    RouteDetails.durationText := VString "30 mins" |})).
    { unfold getRouteDetails_read; simpl; decide_reals; reflexivity. }
    fold online_host. rewrite Hread.
    do 2 eexists. split; [reflexivity|]. repeat split; reflexivity.
Qed.

(** * Further properties *)

(** ** Geometry *)

Lemma Ratan2_quarter (y x : R) :
  (0 <= y)%R -> (0 <= x)%R -> (Math.Ratan2 y x <= PI / 2)%R.
Proof.
  intros Hy Hx; unfold Math.Ratan2; pose proof PI_RGT_0.
  decide_reals.
  - pose proof (atan_bound (y / x)); lra.
Qed.

Lemma haversine_km_upper (lat1 lon1 lat2 lon2 : R) :
  (haversine_km lat1 lon1 lat2 lon2 <= half_circumference)%R.
Proof.
  unfold haversine_km, half_circumference; cbv zeta.
  pose proof (Ratan2_quarter _ _ (sqrt_pos (haversine_a lat1 lon1 lat2 lon2))
                             (sqrt_pos (1 - haversine_a lat1 lon1 lat2 lon2))).
  lra.
Qed.

Lemma finite_coordinate_Num (c : Coordinate) :
  finite_coordinate c = true ->
  exists lat lon, c = {| latitude := Num lat; longitude := Num lon |}.
Proof.
  destruct c as [[| |lat] [| |lon]]; unfold finite_coordinate; simpl; intros H;
    try discriminate.
  exists lat, lon; reflexivity.
Qed.

Lemma calculateDistance_finite (point1 point2 : Coordinate) :
  finite_coordinate point1 = true -> finite_coordinate point2 = true ->
  exists d, calculateDistance point1 point2 = Num d /\ (0 <= d <= half_circumference)%R.
Proof.
  intros H1 H2.
  destruct (finite_coordinate_Num _ H1) as (lat1 & lon1 & ->).
  destruct (finite_coordinate_Num _ H2) as (lat2 & lon2 & ->).
  rewrite calculateDistance_Num. eexists; split; [reflexivity|].
  split; [apply haversine_km_nonneg | apply haversine_km_upper].
Qed.

(** ** Waypoints *)

Lemma calculateTotalRouteDistance_loop_snoc (waypoints : list Waypoint) (a b : Waypoint)
    (total : number) :
  calculateTotalRouteDistance_loop (waypoints ++ [a; b]) total =
  calculateTotalRouteDistance_loop (waypoints ++ [a]) total + leg a b.
Proof.
  revert total. induction waypoints as [|x rest IH]; intros total.
  - reflexivity.
  - destruct rest as [|y rest'].
    + cbn [app calculateTotalRouteDistance_loop]. reflexivity.
    + change ((x :: y :: rest') ++ [a; b]) with (x :: y :: (rest' ++ [a; b])).
      change ((x :: y :: rest') ++ [a]) with (x :: y :: (rest' ++ [a])).
      cbn [calculateTotalRouteDistance_loop].
      apply (IH (total + calculateDistance (location x) (location y))).
Qed.

Lemma find_waypoint_kind (p : Passenger) (t : WaypointType) (waypoints : list Waypoint)
    (w : Waypoint) :
  find_waypoint p t waypoints = Some w ->
  In w waypoints /\ passenger w = p /\ type w = t.
Proof.
  unfold find_waypoint; intros H. apply find_some in H. destruct H as [Hin H].
  apply andb_true_iff in H; destruct H as [Hp Ht].
  repeat split; [exact Hin | |].
  - destruct (passenger w), p; simpl in Hp; congruence.
  - destruct (type w), t; simpl in Ht; congruence.
Qed.

(** X3.  [findOptimalWaypointOrder] on any list of waypoints.  When the list
    lacks one of the four kinds (existing or new passenger, pickup or drop)
    the method throws a TypeError.  Otherwise it returns, leaves the world
    untouched, and an ordering it returns is made of the first waypoint of
    each kind: the existing pickup, then the new pickup, then the two drops
    in one of the two orders. *)
Theorem findOptimalWaypointOrder_any_list (waypoints : list Waypoint) (w : World) :
  match find_waypoint existing pickup waypoints, find_waypoint new pickup waypoints,
        find_waypoint existing drop waypoints, find_waypoint new drop waypoints with
  | Some pickup1, Some pickup2, Some drop1, Some drop2 =>
      exists result,
        findOptimalWaypointOrder waypoints w = (Normal result, w) /\
        (result = None \/
         result = Some [pickup1; pickup2; drop1; drop2] \/
         result = Some [pickup1; pickup2; drop2; drop1]) /\
        passenger pickup1 = existing /\ type pickup1 = pickup /\
        passenger pickup2 = new /\ type pickup2 = pickup /\
        passenger drop1 = existing /\ type drop1 = drop /\
        passenger drop2 = new /\ type drop2 = drop
  | _, _, _, _ => findOptimalWaypointOrder waypoints w = (Throw undefined_read, w)
  end.
Proof.
  unfold findOptimalWaypointOrder. fold (find_waypoint existing pickup waypoints).
  fold (find_waypoint new pickup waypoints). fold (find_waypoint existing drop waypoints).
  fold (find_waypoint new drop waypoints).
  destruct (find_waypoint existing pickup waypoints) as [pickup1|] eqn:E1; [|reflexivity].
  destruct (find_waypoint new pickup waypoints) as [pickup2|] eqn:E2; [|reflexivity].
  destruct (find_waypoint existing drop waypoints) as [drop1|] eqn:E3; [|reflexivity].
  destruct (find_waypoint new drop waypoints) as [drop2|] eqn:E4; [|reflexivity].
  apply find_waypoint_kind in E1, E2, E3, E4.
  unfold bind, deref, ret.
  repeat match goal with |- context [if ?c then _ else _] => destruct c end;
    eexists; (split; [reflexivity|]); intuition.
Qed.

(** ** Route descriptions and combined routes *)

Lemma slice_1_m1_middle {A} (first : A) (middle : list A) (last : A) :
  slice_1_m1 (first :: middle ++ [last]) = middle.
Proof. unfold slice_1_m1; cbn [tl]. apply removelast_last. Qed.

(** X4.  [generateRouteDescription] names the stops between the first and
    the last waypoint, separated by a comma and a space, after "Via "; with
    fewer than three waypoints nothing follows "Via ". *)
Theorem generateRouteDescription_middle_stops :
  (forall first middle last,
     generateRouteDescription (first :: middle ++ [last]) =
     ("Via " ++ join ", " (map stop_name middle))%string) /\
  generateRouteDescription [] = "Via "%string /\
  (forall a, generateRouteDescription [a] = "Via "%string) /\
  (forall a b, generateRouteDescription [a; b] = "Via "%string).
Proof.
  split; [|repeat split].
  intros first middle last. unfold generateRouteDescription.
  rewrite map_cons, map_app. cbn [map].
  rewrite slice_1_m1_middle. reflexivity.
Qed.

(** X5.  A combined route returned by [getOptimalPoolRoute] starts at the
    existing pickup, goes to the new pickup and then to the two drops in
    either order; its distance is the sum of these three legs, its duration
    twice its distance, its pickup time 10, its pickup distance the distance
    between the two pickups, and its description names the new pickup and
    the first drop.  The world is left as it was. *)
Theorem getOptimalPoolRoute_route (newRide existingRide : Ride) (w w' : World)
    (route : PooledRoute.t) :
  getOptimalPoolRoute newRide existingRide w = (Normal (Some route), w') ->
  w' = w /\
  exists firstDrop secondDrop,
    ((firstDrop = existingDrop existingRide /\ secondDrop = newDrop newRide) \/
     (firstDrop = newDrop newRide /\ secondDrop = existingDrop existingRide)) /\
    PooledRoute.waypoints route =
      [existingPickup existingRide; newPickup newRide; firstDrop; secondDrop] /\
    PooledRoute.distance route =
      Num 0 + leg (existingPickup existingRide) (newPickup newRide)
            + leg (newPickup newRide) firstDrop + leg firstDrop secondDrop /\
    PooledRoute.duration route = PooledRoute.distance route * Num 2 /\
    PooledRoute.pickupTime route = Num 10 /\
    PooledRoute.pickupDistance route =
      calculateDistance (pickup_location existingRide) (pickup_location newRide) /\
    PooledRoute.description route =
      ("Via " ++ name (pickup_location newRide) ++ ", " ++ stop_name firstDrop)%string.
Proof.
  rewrite getOptimalPoolRoute_pool, findOptimalWaypointOrder_pool.
  repeat match goal with |- context [if ?c then _ else _] => destruct c end;
    intros H; try discriminate; injection H as <- <-; (split; [reflexivity|]).
  - exists (existingDrop existingRide), (newDrop newRide). repeat split; auto.
  - exists (newDrop newRide), (existingDrop existingRide). repeat split; auto.
  - exists (existingDrop existingRide), (newDrop newRide). repeat split; auto.
Qed.

Lemma getOptimalPoolRoute_route_witness :
  exists route,
    getOptimalPoolRoute origin_request origin_ride [] = (Normal (Some route), []) /\
    PooledRoute.duration route = PooledRoute.distance route * Num 2.
Proof.
  destruct (origin_pair_route "request" "r1" 300 300 []) as (route & Hrun & _).
  exists route. split; [exact Hrun|].
  destruct (getOptimalPoolRoute_route origin_request origin_ride [] [] route Hrun)
    as (_ & firstDrop & secondDrop & _ & _ & _ & Hduration & _).
  exact Hduration.
Defined.

(** ** Compatibility without credentials *)

Lemma count_requests_console (w : World) (message : string) (e : error) :
  count_requests (w ++ [ConsoleError message e]) = count_requests w.
Proof.
  unfold count_requests. rewrite filter_app. cbn [filter]. rewrite app_nil_r. reflexivity.
Qed.

Lemma count_requests_get (w : World) (request : AxiosRequest) :
  count_requests (w ++ [AxiosGet request]) = S (count_requests w).
Proof.
  unfold count_requests. rewrite filter_app. cbn [filter].
  rewrite length_app. cbn [List.length]. lia.
Qed.

Lemma double_detour_within_time_limit (a b : number) :
  (a - b <=? Num 5) = true -> (a * Num 2 - b * Num 2 <=? Num 15) = true.
Proof.
  destruct a as [|s|x], b as [|t|y]; simpl; try discriminate.
  - destruct s, t; simpl; try discriminate; intros _; decide_reals; reflexivity.
  - destruct s; simpl; try discriminate; intros _; decide_reals; reflexivity.
  - destruct t; simpl; try discriminate; intros _; decide_reals; reflexivity.
  - intros H. apply Rle_b_true in H. apply Rle_b_true. lra.
Qed.

(** X6.  Without a configured API key the solo route is the haversine
    estimate, whose duration is twice its distance like the combined route's,
    so the time limit never decides: a pair is compatible exactly when a
    combined route exists whose distance exceeds the solo haversine distance
    by at most 5 km and whose pickups are at most 3 km apart.  No request is
    sent to the provider. *)
Theorem compatibility_without_key (host : Host) (env_key : option string)
    (newRide existingRide : Ride) (w : World) :
  key_configured (constructor env_key) = None ->
  exists compatibility w',
    calculateRouteCompatibility host (constructor env_key) newRide existingRide w
      = (Normal compatibility, w') /\
    count_requests w' = count_requests w /\
    (Compatibility.isCompatible compatibility = true <->
     exists route,
       getOptimalPoolRoute newRide existingRide w = (Normal (Some route), w) /\
       (PooledRoute.distance route -
        calculateDistance (pickup_location existingRide) (destination_location existingRide)
        <=? Num 5) = true /\
       (PooledRoute.pickupDistance route <=? Num 3) = true).
Proof.
  intros Hkey.
  pose proof (getRouteDetails_without_key host (constructor env_key)
                (pickup_location existingRide) (destination_location existingRide) w Hkey)
    as Hdetails.
  rewrite (calculateRouteCompatibility_run _ _ newRide _ _ _ _ Hdetails).
  destruct (getOptimalPoolRoute_pure newRide existingRide w) as (pooled & Hpool).
  rewrite Hpool. destruct pooled as [route|].
  - eexists; eexists; split; [reflexivity|]. split; [reflexivity|].
    assert (Hduration : PooledRoute.duration route = PooledRoute.distance route * Num 2).
    { rewrite getOptimalPoolRoute_pool in Hpool.
      destruct (findOptimalWaypointOrder (pool_waypoints newRide existingRide) w)
        as [[[order|]|e] w1]; inversion Hpool; reflexivity. }
    unfold compatibility_of.
    cbn [Compatibility.isCompatible constructor MAX_DETOUR_DISTANCE_KM MAX_DETOUR_TIME_MINUTES
         MAX_PICKUP_DISTANCE_KM getRouteDetails_fallback RouteDetails.distance
         RouteDetails.duration].
    rewrite Hduration, !andb_true_iff.
    split.
    + intros [[H1 _] H3]. exists route; auto.
    + intros (r & Hr & H1 & H3). injection Hr as <-.
      repeat split; auto. apply double_detour_within_time_limit; exact H1.
  - eexists; eexists; split; [reflexivity|]. split; [apply count_requests_console|].
    cbn [incompatible Compatibility.isCompatible].
    split; [discriminate|]. intros (r & Hr & _); discriminate.
Qed.

Lemma compatibility_without_key_witness :
  key_configured (constructor None) = None /\
  exists compatibility w',
    calculateRouteCompatibility offline_host (constructor None) origin_request origin_ride []
      = (Normal compatibility, w') /\
    count_requests w' = count_requests [].
Proof.
  split; [reflexivity|].
  destruct (compatibility_without_key offline_host None origin_request origin_ride []
              eq_refl) as (compatibility & w' & Hrun & Hcount & _).
  exists compatibility, w'. split; assumption.
Defined.

(** ** The score *)

Lemma clamp_NaN : Math.max (Num 0) (Math.min (Num 100) (Math.round NaN)) = NaN.
Proof. reflexivity. Qed.

Lemma calculateCompatibilityScore_shape (this : MatchingService)
    (detourDistance detourTime pickupDistance : number)
    (originalRoute : RouteDetails.t) (pooledRoute : PooledRoute.t) :
  calculateCompatibilityScore this detourDistance detourTime pickupDistance
    originalRoute pooledRoute = NaN \/
  exists z : Z,
    calculateCompatibilityScore this detourDistance detourTime pickupDistance
      originalRoute pooledRoute = Num (IZR z) /\ (0 <= z <= 100)%Z.
Proof.
  unfold calculateCompatibilityScore.
  match goal with |- context [Math.round ?s] => generalize s end.
  intros raw. destruct (isNaN raw) eqn:Hnan.
  - left. destruct raw; try discriminate. reflexivity.
  - right. apply clamp_number; exact Hnan.
Qed.

(** X7.  Whatever its arguments, [calculateCompatibilityScore] returns NaN
    or an integer from 0 to 100: never a fraction, an infinity or a number
    outside the range. *)
Theorem calculateCompatibilityScore_range (this : MatchingService)
    (detourDistance detourTime pickupDistance : number)
    (originalRoute : RouteDetails.t) (pooledRoute : PooledRoute.t) :
  let score :=
    calculateCompatibilityScore this detourDistance detourTime pickupDistance
      originalRoute pooledRoute in
  score = NaN \/ exists z : Z, score = Num (IZR z) /\ (0 <= z <= 100)%Z.
Proof.
  cbv zeta. apply calculateCompatibilityScore_shape.
Qed.

Lemma calculateDistance_NaN_or_Num (p q : Coordinate) :
  calculateDistance p q = NaN \/ exists d, calculateDistance p q = Num d.
Proof.
  destruct (finite_coordinate p) eqn:Hp; [|left; apply calculateDistance_not_finite; auto].
  destruct (finite_coordinate q) eqn:Hq; [|left; apply calculateDistance_not_finite; auto].
  right. destruct (calculateDistance_finite p q Hp Hq) as (d & E & _). eauto.
Qed.

Lemma calculateTotalRouteDistance_loop_NaN_or_Num (waypoints : list Waypoint) (total : number) :
  (total = NaN \/ exists t, total = Num t) ->
  calculateTotalRouteDistance_loop waypoints total = NaN \/
  exists t, calculateTotalRouteDistance_loop waypoints total = Num t.
Proof.
  revert total. induction waypoints as [|x rest IH]; intros total Htotal; [exact Htotal|].
  destruct rest as [|y rest']; [exact Htotal|].
  cbn [calculateTotalRouteDistance_loop]. apply IH.
  destruct Htotal as [->|(t & ->)]; [left; reflexivity|].
  destruct (calculateDistance_NaN_or_Num (location x) (location y)) as [->|(d & ->)];
    [left; reflexivity | right; eexists; reflexivity].
Qed.

(** X8.  The score of a compatible pair is an integer from 0 to 100, except
    that it is NaN when, and only when, the solo route and the combined route
    both have length 0. *)
Theorem compatible_pair_score (host : Host) (env_key : option string)
    (newRide existingRide : Ride) (w w' : World) (compatibility : Compatibility.t) :
  calculateRouteCompatibility host (constructor env_key) newRide existingRide w
    = (Normal compatibility, w') ->
  Compatibility.isCompatible compatibility = true ->
  exists originalRoute route,
    getRouteDetails host (constructor env_key) (pickup_location existingRide)
      (destination_location existingRide) w = (Normal originalRoute, w') /\
    getOptimalPoolRoute newRide existingRide w' = (Normal (Some route), w') /\
    ((PooledRoute.distance route = Num 0 /\ RouteDetails.distance originalRoute = Num 0 /\
      Compatibility.score compatibility = NaN) \/
     (~ (PooledRoute.distance route = Num 0 /\ RouteDetails.distance originalRoute = Num 0) /\
      exists z : Z, Compatibility.score compatibility = Num (IZR z) /\ (0 <= z <= 100)%Z)).
Proof.
  destruct (getRouteDetails_returns host (constructor env_key) (pickup_location existingRide)
              (destination_location existingRide) w) as (originalRoute & w1 & Hdetails).
  rewrite (calculateRouteCompatibility_run _ _ newRide _ _ _ _ Hdetails).
  destruct (getOptimalPoolRoute_pure newRide existingRide w1) as (pooled & Hpool).
  rewrite Hpool. destruct pooled as [route|].
  2:{ intros H; injection H as <- _. discriminate. }
  intros H; injection H as <- <-. intros Hyes.
  exists originalRoute, route. split; [exact Hdetails|]. split; [exact Hpool|].
  unfold compatibility_of in Hyes |- *.
  cbn [Compatibility.isCompatible Compatibility.score constructor MAX_DETOUR_DISTANCE_KM
       MAX_DETOUR_TIME_MINUTES MAX_PICKUP_DISTANCE_KM] in Hyes |- *.
  rewrite !andb_true_iff in Hyes. destruct Hyes as [[H1 H2] H3].
  assert (Hdistance : exists p, PooledRoute.distance route = Num p).
  { assert (Hshape : PooledRoute.distance route = NaN \/
                     exists p, PooledRoute.distance route = Num p).
    { rewrite getOptimalPoolRoute_pool in Hpool.
      destruct (findOptimalWaypointOrder (pool_waypoints newRide existingRide) w1)
        as [[[order|]|e] w2]; inversion Hpool.
      cbn [PooledRoute.distance].
      apply calculateTotalRouteDistance_loop_NaN_or_Num. right; eexists; reflexivity. }
    destruct Hshape as [Hnan|Hnum]; [|exact Hnum].
    rewrite Hnan in H1. discriminate. }
  destruct Hdistance as (p & Hp).
  destruct (compatible_score_range env_key originalRoute route p Hp H1 H2 H3)
    as [(Hp0 & Ho & Hscore)|(Hnot & Hrange)].
  - left. subst p. auto.
  - right. split; [|exact Hrange].
    intros [Hd Ho]. apply Hnot. rewrite Hp in Hd. injection Hd as ->. auto.
Qed.

Lemma compatible_pair_score_witness :
  exists compatibility,
    calculateRouteCompatibility offline_host (constructor None) origin_request origin_ride []
      = (Normal compatibility, []) /\
    Compatibility.isCompatible compatibility = true /\
    exists originalRoute,
      getRouteDetails offline_host (constructor None) (pickup_location origin_ride)
        (destination_location origin_ride) [] = (Normal originalRoute, []).
Proof.
  destruct (origin_pair_compatibility "request" "r1" 300 300 [])
    as (compatibility & Hrun & Hyes & _).
  exists compatibility. split; [exact Hrun|]. split; [exact Hyes|].
  destruct (compatible_pair_score offline_host None origin_request origin_ride [] []
              compatibility Hrun Hyes) as (originalRoute & route & Hdetails & _).
  exists originalRoute. exact Hdetails.
Defined.

(** ** The loop of [findAvailablePools] *)

Lemma findAvailablePools_loop_step (host : Host) (this : MatchingService)
    (rideRequest existingRide : Ride) (rest : list Ride) (pools : list PoolCandidate.t)
    (w : World) :
  findAvailablePools_loop host this rideRequest (existingRide :: rest) pools w =
  if filtered_out this rideRequest existingRide
  then findAvailablePools_loop host this rideRequest rest pools w
  else
    match calculateRouteCompatibility host this rideRequest existingRide w with
    | (Normal compatibility, w1) =>
        if Compatibility.isCompatible compatibility
        then
          match driver existingRide with
          | Some ride_driver =>
              findAvailablePools_loop host this rideRequest rest
                (pools ++ [candidate_of rideRequest existingRide ride_driver compatibility]) w1
          | None => (Throw null_read, w1)
          end
        else findAvailablePools_loop host this rideRequest rest pools w1
    | (Throw e, w1) => (Throw e, w1)
    end.
Proof.
  cbn [findAvailablePools_loop]. unfold filtered_out.
  destruct (closed_or_full this existingRide); [reflexivity|].
  destruct (female_only existingRide && not_female (user_gender rideRequest)); [reflexivity|].
  destruct (female_only rideRequest && not_female (user_gender existingRide)); [reflexivity|].
  cbn [orb]. unfold bind.
  destruct (calculateRouteCompatibility host this rideRequest existingRide w) as [[c|e] w1];
    [|reflexivity].
  destruct (Compatibility.isCompatible c); [|reflexivity].
  destruct (driver existingRide); reflexivity.
Qed.

Lemma findAvailablePools_loop_invariant (host : Host) (this : MatchingService)
    (rideRequest : Ride) (P : PoolCandidate.t -> Prop) (existingRides : list Ride) :
  (forall ride compatibility ride_driver w0 w1,
     In ride existingRides ->
     filtered_out this rideRequest ride = false ->
     calculateRouteCompatibility host this rideRequest ride w0 = (Normal compatibility, w1) ->
     Compatibility.isCompatible compatibility = true ->
     driver ride = Some ride_driver ->
     P (candidate_of rideRequest ride ride_driver compatibility)) ->
  forall pools out w w',
    Forall P pools ->
    findAvailablePools_loop host this rideRequest existingRides pools w = (Normal out, w') ->
    Forall P out.
Proof.
  induction existingRides as [|ride rest IH]; intros Hstep pools out w w' Hpools.
  - cbn [findAvailablePools_loop]. unfold ret. intros H; injection H as <- _. exact Hpools.
  - assert (Hrest : forall r c d w0 w1,
               In r rest -> filtered_out this rideRequest r = false ->
               calculateRouteCompatibility host this rideRequest r w0 = (Normal c, w1) ->
               Compatibility.isCompatible c = true -> driver r = Some d ->
               P (candidate_of rideRequest r d c)).
    { intros r c d w0 w1 Hin. apply Hstep. right; exact Hin. }
    rewrite findAvailablePools_loop_step.
    destruct (filtered_out this rideRequest ride) eqn:Hfilter; [apply IH; assumption|].
    destruct (calculateRouteCompatibility host this rideRequest ride w) as [[c|e] w1] eqn:Hrun;
      [|discriminate].
    destruct (Compatibility.isCompatible c) eqn:Hyes; [|apply IH; assumption].
    destruct (driver ride) as [d|] eqn:Hd; [|discriminate].
    apply IH; [assumption|].
    apply Forall_app; split; [assumption|].
    constructor; [|constructor].
    apply (Hstep ride c d w w1); auto. left; reflexivity.
Qed.

Lemma findAvailablePools_invariant (host : Host) (this : MatchingService)
    (rideRequest : Ride) (P : PoolCandidate.t -> Prop) (existingRides : list Ride)
    (w w' : World) (out : list PoolCandidate.t) :
  (forall ride compatibility ride_driver w0 w1,
     In ride existingRides ->
     filtered_out this rideRequest ride = false ->
     calculateRouteCompatibility host this rideRequest ride w0 = (Normal compatibility, w1) ->
     Compatibility.isCompatible compatibility = true ->
     driver ride = Some ride_driver ->
     P (candidate_of rideRequest ride ride_driver compatibility)) ->
  findAvailablePools host this rideRequest existingRides w = (Normal out, w') ->
  Forall P out.
Proof.
  intros Hstep. unfold findAvailablePools, bind.
  destruct (findAvailablePools_loop host this rideRequest existingRides [] w)
    as [[pools|e] w1] eqn:Hloop; [|discriminate].
  unfold ret; intros H; injection H as <- _.
  eapply Permutation_Forall; [apply Permutation_sym, Array_sort_perm|].
  eapply findAvailablePools_loop_invariant; [exact Hstep | constructor | exact Hloop].
Qed.

(** A run on one zero-length ride, for the statements that need a run. *)
Lemma origin_run :
  exists candidate,
    findAvailablePools offline_host (constructor None) origin_request [origin_ride] []
    = (Normal [candidate], []).
Proof.
  unfold findAvailablePools, bind, origin_request, origin_ride.
  destruct (findAvailablePools_loop_origin "request" "r1" 300 300 [] [] [])
    as (candidate & Hrun & _).
  rewrite Hrun. cbn [findAvailablePools_loop ret app].
  exists candidate. reflexivity.
Qed.

(** ** Rounding and order *)

Lemma Int_part_le (x y : R) : (x <= y)%R -> (Int_part x <= Int_part y)%Z.
Proof.
  intros Hxy.
  destruct (base_Int_part x) as [Hx _]. destruct (base_Int_part y) as [_ Hy].
  assert (H : (IZR (Int_part x) < IZR (Int_part y + 1))%R) by (rewrite plus_IZR; lra).
  apply lt_IZR in H. lia.
Qed.

Lemma round_le (x y : R) :
  (x <= y)%R -> (IZR (Int_part (x + / 2)) <= IZR (Int_part (y + / 2)))%R.
Proof. intros H. apply IZR_le, Int_part_le. lra. Qed.

Lemma round_le_integer (x : R) (z : Z) :
  (x <= IZR z)%R -> (IZR (Int_part (x + / 2)) <= IZR z)%R.
Proof.
  intros H. destruct (base_Int_part (x + / 2)) as [Hlo _].
  assert (Hlt : (IZR (Int_part (x + / 2)) < IZR (z + 1))%R) by (rewrite plus_IZR; lra).
  apply lt_IZR in Hlt. apply IZR_le. lia.
Qed.

Lemma shown_detour_within_limit (detourDistance : number) :
  (detourDistance <=? Num 5) = true ->
  (Math.round (detourDistance * Num 100) / Num 100 <=? Num 5) = true.
Proof.
  destruct detourDistance as [|s|x]; simpl; try discriminate.
  - destruct s; simpl; try discriminate. intros _.
    repeat (progress (decide_reals; simpl)); reflexivity.
  - intros H. apply Rle_b_true in H.
    assert (Hr : (IZR (Int_part (x * 100 + / 2)) <= 500)%R)
      by (apply (round_le_integer (x * 100) 500); lra).
    decide_reals; simpl; apply Rle_b_true; lra.
Qed.

Lemma shown_time_within_limit (detourTime : number) :
  (detourTime <=? Num 15) = true -> (Math.round detourTime <=? Num 15) = true.
Proof.
  destruct detourTime as [|s|x]; simpl; try discriminate; auto.
  intros H. apply Rle_b_true in H. apply Rle_b_true.
  apply (round_le_integer x 15). exact H.
Qed.

Lemma fare_floor (newRide existingRide : Ride) (compatibility : Compatibility.t) :
  isFinite (estimated_fare newRide) = true ->
  (number_of (Compatibility.detourDistance compatibility) <=? Num 5) = true ->
  (estimated_fare newRide * Num 0.6 <=?
   calculateFareShare newRide existingRide compatibility) = true.
Proof.
  unfold calculateFareShare.
  destruct (estimated_fare newRide) as [|s|b]; try discriminate. intros _.
  destruct (number_of (Compatibility.detourDistance compatibility)) as [|t|x];
    try discriminate.
  - destruct t; simpl; try discriminate. intros _.
    repeat (progress (decide_reals; simpl)); try reflexivity; apply Rle_b_true; lra.
  - intros _. simpl.
    generalize (IZR (Int_part (b * (1 + - 0.25) + x * 10 + / 2))). intros z.
    repeat (progress (decide_reals; simpl)); apply Rle_b_true; lra.
Qed.

(** ** The candidates that are returned *)

Lemma compatible_result (host : Host) (this : MatchingService) (newRide existingRide : Ride)
    (w w' : World) (compatibility : Compatibility.t) :
  calculateRouteCompatibility host this newRide existingRide w = (Normal compatibility, w') ->
  Compatibility.isCompatible compatibility = true ->
  exists originalRoute route,
    getRouteDetails host this (pickup_location existingRide)
      (destination_location existingRide) w = (Normal originalRoute, w') /\
    getOptimalPoolRoute newRide existingRide w' = (Normal (Some route), w') /\
    compatibility = compatibility_of host this newRide existingRide originalRoute route.
Proof.
  destruct (getRouteDetails_returns host this (pickup_location existingRide)
              (destination_location existingRide) w) as (originalRoute & w1 & Hdetails).
  rewrite (calculateRouteCompatibility_run _ _ newRide _ _ _ _ Hdetails).
  destruct (getOptimalPoolRoute_pure newRide existingRide w1) as (pooled & Hpool).
  rewrite Hpool. destruct pooled as [route|].
  2:{ intros H; injection H as <- _. discriminate. }
  intros H; injection H as <- <-. intros _.
  exists originalRoute, route. auto.
Qed.

Lemma pooled_pickupTime (newRide existingRide : Ride) (w w' : World) (route : PooledRoute.t) :
  getOptimalPoolRoute newRide existingRide w = (Normal (Some route), w') ->
  PooledRoute.pickupTime route = Num 10.
Proof.
  rewrite getOptimalPoolRoute_pool.
  destruct (findOptimalWaypointOrder (pool_waypoints newRide existingRide) w)
    as [[[order|]|e] w2]; intros H; inversion H. reflexivity.
Qed.

Lemma candidate_within_limits (host : Host) (env_key : option string)
    (rideRequest ride : Ride) (ride_driver : DriverSummary.t)
    (compatibility : Compatibility.t) (w0 w1 : World) :
  calculateRouteCompatibility host (constructor env_key) rideRequest ride w0
    = (Normal compatibility, w1) ->
  Compatibility.isCompatible compatibility = true ->
  within_limits host rideRequest (candidate_of rideRequest ride ride_driver compatibility).
Proof.
  intros Hrun Hyes.
  destruct (compatible_result _ _ _ _ _ _ _ Hrun Hyes)
    as (originalRoute & route & _ & Hpool & ->).
  unfold compatibility_of in Hyes.
  cbn [Compatibility.isCompatible constructor MAX_DETOUR_DISTANCE_KM
       MAX_DETOUR_TIME_MINUTES MAX_PICKUP_DISTANCE_KM] in Hyes.
  rewrite !andb_true_iff in Hyes. destruct Hyes as [[H1 H2] H3].
  assert (Hshown : (number_of (Compatibility.detourDistance
                      (compatibility_of host (constructor env_key) rideRequest ride
                         originalRoute route)) <=? Num 5) = true).
  { cbn [compatibility_of Compatibility.detourDistance number_of].
    apply shown_detour_within_limit; exact H1. }
  unfold within_limits.
  cbn [candidate_of PoolCandidate.detourDistance PoolCandidate.detourTime
       PoolCandidate.compatibilityScore PoolCandidate.estimatedPickupTime
       PoolCandidate.fareShare].
  split; [exact Hshown|].
  split; [cbn [compatibility_of Compatibility.detourTime number_of];
          apply shown_time_within_limit; exact H2|].
  split; [apply calculateCompatibilityScore_shape|].
  split.
  - cbn [compatibility_of Compatibility.pickupTime].
    rewrite (pooled_pickupTime _ _ _ _ _ Hpool).
    rewrite (round_Num 10 10) by lra. reflexivity.
  - intros Hfinite. apply fare_floor; assumption.
Qed.

(** X9.  Every candidate that [findAvailablePools] returns shows a detour
    of at most 5 km and at most 15 minutes (the rounded values), a score
    that is NaN or an integer from 0 to 100, the pickup time text of the
    constant 10 followed by " mins", and, when the request's fare is
    finite, a fare share of at least 60% of it. *)
Theorem returned_candidates_within_limits (host : Host) (env_key : option string)
    (rideRequest : Ride) (existingRides : list Ride) (w w' : World)
    (out : list PoolCandidate.t) :
  findAvailablePools host (constructor env_key) rideRequest existingRides w
    = (Normal out, w') ->
  Forall (within_limits host rideRequest) out.
Proof.
  apply findAvailablePools_invariant.
  intros ride compatibility ride_driver w0 w1 _ _ Hrun Hyes _.
  eapply candidate_within_limits; eassumption.
Qed.

Lemma returned_candidates_within_limits_witness :
  exists candidate,
    findAvailablePools offline_host (constructor None) origin_request [origin_ride] []
      = (Normal [candidate], []) /\
    within_limits offline_host origin_request candidate.
Proof.
  destruct origin_run as (candidate & Hrun).
  exists candidate. split; [exact Hrun|].
  pose proof (returned_candidates_within_limits offline_host None origin_request
                [origin_ride] [] [] [candidate] Hrun) as Hall.
  inversion Hall; assumption.
Defined.

(** ** The tests at the head of the loop *)

Lemma not_female_false (gender : option string) :
  not_female gender = false -> is_female gender.
Proof.
  unfold not_female, is_female. destruct gender as [g|]; [|discriminate].
  intros H. apply negb_false_iff, String.eqb_eq in H. subst g. reflexivity.
Qed.

Lemma filtered_out_false (this : MatchingService) (rideRequest ride : Ride) :
  filtered_out this rideRequest ride = false ->
  allow_pooling ride = true /\
  (female_only ride = true -> is_female (user_gender rideRequest)) /\
  (female_only rideRequest = true -> is_female (user_gender ride)).
Proof.
  unfold filtered_out, closed_or_full. rewrite !orb_false_iff.
  intros [[[Hopen _] Hride] Hrequest].
  split; [apply negb_false_iff; exact Hopen|].
  split; intros Hflag.
  - rewrite Hflag in Hride. apply not_female_false; exact Hride.
  - rewrite Hflag in Hrequest. apply not_female_false; exact Hrequest.
Qed.

(** X10.  Every candidate that [findAvailablePools] returns carries the
    identity of one of the rides passed in and the details of that ride's
    driver; that ride allows pooling, and whenever the ride or the request
    is female-only the other side's recorded gender is 'female'. *)
Theorem returned_candidates_pass_filters (host : Host) (this : MatchingService)
    (rideRequest : Ride) (existingRides : list Ride) (w w' : World)
    (out : list PoolCandidate.t) :
  findAvailablePools host this rideRequest existingRides w = (Normal out, w') ->
  Forall (offered_from rideRequest existingRides) out.
Proof.
  apply findAvailablePools_invariant.
  intros ride compatibility ride_driver w0 w1 Hin Hfilter _ _ Hdriver.
  exists ride, ride_driver.
  destruct (filtered_out_false _ _ _ Hfilter) as (Hopen & Hride & Hrequest).
  unfold built_from. cbn [candidate_of PoolCandidate.poolId PoolCandidate.currentPickup
    PoolCandidate.currentDestination PoolCandidate.currentPassenger PoolCandidate.driverId
    PoolCandidate.driverName PoolCandidate.driverRating PoolCandidate.vehicle].
  repeat split; auto.
Qed.

Lemma returned_candidates_pass_filters_witness :
  exists candidate,
    findAvailablePools offline_host (constructor None) origin_request [origin_ride] []
      = (Normal [candidate], []) /\
    offered_from origin_request [origin_ride] candidate.
Proof.
  destruct origin_run as (candidate & Hrun).
  exists candidate. split; [exact Hrun|].
  pose proof (returned_candidates_pass_filters offline_host (constructor None) origin_request
                [origin_ride] [] [] [candidate] Hrun) as Hall.
  inversion Hall; assumption.
Defined.

(** X11.  A ride that fails one of the three tests at the head of the loop
    (closed to pooling or full, female-only against a request whose gender
    is not 'female', or a female-only request against a ride whose user's
    gender is not 'female') leaves no mark on a run: the candidates, the
    requests to the provider and the console are those of the run without
    it. *)
Theorem filtered_ride_is_skipped (host : Host) (this : MatchingService)
    (rideRequest ride : Ride) (before after : list Ride) (w : World) :
  filtered_out this rideRequest ride = true ->
  findAvailablePools host this rideRequest (before ++ ride :: after) w =
  findAvailablePools host this rideRequest (before ++ after) w.
Proof.
  intros Hfilter. unfold findAvailablePools, bind.
  rewrite !findAvailablePools_loop_app.
  destruct (findAvailablePools_loop host this rideRequest before [] w) as [[pools|e] w1];
    [|reflexivity].
  rewrite findAvailablePools_loop_step, Hfilter. reflexivity.
Qed.

Lemma filtered_ride_is_skipped_witness :
  filtered_out (constructor None) request_without_gender women_only_ride = true /\
  findAvailablePools offline_host (constructor None) request_without_gender
    ([] ++ women_only_ride :: []) [] = (Normal [], []).
Proof.
  assert (Hfilter : filtered_out (constructor None) request_without_gender women_only_ride
                    = true) by reflexivity.
  split; [exact Hfilter|].
  rewrite (filtered_ride_is_skipped offline_host (constructor None) request_without_gender
             women_only_ride [] [] [] Hfilter).
  reflexivity.
Defined.

(** ** The requests of a run *)

Lemma requests_of_get (w : World) (request : AxiosRequest) :
  requests_of (w ++ [AxiosGet request]) = requests_of w ++ [request].
Proof. unfold requests_of. rewrite flat_map_app. reflexivity. Qed.

Lemma requests_of_console (w : World) (message : string) (e : error) :
  requests_of (w ++ [ConsoleError message e]) = requests_of w.
Proof. unfold requests_of. rewrite flat_map_app. cbn [flat_map app]. apply app_nil_r. Qed.

Lemma getRouteDetails_requests (host : Host) (this : MatchingService) (ride : Ride)
    (w w' : World) (details : RouteDetails.t) :
  getRouteDetails host this (pickup_location ride) (destination_location ride) w
    = (Normal details, w') ->
  requests_of w' = requests_of w ++ estimate_requests host this ride.
Proof.
  unfold estimate_requests.
  destruct (key_configured this) as [key|] eqn:Hkey.
  - rewrite getRouteDetails_run, (getRouteDetails_try_with_key _ _ _ _ key w Hkey).
    destruct (axios_get host (count_requests w) _) as [response|e].
    + destruct (getRouteDetails_read host response) as [[found|]|e];
        intros H; injection H as _ <-;
        rewrite ?requests_of_console, requests_of_get; reflexivity.
    + intros H; injection H as _ <-.
      rewrite requests_of_console, requests_of_get. reflexivity.
  - rewrite (getRouteDetails_without_key _ _ _ _ w Hkey).
    intros H; injection H as _ <-. symmetry; apply app_nil_r.
Qed.

Lemma calculateRouteCompatibility_requests (host : Host) (this : MatchingService)
    (newRide existingRide : Ride) (w w' : World) (result : completion Compatibility.t) :
  calculateRouteCompatibility host this newRide existingRide w = (result, w') ->
  requests_of w' = requests_of w ++ estimate_requests host this existingRide.
Proof.
  destruct (getRouteDetails_returns host this (pickup_location existingRide)
              (destination_location existingRide) w) as (originalRoute & w1 & Hdetails).
  rewrite (calculateRouteCompatibility_run _ _ newRide _ _ _ _ Hdetails).
  apply getRouteDetails_requests in Hdetails.
  destruct (getOptimalPoolRoute_pure newRide existingRide w1) as (pooled & ->).
  destruct pooled as [route|]; intros H; injection H as _ <-;
    rewrite ?requests_of_console; exact Hdetails.
Qed.

Lemma findAvailablePools_loop_requests (host : Host) (this : MatchingService)
    (rideRequest : Ride) (existingRides : list Ride) :
  forall (pools out : list PoolCandidate.t) (w w' : World),
    findAvailablePools_loop host this rideRequest existingRides pools w = (Normal out, w') ->
    requests_of w' =
    requests_of w ++
    flat_map (estimate_requests host this) (evaluated_rides this rideRequest existingRides).
Proof.
  induction existingRides as [|ride rest IH]; intros pools out w w'.
  - cbn [findAvailablePools_loop evaluated_rides filter flat_map]. unfold ret.
    intros H; injection H as _ <-. symmetry; apply app_nil_r.
  - rewrite findAvailablePools_loop_step. cbn [evaluated_rides filter].
    destruct (filtered_out this rideRequest ride) eqn:Hfilter; cbn [negb].
    + apply IH.
    + cbn [flat_map]. rewrite app_assoc.
      destruct (calculateRouteCompatibility host this rideRequest ride w)
        as [[c|e] w1] eqn:Hrun; [|discriminate].
      apply calculateRouteCompatibility_requests in Hrun. rewrite <- Hrun.
      destruct (Compatibility.isCompatible c); [|apply IH].
      destruct (driver ride); [apply IH | discriminate].
Qed.

(** X12.  The requests that a returning run of [findAvailablePools] sends
    to the directions provider are, in input order, one per ride that passes
    the three tests at the head of the loop, each for that ride's own trip
    from its pickup to its destination; without a configured key there are
    none.  No request is made for the requester's trip or for the combined
    route. *)
Theorem findAvailablePools_requests (host : Host) (this : MatchingService)
    (rideRequest : Ride) (existingRides : list Ride) (w w' : World)
    (out : list PoolCandidate.t) :
  findAvailablePools host this rideRequest existingRides w = (Normal out, w') ->
  requests_of w' =
  requests_of w ++
  flat_map (estimate_requests host this) (evaluated_rides this rideRequest existingRides).
Proof.
  unfold findAvailablePools, bind.
  destruct (findAvailablePools_loop host this rideRequest existingRides [] w)
    as [[pools|e] w1] eqn:Hloop; [|discriminate].
  unfold ret; intros H; injection H as _ <-.
  eapply findAvailablePools_loop_requests; exact Hloop.
Qed.

Lemma findAvailablePools_returns (host : Host) (this : MatchingService)
    (rideRequest : Ride) (existingRides : list Ride) (w : World) :
  Forall has_driver existingRides ->
  exists out w', findAvailablePools host this rideRequest existingRides w = (Normal out, w').
Proof.
  intros Hdrivers. unfold findAvailablePools, bind.
  destruct (findAvailablePools_loop_returns host this rideRequest existingRides [] w Hdrivers)
    as (pools & w' & ->).
  unfold ret; eauto.
Qed.

Lemma sample_ride_passes (this_key : option string) (id1 id2 : string)
    (from1 to1 from2 to2 : NamedPoint) (fare1 fare2 : R) :
  filtered_out (constructor this_key) (sample_ride id1 from1 to1 fare1)
    (sample_ride id2 from2 to2 fare2) = false.
Proof. unfold filtered_out, closed_or_full; simpl; decide_reals; reflexivity. Qed.

Lemma findAvailablePools_requests_witness :
  exists out w',
    findAvailablePools online_host (constructor (Some "key")) equator_request [equator_ride] []
      = (Normal out, w') /\
    requests_of w' = [directions_request online_host origin_point antipode_point "key"].
Proof.
  destruct (findAvailablePools_returns online_host (constructor (Some "key")) equator_request
              [equator_ride] []) as (out & w' & Hrun).
  { constructor; [discriminate | constructor]. }
  exists out, w'. split; [exact Hrun|].
  rewrite (findAvailablePools_requests _ _ _ _ _ _ _ Hrun).
  unfold evaluated_rides, equator_request, equator_ride. cbn [filter].
  rewrite sample_ride_passes. cbn [negb flat_map requests_of app].
  unfold estimate_requests.
  rewrite (key_configured_some "key") by discriminate.
  reflexivity.
Defined.

(** ** Fares *)

(** X13.  For a finite base fare the fare share grows with the detour: a
    candidate with the larger detour distance is never quoted the smaller
    fare, whatever the two existing rides are. *)
Theorem calculateFareShare_monotone (newRide existingRide1 existingRide2 : Ride)
    (compatibility1 compatibility2 : Compatibility.t) :
  isFinite (estimated_fare newRide) = true ->
  (number_of (Compatibility.detourDistance compatibility1) <=?
   number_of (Compatibility.detourDistance compatibility2)) = true ->
  (calculateFareShare newRide existingRide1 compatibility1 <=?
   calculateFareShare newRide existingRide2 compatibility2) = true.
Proof.
  unfold calculateFareShare.
  destruct (estimated_fare newRide) as [|s|b]; try discriminate. intros _.
  destruct (number_of (Compatibility.detourDistance compatibility1)) as [|s1|x];
    destruct (number_of (Compatibility.detourDistance compatibility2)) as [|s2|y];
    try discriminate.
  - destruct s1, s2; simpl; try discriminate; intros _;
      repeat (progress (decide_reals; simpl)); try reflexivity; apply Rle_b_true; lra.
  - destruct s1; simpl; try discriminate; intros _.
    generalize (IZR (Int_part (b * (1 + - 0.25) + y * 10 + / 2))). intros z.
    repeat (progress (decide_reals; simpl)); try reflexivity; apply Rle_b_true; lra.
  - destruct s2; simpl; try discriminate; intros _.
    generalize (IZR (Int_part (b * (1 + - 0.25) + x * 10 + / 2))). intros z.
    repeat (progress (decide_reals; simpl)); try reflexivity; apply Rle_b_true; lra.
  - simpl. intros H. apply Rle_b_true in H.
    match goal with
    | |- context [Int_part (?base + x * 10 + / 2)] =>
        pose proof (round_le (base + x * 10) (base + y * 10) ltac:(lra)) as Hr
    end.
    match type of Hr with
    | (?zx <= ?zy)%R => revert Hr; generalize zx, zy
    end.
    intros zx zy Hr.
    repeat (progress (decide_reals; simpl)); apply Rle_b_true; lra.
Qed.

Lemma calculateFareShare_monotone_witness :
  isFinite (estimated_fare origin_request) = true /\
  (calculateFareShare origin_request origin_ride (compatibility_with_detour (Num 0)) <=?
   calculateFareShare origin_request origin_ride_2 (compatibility_with_detour (Num 5))) = true.
Proof.
  split; [reflexivity|].
  apply (calculateFareShare_monotone origin_request origin_ride origin_ride_2
           (compatibility_with_detour (Num 0)) (compatibility_with_detour (Num 5)));
    [reflexivity | apply le_Num; lra].
Defined.

(** X14.  [calculateSavings] does not depend on the order of the two fares;
    for two finite fares it is a quarter of their average, rounded; when a
    fare is NaN or infinite it is NaN. *)
Theorem calculateSavings_quarter_of_average (newRideFare existingRideFare : number) :
  calculateSavings newRideFare existingRideFare =
    calculateSavings existingRideFare newRideFare /\
  match newRideFare, existingRideFare with
  | Num a, Num b =>
      calculateSavings newRideFare existingRideFare = Math.round (Num ((a + b) / 8))
  | _, _ => calculateSavings newRideFare existingRideFare = NaN
  end.
Proof.
  unfold calculateSavings.
  destruct newRideFare as [|s|a], existingRideFare as [|t|b]; simpl;
    try (split; reflexivity).
  - destruct s, t; simpl; repeat (progress (decide_reals; simpl)); split; reflexivity.
  - destruct s; simpl; repeat (progress (decide_reals; simpl)); split; reflexivity.
  - destruct t; simpl; repeat (progress (decide_reals; simpl)); split; reflexivity.
  - repeat (progress (decide_reals; simpl)); split; do 3 f_equal; lra.
Qed.

(** ** Driver dispatch *)

Lemma calculateDistance_Num_nonneg (p q : Coordinate) (d : R) :
  calculateDistance p q = Num d -> (0 <= d)%R.
Proof.
  intros Hd.
  destruct (finite_coordinate p) eqn:Hp;
    [|rewrite calculateDistance_not_finite in Hd by auto; discriminate].
  destruct (finite_coordinate q) eqn:Hq;
    [|rewrite calculateDistance_not_finite in Hd by auto; discriminate].
  destruct (calculateDistance_finite p q Hp Hq) as (d' & E & Hrange & _).
  rewrite E in Hd. injection Hd as <-. exact Hrange.
Qed.

Lemma leg_NaN_or_nonneg (a b : Waypoint) :
  leg a b = NaN \/ exists d, leg a b = Num d /\ (0 <= d)%R.
Proof.
  unfold leg.
  destruct (calculateDistance_NaN_or_Num (location a) (location b)) as [E|(d & E)];
    [left; exact E|].
  right. exists d. split; [exact E|]. eapply calculateDistance_Num_nonneg; exact E.
Qed.

Lemma calculateTotalRouteDistance_loop_NaN_or_nonneg (waypoints : list Waypoint)
    (total : number) :
  (total = NaN \/ exists t, total = Num t /\ (0 <= t)%R) ->
  calculateTotalRouteDistance_loop waypoints total = NaN \/
  exists t, calculateTotalRouteDistance_loop waypoints total = Num t /\ (0 <= t)%R.
Proof.
  revert total. induction waypoints as [|x rest IH]; intros total Htotal; [exact Htotal|].
  destruct rest as [|y rest']; [exact Htotal|].
  cbn [calculateTotalRouteDistance_loop]. apply IH.
  fold (leg x y).
  destruct Htotal as [->|(t & -> & Ht)]; [left; reflexivity|].
  destruct (leg_NaN_or_nonneg x y) as [->|(d & -> & Hd)]; [left; reflexivity|].
  right. exists (t + d)%R. split; [reflexivity|lra].
Qed.

(** X2.  [calculateTotalRouteDistance] adds up the legs between consecutive
    waypoints: a route of fewer than two waypoints has length 0, and a
    waypoint appended to a route adds the leg from the route's last waypoint.
    Whatever the waypoints, the total is NaN or a number that is not
    negative. *)
Theorem calculateTotalRouteDistance_legs :
  calculateTotalRouteDistance [] = Num 0 /\
  (forall a, calculateTotalRouteDistance [a] = Num 0) /\
  (forall waypoints a b,
     calculateTotalRouteDistance (waypoints ++ [a; b]) =
     calculateTotalRouteDistance (waypoints ++ [a]) + leg a b) /\
  (forall waypoints,
     calculateTotalRouteDistance waypoints = NaN \/
     exists t, calculateTotalRouteDistance waypoints = Num t /\ (0 <= t)%R).
Proof.
  split; [reflexivity|]. split; [reflexivity|]. split.
  - intros; apply calculateTotalRouteDistance_loop_snoc.
  - intros waypoints. apply calculateTotalRouteDistance_loop_NaN_or_nonneg.
    right. exists 0%R; split; [reflexivity|lra].
Qed.

Lemma round_nonneg (x : R) : (0 <= x)%R -> (0 <= Int_part (x + / 2))%Z.
Proof.
  intros H. destruct (base_Int_part (x + / 2)) as [_ Hhi].
  assert (Hlt : (IZR (-1) < IZR (Int_part (x + / 2)))%R) by (simpl; lra).
  apply lt_IZR in Hlt. lia.
Qed.

Lemma eligible_within_reach (rideRequest : Ride) (availableDrivers : list Driver.t)
    (driver : Driver.t) :
  In driver availableDrivers -> eligible rideRequest driver = true ->
  within_reach availableDrivers (nearby rideRequest driver).
Proof.
  intros Hin. unfold eligible. rewrite !andb_true_iff. intros [[Hstatus Hfree] Hnear].
  unfold within_reach, nearby.
  cbn [NearbyDriver.driver NearbyDriver.distanceToPickup NearbyDriver.estimatedArrival].
  split; [exact Hin|]. split; [apply String.eqb_eq; exact Hstatus|].
  split; [destruct (Driver.current_ride driver); [discriminate | reflexivity]|].
  destruct (calculateDistance (pickup_location rideRequest) (Driver.location driver))
    as [|s|d] eqn:Hd; try discriminate.
  - destruct (calculateDistance_NaN_or_Num (pickup_location rideRequest)
                (Driver.location driver)) as [E|(d & E)]; rewrite E in Hd; discriminate.
  - pose proof (calculateDistance_Num_nonneg _ _ _ Hd) as Hlo.
    apply Rle_b_true in Hnear.
    exists d, (Int_part (d * 3 + / 2)).
    split; [reflexivity|]. split; [lra|]. split; [reflexivity|].
    split; [apply round_nonneg; lra|].
    apply le_IZR. apply (round_le_integer (d * 3) 30). lra.
Qed.

(** X15.  Every entry of the result of [findAvailableDrivers] is a driver
    of the input that is online and has no current ride, at a distance from
    0 to 10 km, with an arrival estimate that is a whole number of minutes
    from 0 to 30; the result is never longer than the input. *)
Theorem findAvailableDrivers_within_reach (rideRequest : Ride)
    (availableDrivers : list Driver.t) :
  Forall (within_reach availableDrivers) (findAvailableDrivers rideRequest availableDrivers) /\
  (List.length (findAvailableDrivers rideRequest availableDrivers) <=
   List.length availableDrivers)%nat.
Proof.
  rewrite findAvailableDrivers_eq.
  split.
  - eapply Permutation_Forall; [apply Permutation_sym, Array_sort_perm|].
    apply Forall_forall. intros found Hfound.
    apply in_map_iff in Hfound. destruct Hfound as (driver & <- & Hdriver).
    apply filter_In in Hdriver. destruct Hdriver as [Hin Heligible].
    apply eligible_within_reach; assumption.
  - rewrite (Permutation_length (Array_sort_perm _ _ _)), length_map.
    apply filter_length_le.
Qed.

Lemma sort_insert_map {A B : Type} (g : A -> B) (compareA : A -> A -> number)
    (compareB : B -> B -> number) (x : A) (sorted : list A) :
  (forall a b, compareB (g a) (g b) = compareA a b) ->
  sort_insert compareB (g x) (map g sorted) = map g (sort_insert compareA x sorted).
Proof.
  intros Hsame. induction sorted as [|y rest IH]; cbn [map sort_insert]; [reflexivity|].
  unfold sorts_after, SortCompare. rewrite Hsame.
  destruct (_ >? Num 0); cbn [map]; [rewrite IH|]; reflexivity.
Qed.

Lemma Array_sort_map {A B : Type} (g : A -> B) (compareA : A -> A -> number)
    (compareB : B -> B -> number) (array : list A) :
  (forall a b, compareB (g a) (g b) = compareA a b) ->
  Array_sort compareB (map g array) = map g (Array_sort compareA array).
Proof.
  intros Hsame. unfold Array_sort.
  induction array as [|x rest IH]; cbn [map fold_right]; [reflexivity|].
  rewrite IH. apply sort_insert_map; exact Hsame.
Qed.

Lemma filter_of_map {A B : Type} (g : A -> B) (keepA : A -> bool) (keepB : B -> bool)
    (l : list A) :
  (forall a, keepB (g a) = keepA a) ->
  filter keepB (map g l) = map g (filter keepA l).
Proof.
  intros Hsame. induction l as [|x rest IH]; cbn [map filter]; [reflexivity|].
  rewrite Hsame. destruct (keepA x); cbn [map]; rewrite IH; reflexivity.
Qed.

(** X16.  [findAvailableDrivers] reads of a driver only its status, whether
    it has a current ride, and its location: changing anything else of the
    drivers (their rating, say) changes neither which drivers are found nor
    their order, distances and arrival estimates. *)
Theorem findAvailableDrivers_reads_availability_only (rideRequest : Ride)
    (update : Driver.t -> Driver.t) (availableDrivers : list Driver.t) :
  keeps_availability update ->
  findAvailableDrivers rideRequest (map update availableDrivers) =
  map (for_driver update) (findAvailableDrivers rideRequest availableDrivers).
Proof.
  intros Hkeeps. rewrite !findAvailableDrivers_eq.
  rewrite (filter_of_map update (eligible rideRequest) (eligible rideRequest)).
  2:{ intros driver. rewrite !eligible_unavailable.
      destruct (Hkeeps driver) as (_ & -> & ->). reflexivity. }
  rewrite map_map.
  rewrite (map_ext (fun driver => nearby rideRequest (update driver))
                   (fun driver => for_driver update (nearby rideRequest driver))).
  2:{ intros driver. unfold nearby, for_driver.
      destruct (Hkeeps driver) as (_ & -> & _). reflexivity. }
  rewrite <- map_map.
  apply Array_sort_map. intros a b. reflexivity.
Qed.

Lemma findAvailableDrivers_reads_availability_only_witness :
  keeps_availability (with_rating (Num 1)) /\
  findAvailableDrivers equator_request (map (with_rating (Num 1)) [far_driver; near_driver]) =
  map (for_driver (with_rating (Num 1)))
      (findAvailableDrivers equator_request [far_driver; near_driver]).
Proof.
  assert (Hkeeps : keeps_availability (with_rating (Num 1))).
  { intros driver. repeat split. }
  split; [exact Hkeeps|].
  apply (findAvailableDrivers_reads_availability_only equator_request (with_rating (Num 1))
           [far_driver; near_driver] Hkeeps).
Defined.

(** ** The order of the candidates *)

(** X17.  When no returned score is NaN, the array that [findAvailablePools]
    returns is in non-increasing order of score, and candidates of equal
    score keep the order in which the loop found them. *)
Theorem returned_candidates_best_first (host : Host) (this : MatchingService)
    (rideRequest : Ride) (existingRides : list Ride) (w w' : World)
    (out : list PoolCandidate.t) :
  findAvailablePools host this rideRequest existingRides w = (Normal out, w') ->
  Forall score_is_number out ->
  StronglySorted
    (fun a b =>
       (PoolCandidate.compatibilityScore a >=? PoolCandidate.compatibilityScore b) = true)
    out /\
  exists compatiblePools kept,
    Forall2 built_from compatiblePools kept /\ subsequence kept existingRides /\
    Permutation out compatiblePools /\
    forall s,
      filter (fun c => Num.eqb (PoolCandidate.compatibilityScore c) s) out =
      filter (fun c => Num.eqb (PoolCandidate.compatibilityScore c) s) compatiblePools.
Proof.
  intros Hrun Hnumbers.
  destruct (findAvailablePools_sorted_when_numeric _ _ _ _ _ _ _ Hrun)
    as (pools & kept & Hbuilt & Hkept & Hperm & Hsorted).
  destruct (Hsorted Hnumbers) as [Horder Hstable].
  split; [exact Horder|].
  exists pools, kept. auto.
Qed.

(** ** A request that repeats the trip of a ride *)

Lemma repeated_trip_run (host : Host) (env_key : option string)
    (newRide existingRide : Ride) (w : World) (k : R) :
  key_configured (constructor env_key) = None ->
  coordinate (pickup_location newRide) = coordinate (pickup_location existingRide) ->
  coordinate (destination_location newRide) = coordinate (destination_location existingRide) ->
  calculateDistance (pickup_location existingRide) (destination_location existingRide)
    = Num k ->
  exists compatibility,
    calculateRouteCompatibility host (constructor env_key) newRide existingRide w
      = (Normal compatibility, w) /\
    Compatibility.isCompatible compatibility = true /\
    Compatibility.detourDistance compatibility = Some (Num 0) /\
    Compatibility.detourTime compatibility = Some (Num 0) /\
    (k <> 0%R -> Compatibility.score compatibility = Num 100) /\
    (k = 0%R -> Compatibility.score compatibility = NaN).
Proof.
  intros Hkey HP HD Hsolo.
  assert (HfP : finite_coordinate (pickup_location existingRide) = true).
  { destruct (finite_coordinate (pickup_location existingRide)) eqn:E; [reflexivity|].
    rewrite calculateDistance_not_finite in Hsolo by (left; exact E). discriminate. }
  assert (HfD : finite_coordinate (destination_location existingRide) = true).
  { destruct (finite_coordinate (destination_location existingRide)) eqn:E; [reflexivity|].
    rewrite calculateDistance_not_finite in Hsolo by (right; exact E). discriminate. }
  destruct (finite_coordinate_Num _ HfP) as (latP & lonP & EP).
  destruct (finite_coordinate_Num _ HfD) as (latD & lonD & ED).
  rewrite EP, ED, calculateDistance_Num in Hsolo. injection Hsolo as Hsolo.
  rewrite (calculateRouteCompatibility_run host (constructor env_key) _ _ w w
             (getRouteDetails_fallback host (pickup_location existingRide)
                (destination_location existingRide))).
  2:{ apply getRouteDetails_without_key; exact Hkey. }
  rewrite getOptimalPoolRoute_pool, findOptimalWaypointOrder_pool.
  rewrite HP, HD, EP, ED.
  rewrite !calculateDistance_Num, !haversine_km_same.
  assert (H2 : (Num 0 <? Num 2) = true) by (apply lt_Num; lra).
  rewrite H2.
  eexists; split; [reflexivity|].
  unfold compatibility_of, calculateCompatibilityScore.
  cbn [Compatibility.isCompatible Compatibility.score Compatibility.detourDistance
       Compatibility.detourTime constructor
       MAX_DETOUR_DISTANCE_KM MAX_DETOUR_TIME_MINUTES MAX_PICKUP_DISTANCE_KM
       getRouteDetails_fallback RouteDetails.distance RouteDetails.duration
       PooledRoute.distance PooledRoute.duration PooledRoute.pickupDistance].
  rewrite calculateTotalRouteDistance_4.
  cbn [existingPickup newPickup existingDrop newDrop location].
  rewrite HP, HD, EP, ED.
  rewrite !calculateDistance_Num, ?haversine_km_same.
  rewrite Hsolo.
  change (Num 0 + Num 0 + Num k + Num 0) with (Num (0 + 0 + k + 0)).
  replace (0 + 0 + k + 0)%R with k by lra.
  change (Num k * Num 2) with (Num (k * 2)).
  change (Num ?x - Num ?y) with (Num (x - y)).
  replace (k - k)%R with 0%R by lra.
  replace (k * 2 - k * 2)%R with 0%R by lra.
  rewrite (div_Num 0 5), (div_Num 0 15), (div_Num 0 3) by lra.
  change (Num 0 * Num 100) with (Num (0 * 100)).
  replace (0 * 100)%R with 0%R by lra.
  rewrite (round_Num 0 0) by lra.
  rewrite (div_Num 0 100) by lra.
  replace (0 / 100)%R with 0%R by lra.
  split; [simpl; decide_reals; reflexivity|].
  split; [reflexivity|]. split; [reflexivity|].
  split.
  - intros Hpos.
    rewrite (div_Num k k) by exact Hpos.
    replace (k / k)%R with 1%R by (field; exact Hpos).
    cbn [Num.mul Num.sub Num.add Num.neg].
    replace (10 + - ((1 + - (1)) * 50))%R with 10%R by lra.
    assert (Hmax : Math.max (Num 0) (Num 10) = Num 10) by (simpl; decide_reals; reflexivity).
    rewrite Hmax.
    rewrite (round_Num _ 110) by lra.
    simpl; repeat (progress (decide_reals; simpl)); reflexivity.
  - intros Hzero. rewrite Hzero. simpl.
    repeat (progress (decide_reals; simpl)); reflexivity.
Qed.



(** ** A run that ranks three candidates *)

Section Equator.
Local Open Scope R_scope.

Lemma Ratan2_sin_cos (t : R) :
  0 <= t < PI / 2 -> Math.Ratan2 (sin t) (cos t) = t.
Proof.
  intros Ht.
  assert (Hcos : 0 < cos t) by (apply cos_gt_0; lra).
  unfold Math.Ratan2, Rlt_b. destruct (Rlt_dec 0 (cos t)); [|contradiction].
  change (sin t / cos t) with (tan t). apply atan_tan. lra.
Qed.

(** Along the equator the distance is the arc: 6371 km times the
    difference of the longitudes in radians. *)
Lemma haversine_km_equator (lon1 lon2 : R) :
  0 <= lon2 - lon1 < 180 ->
  haversine_km 0 lon1 0 lon2 = 6371 * ((lon2 - lon1) * (PI / 180)).
Proof.
  intros Hlon. pose proof PI_RGT_0 as Hpi.
  unfold haversine_km; cbv zeta.
  set (t := (lon2 - lon1) * (PI / 180) / 2).
  assert (Ht : 0 <= t < PI / 2).
  { unfold t. split; [apply Rmult_le_pos; [apply Rmult_le_pos|]; lra|]. 
    assert ((lon2 - lon1) * (PI / 180) < 180 * (PI / 180)) by (apply Rmult_lt_compat_r; lra).
    lra. }
  assert (Ha : haversine_a 0 lon1 0 lon2 = sin t * sin t).
  { unfold haversine_a. fold t.
    replace ((0 - 0) * (PI / 180) / 2) with 0 by lra.
    replace (0 * (PI / 180)) with 0 by lra.
    rewrite sin_0, cos_0. ring. }
  rewrite Ha.
  assert (Hsin : 0 <= sin t) by (apply sin_ge_0; lra).
  assert (Hcos : 0 < cos t) by (apply cos_gt_0; lra).
  rewrite sqrt_square by exact Hsin.
  replace (1 - sin t * sin t) with (cos t * cos t).
  2:{ pose proof (sin2_cos2 t) as H. unfold Rsqr in H. lra. }
  rewrite sqrt_square by lra.
  rewrite Ratan2_sin_cos by exact Ht.
  unfold t. lra.
Qed.

End Equator.

(** The ride that goes further east is compatible, with a detour of about
    1.1 km and a score below 100. *)
Lemma longer_ride_compatibility (w : World) :
  match calculateRouteCompatibility offline_host (constructor None) short_request longer_ride w
  with
  | (Normal compatibility, w') =>
      w' = w /\ Compatibility.isCompatible compatibility = true /\
      exists z : Z, Compatibility.score compatibility = Num (IZR z) /\ (0 <= z < 100)%Z
  | (Throw _, _) => False
  end.
Proof.
  pose proof PI_gt_3 as Hpi3. pose proof PI_4 as Hpi4.
  unfold short_request, longer_ride.
  rewrite (calculateRouteCompatibility_run offline_host (constructor None) _ _ w w
             (getRouteDetails_fallback offline_host origin_point east_6)).
  2:{ apply getRouteDetails_without_key; reflexivity. }
  rewrite getOptimalPoolRoute_pool, findOptimalWaypointOrder_pool.
  cbn [sample_ride pickup_location destination_location].
  unfold origin_point, east_5, east_6.
  rewrite !calculateDistance_point, !haversine_km_same.
  rewrite (haversine_km_sym 0 0.06 0 0.05).
  rewrite (haversine_km_equator 0.05 0.06) by lra.
  assert (H2 : (Num 0 <? Num 2) = true) by (apply lt_Num; lra).
  rewrite H2.
  assert (H3 : (Num (6371 * ((0.06 - 0.05) * (PI / 180))) <? Num 2) = true)
    by (apply lt_Num; lra).
  rewrite H3.
  unfold compatibility_of, calculateCompatibilityScore.
  cbn [Compatibility.isCompatible Compatibility.score Compatibility.detourDistance
       Compatibility.detourTime constructor
       MAX_DETOUR_DISTANCE_KM MAX_DETOUR_TIME_MINUTES MAX_PICKUP_DISTANCE_KM
       getRouteDetails_fallback RouteDetails.distance RouteDetails.duration
       PooledRoute.distance PooledRoute.duration PooledRoute.pickupDistance].
  rewrite calculateTotalRouteDistance_4.
  cbn [existingPickup newPickup existingDrop newDrop location
       sample_ride pickup_location destination_location].
  rewrite !calculateDistance_point, ?haversine_km_same.
  rewrite (haversine_km_sym 0 0.06 0 0.05).
  rewrite (haversine_km_equator 0.05 0.06), (haversine_km_equator 0 0.06) by lra.
  set (a := (6371 * ((0.06 - 0) * (PI / 180)))%R).
  set (b := (6371 * ((0.06 - 0.05) * (PI / 180)))%R).
  assert (Hb : (1.06 < b < 1.42)%R) by (unfold b; lra).
  assert (Ha : (a = 6 * b)%R) by (unfold a, b; lra).
  assert (Ha0 : (a <> 0)%R) by lra.
  assert (Hratio : ((0 + 0 + a + b) / a = 7 / 6)%R) by (rewrite Ha; field; lra).
  change (Num 0 + Num 0 + Num a + Num b) with (Num (0 + 0 + a + b)).
  rewrite (div_Num (0 + 0 + a + b) a) by exact Ha0. rewrite Hratio.
  change (Num (0 + 0 + a + b) * Num 2) with (Num ((0 + 0 + a + b) * 2)).
  change (Num a * Num 2) with (Num (a * 2)).
  change (Num ?x - Num ?y) with (Num (x - y)).
  replace (0 + 0 + a + b - a)%R with b by lra.
  replace ((0 + 0 + a + b) * 2 - a * 2)%R with (2 * b)%R by lra.
  rewrite (div_Num b 5), (div_Num (2 * b) 15), (div_Num 0 3) by lra.
  cbn [Num.mul Num.sub Num.add Num.neg].
  assert (Hbonus : Math.max (Num 0) (Num (10 + - ((7 / 6 - 1) * 50))) =
                   Num (10 + - ((7 / 6 - 1) * 50))).
  { simpl; decide_reals; reflexivity. }
  rewrite Hbonus. cbn [Math.round].
  set (raw := (100 + - (b / 5 * 40) + - (2 * b / 15 * 30) + - (0 / 3 * 20) +
               (10 + - ((7 / 6 - 1) * 50)))%R).
  assert (Hraw : (84 < raw < 89)%R) by (unfold raw; lra).
  clearbody raw. clearbody a b.
  destruct (base_Int_part (raw + / 2)) as [Hlo Hhi].
  assert (Hz : (83 <= Int_part (raw + / 2) <= 89)%Z).
  { split.
    - assert (H : (IZR 82 < IZR (Int_part (raw + / 2)))%R) by lra.
      apply lt_IZR in H. lia.
    - assert (H : (IZR (Int_part (raw + / 2)) < IZR 90)%R) by lra.
      apply lt_IZR in H. lia. }
  pose proof (IZR_le _ _ (proj1 Hz)) as Hz1. pose proof (IZR_le _ _ (proj2 Hz)) as Hz2.
  generalize dependent (Int_part (raw + / 2)). intros z Hlo Hhi Hz Hz1 Hz2.
  cbn [Compatibility.isCompatible Compatibility.score].
  split; [reflexivity|].
  split; [simpl; decide_reals; reflexivity|].
  exists z. split; [|lia].
  simpl. repeat (progress (decide_reals; simpl)); reflexivity.
Qed.

(** A ride that repeats the request's trip scores 100. *)
Lemma same_ride_compatibility (id : string) (w : World) :
  exists compatibility,
    calculateRouteCompatibility offline_host (constructor None) short_request
      (sample_ride id origin_point east_5 300) w = (Normal compatibility, w) /\
    Compatibility.isCompatible compatibility = true /\
    Compatibility.score compatibility = Num 100.
Proof.
  pose proof PI_gt_3 as Hpi.
  destruct (repeated_trip_run offline_host None short_request
              (sample_ride id origin_point east_5 300) w
              (haversine_km 0 0 0 0.05) eq_refl eq_refl eq_refl
              (calculateDistance_point _ _ _ _ _ _))
    as (compatibility & Hrun & Hyes & _ & _ & Hscore & _).
  exists compatibility. split; [exact Hrun|]. split; [exact Hyes|].
  apply Hscore. rewrite haversine_km_equator by lra. lra.
Qed.

(** The run on the three rides: the ride found first has the lowest score
    and is returned last; the two rides of score 100 keep their order. *)
Lemma ranked_run :
  exists first second last,
    findAvailablePools offline_host (constructor None) short_request
      [longer_ride; same_ride_1; same_ride_2] [] = (Normal [first; second; last], []) /\
    PoolCandidate.poolId first = "r1"%string /\
    PoolCandidate.poolId second = "r2"%string /\
    PoolCandidate.poolId last = "far"%string /\
    PoolCandidate.compatibilityScore first = Num 100 /\
    PoolCandidate.compatibilityScore second = Num 100 /\
    exists z : Z, PoolCandidate.compatibilityScore last = Num (IZR z) /\ (0 <= z < 100)%Z.
Proof.
  pose proof (longer_ride_compatibility []) as Hfar.
  destruct (calculateRouteCompatibility offline_host (constructor None) short_request
              longer_ride []) as [[cfar|e] w'] eqn:Hrun_far; [|contradiction].
  destruct Hfar as (-> & Hyes_far & z & Hscore_far & Hz).
  destruct (same_ride_compatibility "r1" []) as (c1 & Hrun1 & Hyes1 & Hscore1).
  destruct (same_ride_compatibility "r2" []) as (c2 & Hrun2 & Hyes2 & Hscore2).
  fold same_ride_1 in Hrun1. fold same_ride_2 in Hrun2.
  exists (candidate_of short_request same_ride_1 sample_driver c1),
         (candidate_of short_request same_ride_2 sample_driver c2),
         (candidate_of short_request longer_ride sample_driver cfar).
  unfold findAvailablePools, bind.
  rewrite findAvailablePools_loop_step.
  unfold short_request at 1, longer_ride at 1. rewrite sample_ride_passes.
  fold short_request longer_ride. rewrite Hrun_far, Hyes_far.
  cbn [longer_ride sample_ride driver].
  rewrite findAvailablePools_loop_step.
  unfold short_request at 1, same_ride_1 at 1. rewrite sample_ride_passes.
  fold short_request same_ride_1. rewrite Hrun1, Hyes1.
  cbn [same_ride_1 sample_ride driver].
  rewrite findAvailablePools_loop_step.
  unfold short_request at 1, same_ride_2 at 1. rewrite sample_ride_passes.
  fold short_request same_ride_2. rewrite Hrun2, Hyes2.
  cbn [same_ride_2 sample_ride driver findAvailablePools_loop ret app].
  cbn [Array_sort fold_right sort_insert].
  unfold sorts_after, SortCompare.
  cbn [candidate_of PoolCandidate.compatibilityScore].
  rewrite Hscore_far, Hscore1, Hscore2.
  assert (Htie : ((if isNaN (Num 100 - Num 100) then Num 0 else Num 100 - Num 100) >? Num 0)
                 = false).
  { simpl. decide_reals; reflexivity. }
  rewrite Htie. cbn [sort_insert].
  unfold sorts_after, SortCompare.
  cbn [candidate_of PoolCandidate.compatibilityScore].
  rewrite Hscore_far, Hscore1, Hscore2.
  assert (Hless : ((if isNaN (Num 100 - Num (IZR z)) then Num 0 else Num 100 - Num (IZR z))
                   >? Num 0) = true).
  { assert (Hr : (IZR z <= 99)%R) by (apply (IZR_le z 99); lia).
    simpl. decide_reals; reflexivity. }
  rewrite Hless.
  split; [reflexivity|].
  repeat (split; [reflexivity|]).
  exists z. split; [reflexivity|exact Hz].
Qed.

Lemma returned_candidates_best_first_witness :
  exists first second last,
    findAvailablePools offline_host (constructor None) short_request
      [longer_ride; same_ride_1; same_ride_2] [] = (Normal [first; second; last], []) /\
    PoolCandidate.poolId first = "r1"%string /\
    PoolCandidate.poolId second = "r2"%string /\
    PoolCandidate.poolId last = "far"%string /\
    Forall score_is_number [first; second; last] /\
    StronglySorted
      (fun a b =>
         (PoolCandidate.compatibilityScore a >=? PoolCandidate.compatibilityScore b) = true)
      [first; second; last].
Proof.
  destruct ranked_run
    as (first & second & last & Hrun & Hid1 & Hid2 & Hid3 & Hs1 & Hs2 & z & Hs3 & Hz).
  assert (Hnumbers : Forall score_is_number [first; second; last]).
  { unfold score_is_number. repeat constructor; [rewrite Hs1|rewrite Hs2|rewrite Hs3];
      reflexivity. }
  exists first, second, last.
  split; [exact Hrun|]. split; [exact Hid1|]. split; [exact Hid2|]. split; [exact Hid3|].
  split; [exact Hnumbers|].
  apply (returned_candidates_best_first offline_host (constructor None) short_request
           [longer_ride; same_ride_1; same_ride_2] [] [] [first; second; last] Hrun Hnumbers).
Defined.

(** ** The server's token helpers *)

Lemma split_space_one_word (s : string) :
  one_word s = true -> split_space s = [s].
Proof.
  induction s as [|c rest IH]; cbn [one_word split_space]; [reflexivity|].
  intros H. apply andb_true_iff in H. destruct H as [Hc Hrest].
  apply negb_true_iff in Hc. rewrite Hc, (IH Hrest). reflexivity.
Qed.

Lemma split_space_two (first rest : string) :
  one_word first = true ->
  split_space (first ++ String space rest) = first :: split_space rest.
Proof.
  induction first as [|c first IH]; cbn [one_word split_space String.append].
  - intros _. rewrite Ascii.eqb_refl. reflexivity.
  - intros H. apply andb_true_iff in H. destruct H as [Hc Hfirst].
    apply negb_true_iff in Hc. rewrite Hc, (IH Hfirst). reflexivity.
Qed.

Lemma append_not_empty (first rest : string) :
  String.eqb (first ++ String space rest) EmptyString = false.
Proof. destruct first; reflexivity. Qed.

Lemma authenticateToken_two_words (scheme word : string) :
  one_word scheme = true -> one_word word = true ->
  authenticateToken (Some (scheme ++ " " ++ word)%string) =
  if String.eqb word EmptyString then token_required else Next (remove_first "token_" word).
Proof.
  intros Hscheme Hword. unfold authenticateToken.
  change (" " ++ word)%string with (String space word).
  rewrite append_not_empty, (split_space_two _ _ Hscheme), (split_space_one_word _ Hword).
  reflexivity.
Qed.

(** X19.  A token made by [generateToken] authenticates as its user: for a
    user id without a space, the header made of any scheme word, a space
    and the token passes [authenticateToken], which sets that user id. *)
Theorem generated_token_authenticates (scheme userId : string) :
  one_word scheme = true -> one_word userId = true ->
  authenticateToken (Some (scheme ++ " " ++ generateToken userId)%string) = Next userId.
Proof.
  intros Hscheme Huser.
  rewrite (authenticateToken_two_words scheme (generateToken userId) Hscheme Huser).
  unfold generateToken. destruct userId; reflexivity.
Qed.

Lemma generated_token_authenticates_witness :
  authenticateToken (Some ("Bearer" ++ " " ++ generateToken "64f1c0ffee")%string) = Next "64f1c0ffee".
Proof.
  apply (generated_token_authenticates "Bearer" "64f1c0ffee"); reflexivity.
Defined.

(** X20.  [authenticateToken] answers 401 'Access token required' when the
    header is missing or holds no space, or when nothing follows its first
    space; every other header of two words is let through, whatever the
    second word is: the user id is that word without its first 'token_',
    and nothing is verified. *)
Theorem authenticateToken_accepts_any_word :
  authenticateToken None = token_required /\
  (forall header, one_word header = true -> authenticateToken (Some header) = token_required) /\
  (forall scheme, one_word scheme = true ->
     authenticateToken (Some (scheme ++ " ")%string) = token_required) /\
  (forall scheme word,
     one_word scheme = true -> one_word word = true -> word <> EmptyString ->
     authenticateToken (Some (scheme ++ " " ++ word)%string) = Next (remove_first "token_" word)).
Proof.
  split; [reflexivity|]. split; [|split].
  - intros header Hword. unfold authenticateToken.
    rewrite (split_space_one_word _ Hword).
    destruct (String.eqb header EmptyString); reflexivity.
  - intros scheme Hscheme.
    exact (authenticateToken_two_words scheme EmptyString Hscheme eq_refl).
  - intros scheme word Hscheme Hword Hne.
    rewrite (authenticateToken_two_words scheme word Hscheme Hword).
    destruct (String.eqb_spec word EmptyString); [contradiction | reflexivity].
Qed.

(** * The haversine distance in binary64 *)

Section Binary64Properties.

Import SpecFloat.
Import Binary64.

(** ** Constants *)

Lemma radians_per_degree :
  div Math.PI (of_Z 180) = S754_finite false 5030569068109113 (-58).
Proof. vm_compute. reflexivity. Qed.

Lemma literal_2 : of_Z 2 = S754_finite false 4503599627370496 (-51).
Proof. vm_compute. reflexivity. Qed.




(** ** NaN and the infinities *)

Lemma difference_not_finite (x y : float) :
  is_finite x && is_finite y = false -> is_finite (sub x y) = false.
Proof.
  destruct x as [s|s| |s m e], y as [t|t| |t n f]; try discriminate; intros _;
    try reflexivity; destruct s, t; reflexivity.
Qed.

Lemma half_angle_not_finite (host : Host) (x : float) :
  is_finite x = false -> Math.sin host (div (toRadians x) (of_Z 2)) = nan.
Proof.
  unfold toRadians. rewrite radians_per_degree, literal_2.
  destruct x as [s|s| |s m e]; try discriminate; intros _; reflexivity.
Qed.

Lemma add_nan_r (x : float) : add x nan = nan.
Proof. destruct x; reflexivity. Qed.

(** X1.  In binary64, on any engine, [calculateDistance] is NaN whenever a
    latitude or a longitude of one of the two points is NaN or an
    infinity. *)
Theorem calculateDistance_not_finite_binary64 (host : Host) (point1 point2 : Coordinate) :
  finite_coordinate point1 && finite_coordinate point2 = false ->
  calculateDistance host point1 point2 = nan.
Proof.
  intros Hnot.
  assert (Ha : is_finite (latitude point2) && is_finite (latitude point1) = false \/
               is_finite (longitude point2) && is_finite (longitude point1) = false).
  { unfold finite_coordinate in Hnot.
    destruct (is_finite (latitude point1)), (is_finite (longitude point1)),
      (is_finite (latitude point2)), (is_finite (longitude point2));
      try discriminate; auto. }
  unfold calculateDistance.
  match goal with
  | |- mul _ (mul _ (Math.atan2 _ (Math.sqrt ?a) _)) = _ => assert (Hnan : a = nan)
  end.
  { destruct Ha as [Hlat|Hlon].
    - rewrite (half_angle_not_finite host _ (difference_not_finite _ _ Hlat)). reflexivity.
    - rewrite (half_angle_not_finite host _ (difference_not_finite _ _ Hlon)).
      apply add_nan_r. }
  rewrite Hnan. reflexivity.
Qed.

Lemma calculateDistance_not_finite_binary64_witness :
  calculateDistance small_angle_host nowhere bangalore = nan.
Proof.
  apply (calculateDistance_not_finite_binary64 small_angle_host nowhere bangalore).
  reflexivity.
Defined.

(** ** From a point to itself *)




(** ** The sign *)







(** ** Exchanging the two points *)











(** The formula multiplies the squared sine by the cosine of the first
    latitude and then by that of the second.  In binary64 the order of the
    two cosines can change the product in its last place, which is why the
    exchange above is stated for equal latitudes: here [p], [c1] and [c2]
    are the squared sine and the two cosines between 12.9 N, 77.5 E and
    12.95 N, 77.65 E, correctly rounded. *)
Lemma product_depends_on_order :
  let p := S754_finite false 8091642778202049 (-72) in
  let c1 := S754_finite false 8779868301869612 (-53) in
  let c2 := S754_finite false 8778110154078928 (-53) in
  mul (mul p c1) c2 = S754_finite false 7686810757541630 (-72) /\
  mul (mul p c2) c1 = S754_finite false 7686810757541629 (-72).
Proof. split; vm_compute; reflexivity. Qed.

(** ** The engine of the examples *)




(** ** The properties of the distance *)




End Binary64Properties.
